(** * The concurrency substrate of QuantTrading: queues and thread pool

    A shallow embedding of
    - [base/common/lock_free/lock_free_queue.h]  (Michael-Scott style queue),
    - [base/common/safe_queue/safe_queue.h]      (mutex protected deque),
    - the two [ThreadPool] classes built on them,
    together with the properties the specification states about them. *)

From stdpp Require Import gmap list strings.
From Stdlib Require Import ZArith Lia.

(** What a single consumer is expected to see when it drains a queue that
    holds the values [vs], oldest first, into a variable that starts as
    [value]: each of them with the flag [true], then one call that returns
    [false] and leaves the variable alone. *)
Definition fifo_trace {T} (value : T) (vs : list T) : list (bool * T) :=
  ((λ v, (true, v)) <$> vs) ++ [(false, default value (last vs))].

(** * Part 1: [LockFreeQueue<T>] *)

Module LockFree.

(** ** Memory

    Nodes live on the C++ heap.  A pointer is [option nat]: [None] is
    [nullptr], [Some a] the address [a].  [nodes] holds the live objects;
    a freed address is removed from it, so that touching it is detected.
    [new] hands out the address [alloc] picks for the current heap; the
    only thing assumed of it ([fresh_alloc]) is that the address is not
    that of a live object, so freed addresses may come back.  [spurious]
    lists, in program order, which of the coming [compare_exchange_weak]
    calls fail although the compared values agree (the C++ standard lets
    the weak form do that); once the list is used up no call fails that
    way. *)

Section queue.

Context {T : Type}.

(** What [std::move] leaves behind in a moved-from [T]. *)
Variable moved_from : T → T.

(** [T dummy;] in [clear]: the default-constructed value. *)
Variable T_default : T.

Record Node := mkNode {
  data : option T;        (* std::unique_ptr<T> data  *)
  next : option nat       (* std::atomic<Node*> next  *)
}.

Record store := mkStore {
  nodes : gmap nat Node;
  spurious : list bool
}.

(** The allocator behind [new]. *)
Variable alloc : gmap nat Node → nat.

Definition fresh_alloc : Prop := ∀ h, h !! alloc h = None.

Record LockFreeQueue := mkQueue {
  head_ : option nat;     (* std::atomic<Node<T>*> head_ *)
  tail_ : option nat      (* std::atomic<Node<T>*> tail_ *)
}.

(** The result of running a piece of code on a store. [Fault] is undefined
    behaviour (null or dangling dereference, double free); [Timeout] means
    the loop budget ran out. *)
Inductive outcome (A : Type) : Type :=
| Done (a : A) (σ : store)
| Fault
| Timeout.
Global Arguments Done {A} a σ.
Global Arguments Fault {A}.
Global Arguments Timeout {A}.

Definition M (A : Type) : Type := store → outcome A.

Definition ret {A} (a : A) : M A := λ σ, Done a σ.

Definition bind {A B} (m : M A) (k : A → M B) : M B :=
  λ σ, match m σ with
       | Done a σ' => k a σ'
       | Fault => Fault
       | Timeout => Timeout
       end.

Definition fault {A} : M A := λ _, Fault.
Definition timeout {A} : M A := λ _, Timeout.

Notation "'let*' x ':=' m 'in' k" := (bind m (λ x, k))
  (at level 10, x pattern, m at level 100, k at level 200).

(** [new Node<T>()] and [new Node<T>(std::move(value))]. *)
Definition new_node (d : option T) : M (option nat) :=
  λ σ, Done (Some (alloc (nodes σ)))
            (mkStore (<[alloc (nodes σ) := mkNode d None]> (nodes σ)) (spurious σ)).

(** Reading through a pointer. *)
Definition deref (p : option nat) : M Node :=
  λ σ, match p with
       | None => Fault
       | Some a => match nodes σ !! a with
                   | Some n => Done n σ
                   | None => Fault
                   end
       end.

Definition write (a : nat) (n : Node) : M unit :=
  λ σ, Done tt (mkStore (<[a := n]> (nodes σ)) (spurious σ)).

(** [p->next.load(...)]. *)
Definition load_next (p : option nat) : M (option nat) :=
  let* n := deref p in ret (next n).

(** Whether the coming weak compare-exchange fails spuriously. *)
Definition flip : M bool :=
  λ σ, Done (default false (head (spurious σ)))
            (mkStore (nodes σ) (tail (spurious σ))).

(** [cell.compare_exchange_weak(expected, desired)] on a value [cur] of the
    cell: the success flag, the new value of the cell, the new value of
    [expected] (left alone on success, overwritten with the cell on failure). *)
Definition cas_weak (sp : bool) (cur expected desired : option nat)
  : bool * option nat * option nat :=
  if bool_decide (cur = expected) && negb sp
  then (true, desired, expected)
  else (false, cur, cur).

(** [p->next.compare_exchange_weak(expected, desired)]. *)
Definition next_compare_exchange_weak (p expected desired : option nat)
  : M (bool * option nat) :=
  let* n := deref p in
  let* sp := flip in
  let '(ok, cell, expected') := cas_weak sp (next n) expected desired in
  match p with
  | Some a => let* _ := write a (mkNode (data n) cell) in ret (ok, expected')
  | None => fault
  end.

(** [value = std::move( *p->data )]: the payload is moved out of the node. *)
Definition move_data (p : option nat) : M T :=
  let* n := deref p in
  match data n, p with
  | Some v, Some a =>
      let* _ := write a (mkNode (Some (moved_from v)) (next n)) in ret v
  | _, _ => fault
  end.

(** [delete p]. *)
Definition delete_node (p : option nat) : M unit :=
  λ σ, match p with
       | None => Done tt σ
       | Some a => match nodes σ !! a with
                   | Some _ => Done tt (mkStore (delete a (nodes σ)) (spurious σ))
                   | None => Fault
                   end
       end.

(** ** The member functions *)

(** [LockFreeQueue() : head_(new Node<T>()), tail_(head_.load()) {}] *)
Definition construct : M LockFreeQueue :=
  let* h := new_node None in ret (mkQueue h h).

(** Move constructor: the pair is (the new queue, what is left of [other]). *)
Definition move_construct (other : LockFreeQueue) : LockFreeQueue * LockFreeQueue :=
  (mkQueue (head_ other) (tail_ other), mkQueue None None).

(** The [while (true)] of [enqueue]; [old_tail] is the local variable. *)
Fixpoint enqueue_loop (fuel : nat) (new_node old_tail : option nat)
    (q : LockFreeQueue) : M LockFreeQueue :=
  match fuel with
  | O => timeout
  | S fuel =>
      let* nx := load_next old_tail in
      match nx with
      | Some _ =>
          let* sp := flip in
          let '(_, cell, old_tail') := cas_weak sp (tail_ q) old_tail nx in
          enqueue_loop fuel new_node old_tail' (mkQueue (head_ q) cell)
      | None =>
          let* r := next_compare_exchange_weak old_tail nx new_node in
          if fst r
          then
            let* sp := flip in
            let '(_, cell, _) := cas_weak sp (tail_ q) old_tail new_node in
            ret (mkQueue (head_ q) cell)
          else enqueue_loop fuel new_node old_tail q
      end
  end.

Definition enqueue (fuel : nat) (value : T) (q : LockFreeQueue) : M LockFreeQueue :=
  let* new_node := new_node (Some value) in
  enqueue_loop fuel new_node (tail_ q) q.

(** The [while (true)] of [dequeue]; the result is the returned flag, the
    caller's [value] afterwards, and the queue object. *)
Fixpoint dequeue_loop (fuel : nat) (old_head : option nat) (value : T)
    (q : LockFreeQueue) : M (bool * T * LockFreeQueue) :=
  match fuel with
  | O => timeout
  | S fuel =>
      match old_head with
      | None => ret (false, value, q)
      | Some _ =>
          let* nx := load_next old_head in
          match nx with
          | None => ret (false, value, q)
          | Some _ =>
              let* sp := flip in
              let '(ok, cell, old_head') := cas_weak sp (head_ q) old_head nx in
              if ok
              then
                let* v := move_data nx in
                let* _ := delete_node old_head in
                ret (true, v, mkQueue cell (tail_ q))
              else dequeue_loop fuel old_head' value (mkQueue cell (tail_ q))
          end
      end
  end.

Definition dequeue (fuel : nat) (value : T) (q : LockFreeQueue)
  : M (bool * T * LockFreeQueue) :=
  dequeue_loop fuel (head_ q) value q.

Definition empty (q : LockFreeQueue) : M bool :=
  let* nx := load_next (head_ q) in
  ret (bool_decide (nx = None)).

(** [while (dequeue(dummy)) {}] *)
Fixpoint clear_loop (fuel : nat) (dummy : T) (q : LockFreeQueue) : M LockFreeQueue :=
  match fuel with
  | O => timeout
  | S fuel' =>
      let* r := dequeue fuel dummy q in
      if fst (fst r) then clear_loop fuel' (snd (fst r)) (snd r) else ret (snd r)
  end.

Definition clear (fuel : nat) (q : LockFreeQueue) : M LockFreeQueue :=
  clear_loop fuel T_default q.

(** Move assignment [this = std::move(other)] for [this != &other]. *)
Definition move_assign (fuel : nat) (this other : LockFreeQueue)
  : M (LockFreeQueue * LockFreeQueue) :=
  let* _ := clear fuel this in
  ret (mkQueue (head_ other) (tail_ other), mkQueue None None).

(** [~LockFreeQueue()] *)
Definition destroy (fuel : nat) (q : LockFreeQueue) : M unit :=
  let* q' := clear fuel q in
  delete_node (head_ q').

(** ** Shape of the linked list *)

Definition next_at (h : gmap nat Node) (a : nat) : option (option nat) :=
  next <$> h !! a.

(** [chain h c]: the addresses [c], in order, are live nodes linked by
    [next], and the last one has a null [next]. *)
Fixpoint chain (h : gmap nat Node) (c : list nat) : Prop :=
  match c with
  | [] => False
  | a :: r =>
      match r with
      | [] => next_at h a = Some None
      | b :: _ => next_at h a = Some (Some b) ∧ chain h r
      end
  end.

(** Node [b] owns the payload [v]. *)
Definition holds (h : gmap nat Node) (b : nat) (v : T) : Prop :=
  data <$> h !! b = Some (Some v).

(** The sentinel invariant: [head_] points to the first node of a chain [c];
    that node is the sentinel, the nodes after it hold the queued values
    [vs], oldest first. *)
Record sentinel (σ : store) (q : LockFreeQueue) (c : list nat) (vs : list T) : Prop :=
  mkSentinel {
    sen_head : head_ q = head c;
    sen_some : is_Some (head_ q);
    sen_chain : chain (nodes σ) c;
    sen_nodup : NoDup c;
    sen_holds : Forall2 (holds (nodes σ)) (tail c) vs
  }.

Definition sentinel_inv (σ : store) (q : LockFreeQueue) (vs : list T) : Prop :=
  ∃ c, sentinel σ q c vs.

(** [tail_] is the last node, or (after a failed best-effort advance) the
    one before it. *)
Definition tail_near (q : LockFreeQueue) (c : list nat) : Prop :=
  tail_ q = last c ∨ ∃ pre p l, c = pre ++ [p; l] ∧ tail_ q = Some p.

(** The state between calls when no compare-exchange failed spuriously. *)
Definition wf (σ : store) (q : LockFreeQueue) (vs : list T) : Prop :=
  ∃ c, sentinel σ q c vs ∧ tail_ q = last c.

(** The same with a [tail_] that may lag by one link. *)
Definition wf_lag (σ : store) (q : LockFreeQueue) (vs : list T) : Prop :=
  ∃ c, sentinel σ q c vs ∧ tail_near q c.

Definition quiet (σ : store) : Prop := spurious σ = [].

(** Where the loop of [enqueue] stands: its local [old_tail] against the
    shared [tail_] and the last node [l].  The number counts the rounds the
    loop still needs before it can link. *)
Definition lagging (σ : store) (q : LockFreeQueue) (old_tail : option nat)
    (l : nat) (rank : nat) : Prop :=
  (rank = 0 ∧ old_tail = Some l ∧ tail_ q = Some l) ∨
  (∃ p, next_at (nodes σ) p = Some (Some l) ∧ p ≠ l ∧ old_tail = Some p ∧
        ((rank = 1 ∧ tail_ q = Some l) ∨ (rank = 2 ∧ tail_ q = Some p))).

(** What a successful [dequeue] leaves in memory: the old sentinel [hd] is
    freed and the node [b] after it, emptied of its payload [v], is the new
    sentinel. *)
Definition popped (v : T) (hd b : nat) (nb : option nat) (h : gmap nat Node)
  : gmap nat Node :=
  delete hd (<[b := mkNode (Some (moved_from v)) nb]> h).

(** ** Sequential programs over one queue *)

Inductive op : Type :=
| Enqueue (v : T)
| Dequeue
| Clear.

(** One call; [value] is the caller's variable handed to [dequeue], the
    [option bool] is what a [dequeue] returned. *)
Definition exec (fuel : nat) (o : op) (value : T) (q : LockFreeQueue)
  : M (option bool * T * LockFreeQueue) :=
  match o with
  | Enqueue v => let* q' := enqueue fuel v q in ret (None, value, q')
  | Dequeue => let* r := dequeue fuel value q in
               ret (Some (fst (fst r)), snd (fst r), snd r)
  | Clear => let* q' := clear fuel q in ret (None, value, q')
  end.

(** A program, call after call; the trace lists, for each [dequeue], the
    flag it returned and the caller's variable after it. *)
Fixpoint run (fuel : nat) (prog : list op) (value : T) (q : LockFreeQueue)
  : M (list (bool * T) * T * LockFreeQueue) :=
  match prog with
  | [] => ret ([], value, q)
  | o :: prog' =>
      let* r := exec fuel o value q in
      let '(flag, value', q') := r in
      let* r' := run fuel prog' value' q' in
      let '(tr, value'', q'') := r' in
      ret (match flag with Some b => (b, value') :: tr | None => tr end, value'', q'')
  end.

(** A single producer enqueueing [vs] in order. *)
Fixpoint enqueue_all (fuel : nat) (vs : list T) (q : LockFreeQueue) : M LockFreeQueue :=
  match vs with
  | [] => ret q
  | v :: vs' => let* q' := enqueue fuel v q in enqueue_all fuel vs' q'
  end.

(** A single consumer calling [dequeue] [n] times. *)
Fixpoint dequeue_times (fuel n : nat) (value : T) (q : LockFreeQueue)
  : M (list (bool * T) * LockFreeQueue) :=
  match n with
  | O => ret ([], q)
  | S n' =>
      let* r := dequeue fuel value q in
      let* r' := dequeue_times fuel n' (snd (fst r)) (snd r) in
      ret ((fst (fst r), snd (fst r)) :: fst r', snd r')
  end.

(** A fresh queue, filled by the producer and then drained by the consumer
    with one call more than there are values. *)
Definition produce_consume (fuel : nat) (vs : list T) (value : T)
  : M (list (bool * T)) :=
  let* q := construct in
  let* q' := enqueue_all fuel vs q in
  let* r := dequeue_times fuel (S (length vs)) value q' in
  ret (fst r).

(** The same calls on a plain list, oldest element first. *)
Fixpoint run_list (prog : list op) (value : T) (vs : list T)
  : list (bool * T) * T * list T :=
  match prog with
  | [] => ([], value, vs)
  | Enqueue v :: prog' => run_list prog' value (vs ++ [v])
  | Dequeue :: prog' =>
      match vs with
      | [] => let '(tr, value', vs') := run_list prog' value [] in
              ((false, value) :: tr, value', vs')
      | v :: rest => let '(tr, value', vs') := run_list prog' v rest in
                     ((true, v) :: tr, value', vs')
      end
  | Clear :: prog' => run_list prog' value []
  end.

(** ** The memory of one queue

    [owns frame σ c]: the live objects are the nodes [c] of the queue and,
    beside them, exactly the objects of [frame]. *)
Definition owns (frame : gmap nat Node) (σ : store) (c : list nat) : Prop :=
  (∀ a, a ∈ c → frame !! a = None) ∧ (∀ a, a ∉ c → nodes σ !! a = frame !! a).

(** The heap [h] without the objects at the addresses [c]. *)
Definition without (h : gmap nat Node) (c : list nat) : gmap nat Node :=
  filter (λ kv, kv.1 ∉ c) h.

(** Two queues in a scope, [this = std::move(other);] and the end of the
    scope: the assignment, then the destructors of both objects. *)
Definition assign_and_destroy (fuel : nat) (this other : LockFreeQueue) : M unit :=
  let* r := move_assign fuel this other in
  let* _ := destroy fuel (fst r) in
  destroy fuel (snd r).

(** A queue that lives in a scope: constructed, used by a program, and
    destroyed on leaving it.  The result is the trace of the program. *)
Definition scoped (fuel : nat) (prog : list op) (value : T) : M (list (bool * T)) :=
  let* q := construct in
  let* r := run fuel prog value q in
  let* _ := destroy fuel (snd r) in
  ret (fst (fst r)).

End queue.

Notation "'let*' x ':=' m 'in' k" := (bind m (λ x, k))
  (at level 10, x pattern, m at level 100, k at level 200).

End LockFree.

(** * Part 2: [SafeQueue<T>] *)

Module Safe.
Section queue.

Context {T : Type}.

(** [mutex_] and [cv_] only order the callers; every member function runs
    under the lock, so each is one atomic change of [data_]. *)
Record SafeQueue := mkSafeQueue {
  data_ : list T          (* std::deque<T> data_, front first *)
}.

Definition create : SafeQueue := mkSafeQueue [].

(** [data_.push_back(value); cv_.notify_one();] *)
Definition push (value : T) (q : SafeQueue) : SafeQueue :=
  mkSafeQueue (data_ q ++ [value]).

(** The returned flag, the caller's [value] afterwards, the queue. *)
Definition pop (value : T) (q : SafeQueue) : bool * T * SafeQueue :=
  match data_ q with
  | [] => (false, value, q)
  | front :: rest => (true, front, mkSafeQueue rest)
  end.

(** [block_pop]: while [data_] is empty the caller sleeps in [cv_.wait],
    which gives the lock away; [env] lists what the other threads did to the
    queue during each sleep, one entry per wake-up (a wake-up that finds the
    queue still empty is a spurious one or a lost race).  [None]: the
    caller is still asleep when [env] is used up. *)
Fixpoint block_pop (env : list (SafeQueue → SafeQueue)) (value : T) (q : SafeQueue)
  : option (bool * T * SafeQueue) :=
  match data_ q with
  | front :: rest => Some (true, front, mkSafeQueue rest)
  | [] =>
      match env with
      | [] => None
      | others :: env' => block_pop env' value (others q)
      end
  end.

(** The queue a sleeping caller finds at its [k]-th wake-up. *)
Definition woken (env : list (SafeQueue → SafeQueue)) (k : nat) (q : SafeQueue)
  : SafeQueue :=
  foldl (λ q others, others q) q (take k env).

Definition size (q : SafeQueue) : nat := length (data_ q).

Definition empty (q : SafeQueue) : bool := bool_decide (data_ q = []).

Definition clear (q : SafeQueue) : SafeQueue := mkSafeQueue [].

Definition push_bulk (range : list T) (q : SafeQueue) : SafeQueue :=
  mkSafeQueue (data_ q ++ range).

(** A single producer pushing [vs] in order. *)
Definition push_all (vs : list T) (q : SafeQueue) : SafeQueue :=
  foldl (λ q v, push v q) q vs.

(** A single consumer calling [pop] [n] times; for each call the flag it
    returned and the caller's variable after it. *)
Fixpoint pop_times (n : nat) (value : T) (q : SafeQueue) : list (bool * T) * SafeQueue :=
  match n with
  | O => ([], q)
  | S n' =>
      let '(ok, value', q') := pop value q in
      let '(tr, q'') := pop_times n' value' q' in
      ((ok, value') :: tr, q'')
  end.

End queue.
Global Arguments SafeQueue : clear implicits.
End Safe.

(** * Part 3: the two [ThreadPool] classes

    [Locked] is [quant::base::common::thread_pool::ThreadPool], built on
    [SafeQueue]; [LockFree] is [quant::shared::base::thread_pool::ThreadPool],
    built on [LockFreeQueue].  Threads interleave at their accesses to the
    shared members: each program counter below names the access a thread
    is about to make, and a step of the system is one thread making it.
    The task queue is a list changed atomically by [push] and [pop].  For
    [SafeQueue] that is what its mutex gives.  For [LockFreeQueue] it is
    what the queue does as long as the calls on it do not overlap (Parts 1
    and 6): one worker taking tasks after the submissions, or every
    [enqueue] before every [dequeue].  Two workers inside [dequeue] at
    once are outside this model: the queue itself can then free a node
    the other worker still reads.  What is stated below for the [LockFree]
    pool is therefore about single steps that do not touch the queue, or
    about runs in which the calls on the queue come one after the other;
    statements over all runs are made for the [Locked] pool.

    [wait_mutex_] and [wait_cv_] carry no data: a thread in
    [wait_cv_.wait(lock, pred)] is a thread that cannot step until [pred]
    holds, and [notify_all] changes nothing.  The tests [if (task)] on the
    closures are always passed, since [submit] is the only code that puts
    closures on the queue. *)

Module Pool.

Inductive variant : Type := Locked | LockFree.

Definition size_t_max : Z := 2 ^ 64.

(** [std::atomic<size_t>]: arithmetic wraps. *)
Definition fetch_add (c : Z) : Z := Z.modulo (c + 1) size_t_max.
Definition fetch_sub (c : Z) : Z := Z.modulo (c - 1) size_t_max.

Inductive exn : Type :=
| runtime_error (what : string)
| invalid_argument (what : string)
| future_error (what : string)
| std_exception (what : string)
| unknown (tag : nat).               (* not derived from std::exception *)

Definition is_std_exception (e : exn) : bool :=
  match e with unknown _ => false | _ => true end.

Definition what (e : exn) : string :=
  match e with
  | runtime_error w | invalid_argument w | future_error w | std_exception w => w
  | unknown _ => ""%string
  end.

Section pool.

(** [U]: everything the submitted callables read and write; [V]: what they
    return. *)
Context {U V : Type}.

Inductive result : Type :=
| Returned (v : V)
| Threw (e : exn).

(** A callable with its bound arguments: run on the user's state it returns
    or throws, and leaves a new state either way. *)
Definition callable : Type := U → result * U.

(** The shared state behind a [std::packaged_task] and its [std::future]. *)
Inductive slot : Type :=
| Pending
| Ready (v : V)
| Failed (e : exn)
| Broken.

(** The closure [submit] puts on the queue: it owns the packaged task with
    shared state number [fid], wrapping [fn]. *)
Record Task := mkTask {
  fid : nat;
  fn : callable
}.

Record ThreadPool := mkPool {
  wait_for_completion_ : bool;
  is_running_ : bool;                 (* std::atomic<bool> *)
  task_count_ : Z;                    (* std::atomic<size_t> *)
  threads_ : nat;                     (* threads_.size() *)
  task_queue_ : Safe.SafeQueue Task
}.

(** The pool, the futures handed out so far, the user's state, what was
    written to [std::cerr], and three tallies kept for the proofs only:
    increments of [task_count_] by [submit], decrements by the completion
    hook of a task, decrements by [clear_queue]. *)
Record world := mkWorld {
  pool : ThreadPool;
  futures : list slot;
  user : U;
  cerr : list string;
  submitted : nat;
  completed : nat;
  discarded : nat
}.

Inductive phase : Type :=
| Serving         (* inside [while (is_running_)] *)
| Draining.       (* in the loop after it *)

Inductive worker_pc : Type :=
| WCheck                            (* while (is_running_.load()) *)
| WPop                              (* task_queue_.pop(task) *)
| WInvoke (ph : phase) (t : Task)   (* task(): the wrapper runs ( *task )() *)
| WCount (ph : phase) (t : Task)    (* task_count_.fetch_sub(1) in the wrapper *)
| WAfter                            (* the test after the loop *)
| WDrain                            (* task_queue_.pop(remaining_task) *)
| WExit.

Inductive call : Type :=
| Submit (f : callable)
| Stop (wait_for_completion : bool)
| WaitAll
| PendingTasks
| IsRunning
| ThreadCount
| Get (future : nat).               (* std::future::get() *)

Inductive answer : Type :=
| RVoid
| RFuture (future : nat)
| RCount (n : Z)
| RBool (b : bool)
| RValue (v : V)
| RThrow (e : exn).

Inductive caller_pc : Type :=
| Call (c : call)                       (* about to enter the function *)
| SubmitCount (t : Task)                (* task_count_.fetch_add(1) *)
| SubmitPush (t : Task)                 (* task_queue_.push(...) *)
| StopClear (dummy : option Task)       (* while (task_queue_.pop(dummy)) *)
| StopClearCount (t : Task)             (* task_count_.fetch_sub(1) in clear_queue *)
| StopWait                              (* wait_all() inside stop *)
| StopJoin (wait_for_completion : bool) (* join every worker; threads_.clear() *)
| Finished (c : call) (r : answer).

Inductive thread : Type :=
| Worker (pc : worker_pc)
| Caller (pc : caller_pc).

Record config := mkConfig {
  shared : world;
  threads : list thread
}.

Definition with_pool (w : world) (p : ThreadPool) : world :=
  mkWorld p (futures w) (user w) (cerr w) (submitted w) (completed w) (discarded w).

Definition with_queue (p : ThreadPool) (q : Safe.SafeQueue Task) : ThreadPool :=
  mkPool (wait_for_completion_ p) (is_running_ p) (task_count_ p) (threads_ p) q.

Definition with_count (p : ThreadPool) (c : Z) : ThreadPool :=
  mkPool (wait_for_completion_ p) (is_running_ p) c (threads_ p) (task_queue_ p).

Definition log (w : world) (line : string) : world :=
  mkWorld (pool w) (futures w) (user w) (cerr w ++ [line])
          (submitted w) (completed w) (discarded w).

(** What the shared state holds once the callable has run, and the answer
    [future.get()] then gives. *)
Definition slot_of (r : result) : slot :=
  match r with Returned v => Ready v | Threw e => Failed e end.

Definition answer_of (r : result) : answer :=
  match r with Returned v => RValue v | Threw e => RThrow e end.

(** [( *task )()] on a packaged task: the callable runs once; what it
    returns or throws goes into the shared state.  A second invocation
    throws [std::future_error].  The result is the exception leaving the
    call, if any. *)
Definition invoke (t : Task) (w : world) : option exn * world :=
  match futures w !! fid t with
  | Some Pending =>
      let ru := fn t (user w) in
      (None, mkWorld (pool w) (<[fid t := slot_of ru.1]> (futures w)) ru.2 (cerr w)
                     (submitted w) (completed w) (discarded w))
  | Some _ => (Some (future_error "promise already satisfied"), w)
  | None => (Some (future_error "no state"), w)
  end.

(** Destroying a closure that never ran destroys its packaged task, which
    breaks the promise. *)
Definition abandon (t : option Task) (w : world) : world :=
  match t with
  | None => w
  | Some t =>
      match futures w !! fid t with
      | Some Pending =>
          mkWorld (pool w) (<[fid t := Broken]> (futures w)) (user w) (cerr w)
                  (submitted w) (completed w) (discarded w)
      | _ => w
      end
  end.

(** Where a worker goes after a task. *)
Definition resume (ph : phase) : worker_pc :=
  match ph with Serving => WCheck | Draining => WDrain end.

Definition stopped_message (var : variant) : string :=
  match var with
  | Locked => "ThreadPool is stopped"
  | LockFree => "ThreadPool is not running"
  end.

(** One step of a worker in [worker_thread].  In [WInvoke] the wrapper
    built by [submit] runs the packaged task inside its [try]; the
    [Locked] wrapper catches [std::exception] only, and anything else goes
    on to the handlers of the worker, past the decrement. *)
Definition worker_thread (var : variant) (w : world) (pc : worker_pc)
  : option (world * worker_pc) :=
  let p := pool w in
  match pc with
  | WCheck => Some (w, if is_running_ p then WPop else WAfter)
  | WPop =>
      match Safe.data_ (task_queue_ p) with
      | [] => Some (w, WCheck)                        (* std::this_thread::yield() *)
      | t :: rest => Some (with_pool w (with_queue p (Safe.mkSafeQueue rest)),
                           WInvoke Serving t)
      end
  | WInvoke ph t =>
      match invoke t w with
      | (None, w') => Some (w', WCount ph t)
      | (Some e, w') =>
          match var, is_std_exception e with
          | Locked, true => Some (log w' ("Task error: " ++ what e), WCount ph t)
          | LockFree, _ => Some (w', WCount ph t)     (* catch (...) *)
          | Locked, false =>
              (* leaves the wrapper; caught by the worker *)
              Some (match ph with
                    | Serving => log w' "[WorkerThread] Unknown task error"
                    | Draining => w'
                    end, resume ph)
          end
      end
  | WCount ph t =>
      Some (mkWorld (with_count p (fetch_sub (task_count_ p)))
                    (futures w) (user w) (cerr w)
                    (submitted w) (S (completed w)) (discarded w),
            resume ph)
  | WAfter =>
      match var with
      | Locked => Some (w, if wait_for_completion_ p then WDrain else WExit)
      | LockFree => Some (w, if negb (is_running_ p) then WDrain else WExit)
      end
  | WDrain =>
      match Safe.data_ (task_queue_ p) with
      | [] => Some (w, WExit)
      | t :: rest => Some (with_pool w (with_queue p (Safe.mkSafeQueue rest)),
                           WInvoke Draining t)
      end
  | WExit => None
  end.

(** One step of a thread that called a member function.  [joined] tells
    whether every worker has left [worker_thread].  [None]: the thread is
    blocked (or has returned).  [submit] creates the packaged task and its
    future right after the test of [is_running_]; [stop] of the [Locked]
    pool goes through [clear_queue] when its argument is [false], the
    [LockFree] pool has no such function.

    [Get i] is the one call of [get()] that the holder of future [i]
    makes: it blocks while the shared state is empty and then hands over
    what is stored there.  The model keeps no record of a future having
    been read, so it says nothing about a second [get()] on the same
    [std::future] (which no longer has a shared state).  Of the exception
    of a broken promise only the type, [std::future_error], is the
    standard's; its text here is a placeholder. *)
Definition caller_step (var : variant) (joined : bool) (w : world) (pc : caller_pc)
  : option (world * caller_pc) :=
  let p := pool w in
  match pc with
  | Call (Submit f) =>
      if is_running_ p
      then Some (mkWorld p (futures w ++ [Pending]) (user w) (cerr w)
                         (submitted w) (completed w) (discarded w),
                 SubmitCount (mkTask (length (futures w)) f))
      else Some (w, Finished (Submit f) (RThrow (runtime_error (stopped_message var))))
  | SubmitCount t =>
      Some (mkWorld (with_count p (fetch_add (task_count_ p)))
                    (futures w) (user w) (cerr w)
                    (S (submitted w)) (completed w) (discarded w),
            SubmitPush t)
  | SubmitPush t =>
      Some (with_pool w (with_queue p (Safe.push t (task_queue_ p))),
            Finished (Submit (fn t)) (RFuture (fid t)))
  | Call (Stop wfc) =>
      (* is_running_.exchange(false) *)
      let w' := with_pool w (mkPool (wait_for_completion_ p) false (task_count_ p)
                                    (threads_ p) (task_queue_ p)) in
      if is_running_ p
      then Some (w', match var, wfc with
                     | Locked, false => StopClear None
                     | LockFree, false => StopJoin false
                     | _, true => StopWait
                     end)
      else Some (w', Finished (Stop wfc) RVoid)
  | StopClear dummy =>
      match Safe.data_ (task_queue_ p) with
      | [] => Some (abandon dummy w, StopJoin false)
      | t :: rest =>
          Some (with_pool (abandon dummy w) (with_queue p (Safe.mkSafeQueue rest)),
                StopClearCount t)
      end
  | StopClearCount t =>
      Some (mkWorld (with_count p (fetch_sub (task_count_ p)))
                    (futures w) (user w) (cerr w)
                    (submitted w) (completed w) (S (discarded w)),
            StopClear (Some t))
  | StopWait =>
      if bool_decide (task_count_ p = 0%Z) then Some (w, StopJoin true) else None
  | StopJoin wfc =>
      if joined
      then Some (with_pool w (mkPool (wait_for_completion_ p) (is_running_ p)
                                     (task_count_ p) 0 (task_queue_ p)),
                 Finished (Stop wfc) RVoid)
      else None
  | Call WaitAll =>
      if bool_decide (task_count_ p = 0%Z) then Some (w, Finished WaitAll RVoid) else None
  | Call PendingTasks => Some (w, Finished PendingTasks (RCount (task_count_ p)))
  | Call IsRunning => Some (w, Finished IsRunning (RBool (is_running_ p)))
  | Call ThreadCount => Some (w, Finished ThreadCount (RCount (Z.of_nat (threads_ p))))
  | Call (Get i) =>
      match futures w !! i with
      | Some (Ready v) => Some (w, Finished (Get i) (RValue v))
      | Some (Failed e) => Some (w, Finished (Get i) (RThrow e))
      | Some Broken => Some (w, Finished (Get i) (RThrow (future_error "broken promise")))
      | Some Pending => None
      | None => Some (w, Finished (Get i) (RThrow (future_error "no state")))
      end
  | Finished _ _ => None
  end.

Definition exited (t : thread) : bool :=
  match t with
  | Worker WExit => true
  | Worker _ => false
  | Caller _ => true
  end.

Definition thread_step (var : variant) (joined : bool) (w : world) (t : thread)
  : option (world * thread) :=
  match t with
  | Worker pc => prod_map id Worker <$> worker_thread var w pc
  | Caller pc => prod_map id Caller <$> caller_step var joined w pc
  end.

(** Thread number [i] does its next access; nothing happens if it is
    blocked, has finished, or does not exist. *)
Definition step (var : variant) (i : nat) (cfg : config) : config :=
  match threads cfg !! i with
  | None => cfg
  | Some t =>
      match thread_step var (forallb exited (threads cfg)) (shared cfg) t with
      | None => cfg
      | Some (w', t') => mkConfig w' (<[i := t']> (threads cfg))
      end
  end.

(** A schedule names the thread to run at each step. *)
Definition run (var : variant) (schedule : list nat) (cfg : config) : config :=
  foldl (λ cfg i, step var i cfg) cfg schedule.

(** [ThreadPool::create(thread_count)] (for [LockFree]: the constructor),
    with the user's state and the calls the other threads are about to
    make.  The workers are threads [0 .. thread_count - 1]. *)
Definition create (var : variant) (thread_count : nat) (u : U) (calls : list call)
  : exn + config :=
  if bool_decide (thread_count = 0)
  then inl (invalid_argument "Thread count must be greater than 0")
  else inr (mkConfig
              (mkWorld (mkPool true true 0%Z thread_count Safe.create) [] u [] 0 0 0)
              (replicate thread_count (Worker WCheck) ++ (Caller ∘ Call <$> calls))).

(** A state the pool can be in. *)
Definition reachable (var : variant) (cfg : config) : Prop :=
  ∃ n u calls cfg0 schedule,
    create var n u calls = inr cfg0 ∧ cfg = run var schedule cfg0.

(** The tasks a thread holds: taken off the queue or counted by [submit],
    and not yet given back by a decrement or a [push]. *)
Definition holding (t : thread) : nat :=
  match t with
  | Worker (WInvoke _ _) | Worker (WCount _ _) => 1
  | Caller (SubmitPush _) | Caller (StopClearCount _) => 1
  | _ => 0
  end.

(** Submitted tasks that have neither completed nor been discarded. *)
Definition outstanding (cfg : config) : nat :=
  length (Safe.data_ (task_queue_ (pool (shared cfg)))) +
  sum_list_with holding (threads cfg).

Definition pending_tasks (cfg : config) : Z := task_count_ (pool (shared cfg)).

(** Submitted minus completed minus discarded, as the tallies see it. *)
Definition tally (w : world) : Z :=
  (Z.of_nat (submitted w) - Z.of_nat (completed w) - Z.of_nat (discarded w))%Z.

Definition queued (w : world) : Z :=
  Z.of_nat (length (Safe.data_ (task_queue_ (pool w)))).

(** What holds of the pool between any two steps. *)
Record pool_inv (cfg : config) : Prop := mkPoolInv {
  inv_flag : wait_for_completion_ (pool (shared cfg)) = true;
  inv_count : task_count_ (pool (shared cfg))
              = Z.modulo (Z.of_nat (outstanding cfg)) size_t_max;
  inv_tally : tally (shared cfg) = Z.of_nat (outstanding cfg)
}.

Definition is_running (cfg : config) : bool := is_running_ (pool (shared cfg)).

(** *** Where every task is

    A task whose callable has not run yet is in exactly one place: with the
    thread that created or popped it, or on the queue.  [located_at i t]
    tells whether thread [t] has the task with future [i]; [queued_at]
    counts it on the queue. *)

Definition located_at (i : nat) (t : thread) : nat :=
  match t with
  | Caller (SubmitCount k) | Caller (SubmitPush k) | Caller (StopClearCount k)
  | Caller (StopClear (Some k)) | Worker (WInvoke _ k) =>
      if decide (fid k = i) then 1 else 0
  | _ => 0
  end.

Definition queued_at (i : nat) (q : list Task) : nat :=
  sum_list_with (λ k, if decide (fid k = i) then 1 else 0) q.

Definition is_pending (s : option slot) : nat :=
  match s with Some Pending => 1 | _ => 0 end.

(** Threads between the creation of a task and its count, between the end
    of a callable and its hook, and between a discarding decrement and the
    destruction of the closure. *)
Definition creating (t : thread) : nat :=
  match t with Caller (SubmitCount _) => 1 | _ => 0 end.

Definition hooking (t : thread) : nat :=
  match t with Worker (WCount _ _) => 1 | _ => 0 end.

Definition dropping (t : thread) : nat :=
  match t with Caller (StopClear (Some _)) => 1 | _ => 0 end.

(** Futures whose callable has returned or thrown, and futures whose
    promise was broken. *)
Definition executed (fut : list slot) : nat :=
  sum_list_with (λ s, match s with Ready _ | Failed _ => 1 | _ => 0 end) fut.

Definition broken (fut : list slot) : nat :=
  sum_list_with (λ s, match s with Broken => 1 | _ => 0 end) fut.

(** The books: a future is pending exactly as long as its task sits
    somewhere waiting to run; every future was counted by [submit] unless
    its [submit] is still before the increment; every executed task went
    through the completion hook unless its worker is just before it; every
    discarded task has a broken promise unless [clear_queue] still holds
    its closure. *)
Record accounting (cfg : config) : Prop := mkAccounting {
  acc_located : ∀ i,
    queued_at i (Safe.data_ (task_queue_ (pool (shared cfg))))
      + sum_list_with (located_at i) (threads cfg)
    = is_pending (futures (shared cfg) !! i);
  acc_created :
    length (futures (shared cfg))
    = submitted (shared cfg) + sum_list_with creating (threads cfg);
  acc_executed :
    executed (futures (shared cfg))
    = completed (shared cfg) + sum_list_with hooking (threads cfg);
  acc_broken :
    broken (futures (shared cfg)) + sum_list_with dropping (threads cfg)
    = discarded (shared cfg)
}.

(** *** Threads and schedules used in the statements *)

(** A thread whose task is neither counted by [task_count_] nor done: a
    [submit] just before its increment, or [clear_queue] holding the
    closure it has just counted out. *)
Definition uncounted_at (i : nat) (t : thread) : bool :=
  match t with
  | Caller (SubmitCount k) | Caller (StopClear (Some k)) => bool_decide (fid k = i)
  | _ => false
  end.

(** A thread that is in [clear_queue] or about to enter it. *)
Definition clearing (var : variant) (t : thread) : bool :=
  match t with
  | Caller (Call (Stop false)) =>
      match var with Locked => true | LockFree => false end
  | Caller (StopClear _) | Caller (StopClearCount _) => true
  | _ => false
  end.

(** A thread inside [stop], past the exchange of [is_running_]. *)
Definition past_stop (t : thread) : bool :=
  match t with
  | Caller (StopClear _) | Caller (StopClearCount _)
  | Caller StopWait | Caller (StopJoin _) => true
  | _ => false
  end.

(** A worker inside [while (is_running_)]. *)
Definition serving (t : thread) : bool :=
  match t with
  | Worker WCheck | Worker WPop
  | Worker (WInvoke Serving _) | Worker (WCount Serving _) => true
  | _ => false
  end.

(** A [submit] by thread [n] that races with a [stop(true)] by thread
    [n + 1] in a pool of [n] workers: [submit] reads [is_running_], then
    [stop] clears it, every worker leaves [worker_thread], and only then
    does [submit] count and push its task. *)
Definition late_submit (n : nat) : list nat :=
  [n; S n] ++ flat_map (λ i, [i; i; i]) (seq 0 n) ++ [n; n].

(** The callables [fs] run one after the other on the user's state: what
    each returned or threw, and the state they leave. *)
Fixpoint run_tasks (fs : list callable) (u : U) : list result * U :=
  match fs with
  | [] => ([], u)
  | f :: fs' =>
      let ru := f u in
      let rest := run_tasks fs' ru.2 in
      (ru.1 :: rest.1, rest.2)
  end.

(** The closures that [submit] makes for [fs] when the next free future
    is [b], and the threads that have returned from these [submit] calls. *)
Fixpoint tasks_from (b : nat) (fs : list callable) : list Task :=
  match fs with
  | [] => []
  | f :: fs' => mkTask b f :: tasks_from (S b) fs'
  end.

Fixpoint submitted_from (b : nat) (fs : list callable) : list thread :=
  match fs with
  | [] => []
  | f :: fs' => Caller (Finished (Submit f) (RFuture b)) :: submitted_from (S b) fs'
  end.

(** A pool with one worker (thread 0) used in an orderly way: threads
    [1 .. k] call [submit] one after the other, thread [k + 1] then calls
    [stop(true)], the worker does its work, and [stop] is left to finish. *)
Definition orderly (k : nat) : list nat :=
  flat_map (λ i, [i; i; i]) (seq 1 k) ++ [S k] ++ replicate (3 * k + 3) 0 ++ [S k; S k].

End pool.
End Pool.

(** * Part 3b: [EventBus]

    [core/event_bus/event_bus.h].  [handlers_] maps the [std::type_index]
    of an event type to the handlers subscribed for it, oldest first.
    Both member functions run under [mutex_], so each is one atomic
    change.  A handler is a [std::function]: it may be empty, it may
    throw, and it acts on the state [W] of the rest of the program; the
    handlers considered here do not call the bus themselves (with a
    [std::mutex] that would be a second lock by the same thread). *)

Module Bus.
Import Pool.

Section bus.

Context {Event W : Type}.

Definition type_index : Type := nat.

(** [std::function<void(const EventType&)>]; [None] is an empty function
    object.  A call returns the exception that left it, if any, and the
    new state. *)
Definition Handler : Type := option (Event → W → option exn * W).

Record EventBus := mkBus {
  handlers_ : gmap type_index (list Handler)
}.

(** [EventBus() = default] *)
Definition empty_bus : EventBus := mkBus ∅.

(** Calling a [std::function]: an empty one throws
    [std::bad_function_call]. *)
Definition call_handler (h : Handler) (ev : Event) (s : W) : option exn * W :=
  match h with
  | Some f => f ev s
  | None => (Some (std_exception "bad_function_call"), s)
  end.

(** [handlers_[type].push_back(...)]: [operator[]] makes an empty vector
    for a type seen for the first time. *)
Definition subscribe (ty : type_index) (h : Handler) (bus : EventBus) : EventBus :=
  mkBus (<[ty := default [] (handlers_ bus !! ty) ++ [h]]> (handlers_ bus)).

(** [for (const auto& handler : it->second) handler(event);]: an
    exception leaves the loop. *)
Fixpoint deliver (hs : list Handler) (ev : Event) (s : W) : option exn * W :=
  match hs with
  | [] => (None, s)
  | h :: hs' =>
      match call_handler h ev s with
      | (None, s') => deliver hs' ev s'
      | (Some e, s') => (Some e, s')
      end
  end.

Definition publish (ty : type_index) (ev : Event) (bus : EventBus) (s : W)
  : option exn * W :=
  match handlers_ bus !! ty with
  | Some hs => deliver hs ev s
  | None => (None, s)
  end.

(** A handler that returns normally: it changes the state of the program
    and lets no exception out. *)
Definition returning (g : Event → W → W) : Handler :=
  Some (λ ev s, (None, g ev s)).

(** Subscriptions made one after the other, and the handlers among them
    that were subscribed for [ty], in the order of their subscription. *)
Definition subscribe_all (subs : list (type_index * Handler)) (bus : EventBus)
  : EventBus :=
  foldl (λ bus x, subscribe x.1 x.2 bus) bus subs.

Definition subscribed (ty : type_index) (subs : list (type_index * Handler))
  : list Handler :=
  snd <$> filter (λ x, x.1 = ty) subs.

End bus.

Global Arguments EventBus : clear implicits.
Global Arguments Handler : clear implicits.

End Bus.

(** * Part 4: concrete queues and pools

    Small instances on which the statements below are also checked by
    evaluation. *)

Module Samples.
Import LockFree Pool.

(** An allocator that never hands an address out twice, and one that
    hands out the lowest free address, so that a freed address comes back
    at once. *)
Definition bump_alloc (h : gmap nat (@Node nat)) : nat := fresh (dom h).

Definition lowest_free (h : gmap nat (@Node nat)) : nat :=
  default (size h)
    (head (filter (λ n, h !! n = None) (seq 0 (size h)))).

(** An empty heap, undisturbed, and one in which some of the coming weak
    compare-exchanges fail spuriously. *)
Definition quiet_store : @store nat := mkStore ∅ [].
Definition noisy_store : @store nat := mkStore ∅ [true; false; true; true].

(** A queue holding the single value 7: sentinel at address 0, payload
    node at address 1. *)
Definition one_queued : @store nat :=
  mkStore (<[1 := mkNode (Some 7) None]> (<[0 := mkNode None (Some 1)]> ∅)) [true].

(** Two queues in one heap: the first holds 7 (sentinel 0, payload node
    1), the second is empty (sentinel 2). *)
Definition two_queues : @store nat :=
  mkStore (<[2 := mkNode None None]>
             (<[1 := mkNode (Some 7) None]> (<[0 := mkNode None (Some 1)]> ∅))) [].

(** The queue of [one_queued] with a [tail_] that lags (it still points
    to the sentinel), about to see two weak compare-exchanges fail
    spuriously. *)
Definition lagging_store : @store nat :=
  mkStore (<[1 := mkNode (Some 7) None]> (<[0 := mkNode None (Some 1)]> ∅)) [true; true].

(** An empty queue (sentinel 0) about to see the second of two weak
    compare-exchanges fail spuriously. *)
Definition lag_store : @store nat :=
  mkStore (<[0 := mkNode None None]> ∅) [false; true].

Definition sample_program : list (@op nat) :=
  [Enqueue 1; Enqueue 2; Dequeue; Clear; Dequeue; Enqueue 3; Dequeue].

(** The user's state is a counter; [bump k] increments it and returns [k],
    [boom] throws. *)

Definition bump (k : nat) : @callable nat nat := λ u, (Returned k, S u).

Definition boom : @callable nat nat :=
  λ u, (Threw (runtime_error "Test exception"), u).

(** [create(1)]; thread 1 submits [bump 10], thread 2 submits [bump 20],
    thread 3 calls [stop(false)]. *)
Definition abandon_start : @config nat nat :=
  mkConfig (mkWorld (mkPool true true 0 1 Safe.create) [] 0 [] 0 0 0)
           [Worker WCheck; Caller (Call (Submit (bump 10)));
            Caller (Call (Submit (bump 20))); Caller (Call (Stop false))].

(** Both tasks are queued and the worker has taken the first one when
    [stop(false)] clears the flag; the stopping thread is then held up
    before [clear_queue], and the worker finishes its task, leaves the
    serving loop and goes through the loop after it. *)
Definition abandon_schedule : list nat :=
  [1; 1; 1; 2; 2; 2; 0; 0; 3; 0; 0; 0; 0; 0; 0; 0; 3; 0; 3]%nat.

(** [create(1)]; thread 1 submits [bump 10], thread 2 calls [wait_all()]. *)
Definition waiting_start : @config nat nat :=
  mkConfig (mkWorld (mkPool true true 0 1 Safe.create) [] 0 [] 0 0 0)
           [Worker WCheck; Caller (Call (Submit (bump 10))); Caller (Call WaitAll)].

(** Handlers on a counter: [add k] adds [k], [fail] throws. *)
Definition add (k : nat) : Bus.Handler nat nat := Some (λ ev s, (None, s + k * ev)).

Definition fail : Bus.Handler nat nat :=
  Some (λ ev s, (Some (runtime_error "handler failed"), s)).

(** A pool that thread 1 has stopped, with a [submit] and a second [stop]
    about to be made. *)
Definition stopped_pool : @config nat nat :=
  run Locked [1; 1]%nat
    (mkConfig (mkWorld (mkPool true true 0 1 Safe.create) [] 0 [] 0 0 0)
              [Worker WCheck; Caller (Call (Stop false));
               Caller (Call (Submit (bump 1))); Caller (Call (Stop true))]).

End Samples.

(** * Part 5: properties of [SafeQueue<T>] *)

Lemma fifo_trace_nil {T} (value : T) : fifo_trace value [] = [(false, value)].
Proof. done. Qed.

Lemma fifo_trace_cons {T} (value v : T) vs :
  fifo_trace value (v :: vs) = (true, v) :: fifo_trace v vs.
Proof.
  unfold fifo_trace. simpl. do 3 f_equal.
  destruct vs as [|w vs]; [done|]. rewrite last_cons_cons.
  by destruct (last (w :: vs)) eqn:E; [|apply last_None in E].
Qed.

Module SafeFacts.
Import Safe.

Section facts.

Context {T : Type}.
Implicit Types (q : SafeQueue T) (vs : list T).

Lemma push_all_data vs q : data_ (push_all vs q) = data_ q ++ vs.
Proof.
  revert q. induction vs as [|v vs IH]; intros q; simpl.
  - by rewrite app_nil_r.
  - rewrite IH. simpl. by rewrite <- (assoc_L (++)).
Qed.

Lemma pop_times_drain vs : ∀ value q,
  data_ q = vs →
  pop_times (S (length vs)) value q = (fifo_trace value vs, mkSafeQueue []).
Proof.
  induction vs as [|v vs IH]; intros value [d] Hd; simpl in Hd; subst d.
  - done.
  - change (pop_times (S (length (v :: vs))) value (mkSafeQueue (v :: vs)))
      with (let '(tr, q'') := pop_times (S (length vs)) v (mkSafeQueue vs) in
            ((true, v) :: tr, q'')).
    rewrite (IH v (mkSafeQueue vs) eq_refl). by rewrite fifo_trace_cons.
Qed.

Lemma pop_spec value q :
  match data_ q with
  | [] => pop value q = (false, value, q)
  | v :: rest => pop value q = (true, v, mkSafeQueue rest)
  end.
Proof. unfold pop. by destruct (data_ q). Qed.

(** C9 ([block_pop] never returns [false]). Whenever [block_pop] returns,
    it returns [true]: the caller slept through every wake-up that found
    the queue empty, and at the first one that did not, the front element
    was taken off the queue and moved into [out]. *)
Theorem block_pop_never_false
    (env : list (SafeQueue T → SafeQueue T)) (value : T) (q : SafeQueue T)
    (r : bool * T * SafeQueue T) :
  block_pop env value q = Some r →
  r.1.1 = true ∧
  ∃ k, k ≤ length env ∧
       data_ (woken env k q) = r.1.2 :: data_ r.2 ∧
       ∀ j, j < k → data_ (woken env j q) = [].
Proof.
  revert q. induction env as [|others env IH]; intros q.
  - simpl. destruct (data_ q) as [|front rest] eqn:E; [done|].
    intros [= <-]. split; [done|]. exists 0. split_and!; [done|done|lia].
  - simpl. destruct (data_ q) as [|front rest] eqn:E.
    + intros Hr. destruct (IH _ Hr) as (Ht & k & Hk & Hw & Hsleep).
      split; [done|]. exists (S k). split_and!; [simpl; lia|done|].
      intros [|j] Hj; [done|]. apply Hsleep. lia.
    + intros [= <-]. split; [done|]. exists 0. split_and!; [simpl; lia|done|lia].
Qed.

End facts.

Lemma block_pop_never_false_witness :
  block_pop [id; push 5] 0 create = Some (true, 5, create) ∧
  (true = true ∧
   ∃ k, k ≤ 2 ∧
        data_ (woken [id; push 5] k create) = [5] ∧
        ∀ j, j < k → data_ (woken [id; push 5] j create) = []).
Proof.
  assert (H : block_pop [id; push 5] 0 (create (T := nat)) = Some (true, 5, create))
    by reflexivity.
  split; [exact H|].
  exact (block_pop_never_false [id; push 5] 0 create (true, 5, create) H).
Defined.

End SafeFacts.

(** ** The other member functions of [SafeQueue<T>] *)

Module SafeQueueFacts.
Import Safe SafeFacts.

Section facts.

Context {T : Type}.
Implicit Types (q : SafeQueue T) (vs : list T).

Lemma woken_cons (others : SafeQueue T → SafeQueue T) env k q :
  woken (others :: env) (S k) q = woken env k (others q).
Proof. done. Qed.

(** X7 ([push_bulk]).
    [push_bulk(first, last)] does, under one lock, what a [push] of each
    element of the range in turn does; an empty range changes nothing;
    and a consumer that drains a queue filled in bulk receives the range
    in order, followed by one [false]. *)
Theorem push_bulk_is_push_each (range : list T) (value : T) q :
  push_bulk range q = push_all range q ∧
  push_bulk [] q = q ∧
  size (push_bulk range q) = size q + length range ∧
  pop_times (S (length range)) value (push_bulk range create)
    = (fifo_trace value range, create).
Proof.
  split_and!.
  - destruct (push_all range q) as [d] eqn:E.
    pose proof (push_all_data range q) as Hd. rewrite E in Hd. simpl in Hd.
    unfold push_bulk. by rewrite Hd.
  - destruct q as [d]. unfold push_bulk. simpl. by rewrite app_nil_r.
  - unfold size, push_bulk. simpl. by rewrite length_app.
  - by apply pop_times_drain.
Qed.

(** X8 ([block_pop] blocks).
    [block_pop] stays blocked exactly as long as every wake-up, and the
    first test of the loop, finds the queue empty: it returns at the
    first time the queue is seen to hold an element. *)
Theorem block_pop_blocks_while_empty
    (env : list (SafeQueue T → SafeQueue T)) (value : T) q :
  block_pop env value q = None ↔
  ∀ k, k ≤ length env → data_ (woken env k q) = [].
Proof.
  revert q. induction env as [|others env IH]; intros q; simpl.
  - destruct (data_ q) as [|front rest] eqn:E.
    + split; [|done]. intros _ k Hk. replace k with 0 by lia. done.
    + split; [done|]. intros H. specialize (H 0 (le_n 0)).
      unfold woken in H. simpl in H. congruence.
  - destruct (data_ q) as [|front rest] eqn:E.
    + rewrite IH. split.
      * intros H [|k] Hk; [done|]. rewrite woken_cons. apply H. lia.
      * intros H k Hk. rewrite <- woken_cons. apply H. lia.
    + split; [done|]. intros H. specialize (H 0 (Nat.le_0_l _)).
      unfold woken in H. simpl in H. congruence.
Qed.

End facts.

End SafeQueueFacts.

(** * Part 6: properties of [LockFreeQueue<T>] *)

Module LockFreeFacts.
Import LockFree Samples.

Section facts.

Context {T : Type} (moved_from : T → T).

Implicit Types (σ : @store T) (q : LockFreeQueue) (h : gmap nat (@Node T))
  (c : list nat) (vs : list T).

Lemma next_at_insert h a n x :
  next_at (<[a := n]> h) x = if decide (a = x) then Some (next n) else next_at h x.
Proof.
  unfold next_at. rewrite lookup_insert. by case_decide.
Qed.

Lemma next_at_delete h a x :
  a ≠ x → next_at (delete a h) x = next_at h x.
Proof. intros. unfold next_at. by rewrite lookup_delete_ne. Qed.

Lemma chain_nonempty h c : chain h c → c ≠ [].
Proof. by destruct c. Qed.

(** A chain only depends on the [next] fields of its own nodes. *)
Lemma chain_frame h h' c :
  (∀ x, x ∈ c → next_at h' x = next_at h x) → chain h c → chain h' c.
Proof.
  induction c as [|a r IH]; [done|].
  intros Hag. destruct r as [|b r'].
  - simpl. intros <-. apply Hag. set_solver.
  - intros [Ha Hr]. split.
    + rewrite <- Ha. apply Hag. set_solver.
    + apply IH; [|done]. intros x Hx. apply Hag. set_solver.
Qed.

Lemma chain_live h c x : chain h c → x ∈ c → is_Some (h !! x).
Proof.
  induction c as [|a r IH]; [done|].
  intros Hc Hx.
  assert (is_Some (h !! a)) as Ha.
  { destruct r; simpl in Hc; [|destruct Hc as [Hc _]];
      unfold next_at in Hc; destruct (h !! a); naive_solver. }
  apply elem_of_cons in Hx as [->|Hx]; [done|].
  destruct r as [|b r']; [set_solver|]. destruct Hc as [_ Hc]. by apply IH.
Qed.

Lemma chain_last h c l : chain h c → last c = Some l → next_at h l = Some None.
Proof.
  induction c as [|a r IH]; [done|].
  destruct r as [|b r'].
  - simpl. by intros ? [= <-].
  - intros [_ Hr] Hl. apply IH; [done|]. by rewrite last_cons_cons in Hl.
Qed.

Lemma chain_step h pre p l : chain h (pre ++ [p; l]) → next_at h p = Some (Some l).
Proof.
  induction pre as [|a pre IH].
  - by intros [? _].
  - simpl. destruct (pre ++ [p; l]) eqn:E.
    + by destruct pre.
    + intros [_ ?]. by apply IH.
Qed.

(** Linking a new last node. *)
Lemma chain_snoc h h' c l new :
  chain h c → NoDup c → last c = Some l → new ∉ c →
  (∀ x, x ∈ c → x ≠ l → next_at h' x = next_at h x) →
  next_at h' l = Some (Some new) →
  next_at h' new = Some None →
  chain h' (c ++ [new]).
Proof.
  induction c as [|a r IH]; [done|].
  intros Hc Hnd Hl Hnew Hag Hlink Hnil.
  destruct r as [|b r'].
  - simpl in Hl. injection Hl as <-. simpl. done.
  - destruct Hc as [Ha Hr]. rewrite last_cons_cons in Hl.
    apply NoDup_cons in Hnd as [Hnotin Hnd].
    change ((a :: b :: r') ++ [new]) with (a :: b :: (r' ++ [new])).
    split.
    + rewrite <- Ha. apply Hag; [set_solver|].
      intros ->. apply Hnotin. by apply last_Some_elem_of.
    + apply IH; try done; [set_solver|].
      intros x Hx. apply Hag. set_solver.
Qed.

(** *** Running the primitives *)

Lemma bind_done {A B} (m : M A) (k : A → M B) σ a σ' :
  m σ = Done a σ' → bind m k σ = k a σ'.
Proof. unfold bind. by intros ->. Qed.

Lemma load_next_live σ a n :
  nodes σ !! a = Some n → load_next (Some a) σ = Done (next n) σ.
Proof. unfold load_next, bind, deref, ret. by intros ->. Qed.

Lemma deref_live σ a n :
  nodes σ !! a = Some n → deref (Some a) σ = Done n σ.
Proof. unfold deref. by intros ->. Qed.

Lemma cas_weak_ok x d : cas_weak false x x d = (true, d, x).
Proof. unfold cas_weak. by rewrite bool_decide_eq_true_2. Qed.

Lemma cas_weak_spurious x e d : cas_weak true x e d = (false, x, x).
Proof. unfold cas_weak. by rewrite andb_false_r. Qed.

Lemma cas_weak_ne s x e d : x ≠ e → cas_weak s x e d = (false, x, x).
Proof. intros. unfold cas_weak. by rewrite bool_decide_eq_false_2. Qed.

Lemma flip_true_length (sp : list bool) :
  default false (head sp) = true → length sp = S (length (tail sp)).
Proof. by destruct sp. Qed.

Lemma tail_length_le {A} (l : list A) : length (tail l) ≤ length l.
Proof. destruct l; simpl; lia. Qed.

Lemma next_cas_live σ a n e d :
  nodes σ !! a = Some n →
  next_compare_exchange_weak (Some a) e d σ =
    let r := cas_weak (default false (head (spurious σ))) (next n) e d in
    Done (r.1.1, r.2)
         (mkStore (<[a := mkNode (data n) r.1.2]> (nodes σ)) (tail (spurious σ))).
Proof.
  intros Ha. unfold next_compare_exchange_weak.
  rewrite (bind_done _ _ _ _ _ (deref_live _ _ _ Ha)).
  unfold bind, flip, write, ret. simpl.
  by destruct (cas_weak _ _ _ _) as [[? ?] ?].
Qed.

(** *** The loop of [enqueue] *)

Lemma enqueue_loop_spec fuel : ∀ σ q o new l dl rank,
  nodes σ !! l = Some (mkNode dl None) →
  lagging σ q o l rank →
  3 * length (spurious σ) + rank < fuel →
  ∃ q' σ', enqueue_loop fuel (Some new) o q σ = Done q' σ' ∧
    head_ q' = head_ q ∧
    (tail_ q' = Some new ∨ tail_ q' = Some l) ∧
    nodes σ' = <[l := mkNode dl (Some new)]> (nodes σ) ∧
    length (spurious σ') ≤ length (spurious σ) ∧
    (quiet σ → quiet σ' ∧ tail_ q' = Some new).
Proof.
  induction fuel as [|fuel IH]; [lia|].
  intros [h sp] [hd tl] o new l dl rank Hl Hph Hfuel. simpl in *.
  cbn [enqueue_loop].
  destruct Hph as [(-> & -> & Htl)|(p & Hp & Hne & -> & Hph)]; simpl in *.
  - (* old_tail is the last node: try to link *)
    subst tl.
    erewrite bind_done by (by apply load_next_live). simpl.
    erewrite bind_done by (by apply next_cas_live). simpl.
    destruct (default false (head sp)) eqn:Es.
    + (* the link fails spuriously: go round again *)
      rewrite cas_weak_spurious. simpl.
      apply flip_true_length in Es.
      destruct (IH (mkStore (<[l:=mkNode dl None]> h) (tail sp)) (mkQueue hd (Some l))
                  (Some l) new l dl 0) as (q' & σ' & Hrun & ? & ? & Hn & ? & ?).
      { simpl. apply lookup_insert_eq. }
      { by left. }
      { simpl in *. lia. }
      exists q', σ'. split; [done|]. simpl in *.
      split_and!; auto; try lia.
      * rewrite Hn. by rewrite insert_insert_eq.
      * unfold quiet; simpl; intros ->; done.
    + (* the link succeeds; the advance of tail_ is best effort *)
      rewrite cas_weak_ok. simpl.
      unfold bind, flip, ret. simpl.
      destruct (cas_weak _ (Some l) (Some l) (Some new)) as [[ok cell] e] eqn:Ec.
      do 2 eexists. split; [done|]. simpl.
      pose proof (tail_length_le sp). pose proof (tail_length_le (tail sp)).
      assert (cell = Some new ∨ cell = Some l) as Hcell.
      { unfold cas_weak in Ec. destruct (_ && _); naive_solver. }
      split_and!; auto; try lia.
      unfold quiet; simpl. intros ->. simpl in Ec. rewrite cas_weak_ok in Ec.
      split; [done|congruence].
  - (* old_tail is one node behind the last *)
    unfold next_at in Hp. destruct (h !! p) as [[dp np]|] eqn:Ep; [|done].
    simpl in Hp. injection Hp as ->.
    erewrite bind_done by (by apply load_next_live). simpl.
    unfold bind at 1. unfold flip at 1. simpl.
    pose proof (tail_length_le sp).
    assert (next_at h p = Some (Some l)) as Hp by (unfold next_at; by rewrite Ep).
    destruct Hph as [[-> ->]|[-> ->]].
    + (* tail_ already advanced: the exchange fails and reloads old_tail *)
      rewrite cas_weak_ne by congruence.
      destruct (IH (mkStore h (tail sp)) (mkQueue hd (Some l)) (Some l) new l dl 0)
        as (q' & σ' & Hrun & ? & ? & Hn & ? & Hq);
        [done|by left|simpl in *; lia|].
      exists q', σ'. split; [done|]. simpl in *. split_and!; auto; try lia.
      unfold quiet in *; simpl in *; intros ->; try done; by apply Hq.
    + (* tail_ lags as well: help it forward *)
      destruct (default false (head sp)) eqn:Es.
      * rewrite cas_weak_spurious. apply flip_true_length in Es.
        destruct (IH (mkStore h (tail sp)) (mkQueue hd (Some p)) (Some p) new l dl 2)
          as (q' & σ' & Hrun & ? & ? & Hn & ? & Hq);
          [done| |simpl in *; lia|].
        { right. exists p. naive_solver. }
        exists q', σ'. split; [done|]. simpl in *. split_and!; auto; try lia.
        unfold quiet in *; simpl in *; intros ->; try done; by apply Hq.
      * rewrite cas_weak_ok.
        destruct (IH (mkStore h (tail sp)) (mkQueue hd (Some l)) (Some p) new l dl 1)
          as (q' & σ' & Hrun & ? & ? & Hn & ? & Hq);
          [done| |simpl in *; lia|].
        { right. exists p. naive_solver. }
        exists q', σ'. split; [done|]. simpl in *. split_and!; auto; try lia.
        unfold quiet in *; simpl in *; intros ->; try done; by apply Hq.
Qed.

Lemma last_snoc_split (c : list nat) l : last c = Some l → ∃ pre, c = pre ++ [l].
Proof.
  intros Hl. destruct c as [|a r] using rev_ind; [done|].
  rewrite last_snoc in Hl. injection Hl as ->. by eexists.
Qed.

Lemma chain_last_node h c l :
  chain h c → last c = Some l → ∃ dl, h !! l = Some (mkNode dl None).
Proof.
  intros Hc Hl. pose proof (chain_last _ _ _ Hc Hl) as Hn.
  unfold next_at in Hn. destruct (h !! l) as [[d n]|]; [|done].
  simpl in Hn. injection Hn as ->. by eexists.
Qed.

(** The payloads only depend on the [data] fields of their own nodes. *)
Lemma holds_frame h h' (bs : list nat) vs :
  (∀ x, x ∈ bs → data <$> h' !! x = data <$> h !! x) →
  Forall2 (holds h) bs vs → Forall2 (holds h') bs vs.
Proof.
  intros Hag Hf. induction Hf as [|x w bs vs Hx Hf IH]; constructor.
  - unfold holds in *. rewrite <- Hx. apply Hag. set_solver.
  - apply IH. intros y Hy. apply Hag. set_solver.
Qed.

(** *** [dequeue] *)

Lemma move_data_live σ a v nx :
  nodes σ !! a = Some (mkNode (Some v) nx) →
  move_data moved_from (Some a) σ =
    Done v (mkStore (<[a := mkNode (Some (moved_from v)) nx]> (nodes σ)) (spurious σ)).
Proof.
  intros Ha. unfold move_data.
  by rewrite (bind_done _ _ _ _ _ (deref_live _ _ _ Ha)).
Qed.

Lemma delete_node_live σ a n :
  nodes σ !! a = Some n →
  delete_node (Some a) σ = Done tt (mkStore (delete a (nodes σ)) (spurious σ)).
Proof. unfold delete_node. by intros ->. Qed.

Lemma dequeue_loop_spec fuel : ∀ value σ q c vs,
  sentinel σ q c vs →
  length (spurious σ) < fuel →
  match vs with
  | [] => dequeue_loop moved_from fuel (head_ q) value q σ = Done (false, value, q) σ
  | v :: vs' =>
      ∃ σ' hd b c' nb, c = hd :: b :: c' ∧
        dequeue_loop moved_from fuel (head_ q) value q σ =
          Done (true, v, mkQueue (Some b) (tail_ q)) σ' ∧
        sentinel σ' (mkQueue (Some b) (tail_ q)) (b :: c') vs' ∧
            nodes σ' = popped moved_from v hd b nb (nodes σ) ∧
        length (spurious σ') ≤ length (spurious σ) ∧
        (quiet σ → quiet σ')
  end.
Proof.
  induction fuel as [|fuel IH]; [lia|].
  intros value [h sp] [hq tq] c vs [Hhead Hsome Hchain Hnd Hholds] Hfuel.
  simpl in *. destruct c as [|hd r]; [done|]. simpl in *. subst hq.
  destruct Hholds as [|b v r' vs' Hv Hholds].
  - (* only the sentinel is left *)
    simpl in Hchain. unfold next_at in Hchain.
    destruct (h !! hd) as [[dh nh]|] eqn:Eh; [|done].
    simpl in Hchain. injection Hchain as ->.
    by erewrite bind_done by (by apply load_next_live).
  - destruct Hchain as [Hhd Hchain].
    unfold next_at in Hhd. destruct (h !! hd) as [[dh nh]|] eqn:Eh; [|done].
    simpl in Hhd. injection Hhd as ->.
    erewrite bind_done by (by apply load_next_live). simpl.
    unfold bind at 1. unfold flip at 1. simpl.
    apply NoDup_cons in Hnd as [Hhdr Hnd].
    pose proof (tail_length_le sp).
    destruct (default false (head sp)) eqn:Es.
    + (* the exchange on head_ fails spuriously: go round again *)
      rewrite cas_weak_spurious.
      apply flip_true_length in Es.
      specialize (IH value (mkStore h (tail sp)) (mkQueue (Some hd) tq)
                    (hd :: b :: r') (v :: vs')).
      destruct IH as (σ' & hd' & b' & c' & nb & Hc & Hrun & Hsen & ? & ? & ?).
      { split; simpl; try done.
        - unfold next_at. rewrite Eh. done.
        - by apply NoDup_cons.
        - by constructor. }
      { simpl. lia. }
      injection Hc as <- <- <-.
      exists σ', hd, b, r', nb. simpl in *. split_and!; try done; try lia.
      unfold quiet. simpl. intros ->. done.
    + (* head_ moves to the next node; its payload is handed over *)
      rewrite cas_weak_ok.
      unfold holds in Hv. destruct (h !! b) as [[db nb]|] eqn:Eb; [|done].
      simpl in Hv. injection Hv as ->.
      assert (hd ≠ b) as Hne by set_solver.
      erewrite bind_done by (by apply move_data_live). simpl.
      erewrite bind_done.
      2: { apply delete_node_live with (n := mkNode dh (Some b)). simpl.
           by rewrite lookup_insert_ne. }
      simpl. unfold ret.
      eexists _, hd, b, r', nb. split_and!; try done; simpl.
      * split; [done|done| |done|].
        -- cbn [nodes]. eapply chain_frame; [|exact Hchain]. intros x Hx.
           rewrite next_at_delete by set_solver.
           rewrite next_at_insert. case_decide; [|done].
           subst x. unfold next_at. by rewrite Eb.
        -- apply NoDup_cons in Hnd as [Hbr Hnd]. cbn [tail nodes].
           eapply holds_frame; [|exact Hholds]. intros x Hx.
           rewrite lookup_delete_ne by set_solver.
           rewrite lookup_insert_ne; [done|]. set_solver.
      * unfold quiet. simpl. by intros ->.
Qed.

Lemma dequeue_spec fuel value σ q c vs :
  sentinel σ q c vs →
  length (spurious σ) < fuel →
  match vs with
  | [] => dequeue moved_from fuel value q σ = Done (false, value, q) σ
  | v :: vs' =>
      ∃ σ' hd b c' nb, c = hd :: b :: c' ∧
        dequeue moved_from fuel value q σ =
          Done (true, v, mkQueue (Some b) (tail_ q)) σ' ∧
        sentinel σ' (mkQueue (Some b) (tail_ q)) (b :: c') vs' ∧
            nodes σ' = popped moved_from v hd b nb (nodes σ) ∧
        length (spurious σ') ≤ length (spurious σ) ∧
        (quiet σ → quiet σ')
  end.
Proof. apply dequeue_loop_spec. Qed.

(** [dequeue] on a state whose [tail_] is exact. *)
Lemma dequeue_wf fuel value σ q vs :
  wf σ q vs →
  length (spurious σ) < fuel →
  match vs with
  | [] => dequeue moved_from fuel value q σ = Done (false, value, q) σ
  | v :: vs' =>
      ∃ q' σ', dequeue moved_from fuel value q σ = Done (true, v, q') σ' ∧
        wf σ' q' vs' ∧
        length (spurious σ') ≤ length (spurious σ) ∧
        (quiet σ → quiet σ')
  end.
Proof.
  intros (c & Hsen & Htail) Hfuel.
  pose proof (dequeue_spec fuel value σ q c vs Hsen Hfuel) as Hd.
  destruct vs as [|v vs']; [done|].
  destruct Hd as (σ' & hd & b & c' & nb & -> & Hrun & Hsen' & Hn & Hsp & Hq).
  eexists _, σ'. split_and!; try done.
  by exists (b :: c').
Qed.

Lemma wf_sentinel σ q vs : wf σ q vs → sentinel_inv σ q vs.
Proof. intros (c & ? & _). by exists c. Qed.

Lemma wf_wf_lag σ q vs : wf σ q vs → wf_lag σ q vs.
Proof. intros (c & ? & ?). exists c. split; [done|]. by left. Qed.

Lemma dequeue_times_spec : ∀ vs fuel value σ q c,
  sentinel σ q c vs →
  length (spurious σ) < fuel →
  ∃ q' σ', dequeue_times moved_from fuel (S (length vs)) value q σ =
             Done (fifo_trace value vs, q') σ' ∧
    sentinel_inv σ' q' [].
Proof.
  induction vs as [|v vs IH]; intros fuel value σ q c Hsen Hfuel.
  - pose proof (dequeue_spec fuel value σ q c [] Hsen Hfuel) as Hd.
    exists q, σ. split; [|by exists c].
    cbn [dequeue_times length]. erewrite bind_done by exact Hd. done.
  - destruct (dequeue_spec fuel value σ q c (v :: vs) Hsen Hfuel)
      as (σ1 & hd & b & c' & nb & -> & Hrun & Hsen1 & _ & Hsp & _).
    destruct (IH fuel v σ1 _ _ Hsen1) as (q' & σ' & Hrun' & Hinv); [lia|].
    exists q', σ'. split; [|done].
    change (length (v :: vs)) with (S (length vs)).
    cbn [dequeue_times]. erewrite bind_done by exact Hrun.
    cbn [fst snd]. erewrite bind_done by exact Hrun'.
    by rewrite fifo_trace_cons.
Qed.

(** *** The statements of the specification that need no allocation *)

(** C2 (dequeue contract, both queues). [dequeue(out)] / [pop(out)] returns
    [true] exactly when the queue is not empty, and then [out] is the oldest
    element and the rest stays queued; on an empty queue it returns [false]
    and neither [out] nor the queue changes. *)
Theorem dequeue_contract
    (value : T) (fuel : nat) (σ : store) (q : LockFreeQueue) (vs : list T)
    (sq : Safe.SafeQueue T) :
  sentinel_inv σ q vs →
  length (spurious σ) < fuel →
  (∃ flag value' q' σ',
     dequeue moved_from fuel value q σ = Done (flag, value', q') σ' ∧
     (flag = true ↔ vs ≠ []) ∧
     match vs with
     | [] => value' = value ∧ q' = q ∧ σ' = σ
     | v :: vs' => value' = v ∧ sentinel_inv σ' q' vs'
     end) ∧
  (∃ flag value' sq',
     Safe.pop value sq = (flag, value', sq') ∧
     (flag = true ↔ Safe.data_ sq ≠ []) ∧
     match Safe.data_ sq with
     | [] => value' = value ∧ sq' = sq
     | v :: rest => value' = v ∧ Safe.data_ sq' = rest
     end).
Proof.
  intros [c Hsen] Hfuel. split.
  - pose proof (dequeue_spec fuel value σ q c vs Hsen Hfuel) as Hd.
    destruct vs as [|v vs'].
    + exists false, value, q, σ. by split_and!.
    + destruct Hd as (σ' & hd & b & c' & nb & -> & Hrun & Hsen' & _).
      eexists true, v, _, σ'. split_and!; try done. by exists (b :: c').
  - pose proof (SafeFacts.pop_spec value sq) as Hp.
    destruct (Safe.data_ sq) as [|v rest] eqn:E.
    + exists false, value, sq. by split_and!.
    + exists true, v, (Safe.mkSafeQueue rest). by split_and!.
Qed.

Section with_default.

(** [T dummy;] in [clear]. *)
Variable T_default : T.

(** *** [clear] *)

Lemma clear_loop_spec : ∀ vs fuel dummy σ q,
  wf σ q vs →
  length (spurious σ) + length vs < fuel →
  ∃ q' σ', clear_loop moved_from fuel dummy q σ = Done q' σ' ∧
    wf σ' q' [] ∧
    length (spurious σ') ≤ length (spurious σ) ∧
    (quiet σ → quiet σ').
Proof.
  induction vs as [|v vs IH]; intros fuel dummy σ q Hwf Hfuel.
  - destruct fuel as [|fuel]; [lia|]. cbn [clear_loop].
    erewrite bind_done.
    2: { apply (dequeue_wf (S fuel) dummy σ q [] Hwf). simpl in *. lia. }
    simpl. exists q, σ. by split_and!.
  - destruct fuel as [|fuel]; [simpl in *; lia|]. cbn [clear_loop].
    destruct (dequeue_wf (S fuel) dummy σ q (v :: vs) Hwf)
      as (q1 & σ1 & Hrun & Hwf1 & Hsp & Hq); [simpl in *; lia|].
    erewrite bind_done by exact Hrun. simpl.
    destruct (IH fuel v σ1 q1 Hwf1) as (q' & σ' & Hrun' & ? & ? & ?);
      [simpl in *; lia|].
    exists q', σ'. split_and!; try done; [lia|tauto].
Qed.

Lemma clear_spec vs fuel σ q :
  wf σ q vs →
  length (spurious σ) + length vs < fuel →
  ∃ q' σ', clear moved_from T_default fuel q σ = Done q' σ' ∧
    wf σ' q' [] ∧
    length (spurious σ') ≤ length (spurious σ) ∧
    (quiet σ → quiet σ').
Proof. apply clear_loop_spec. Qed.

(** C10 (null head). A queue that a move construction or move assignment
    has emptied has a null [head_]; [dequeue] on it returns [false], leaves
    [out], the queue and the memory alone, and dereferences nothing (a null
    dereference would be a [Fault]). *)
Theorem dequeue_null_head
    (other this : LockFreeQueue) (value : T) (fuel : nat) (σ : store) :
  0 < fuel →
  let src := (move_construct other).2 in
  head_ src = None ∧
  dequeue moved_from fuel value src σ = Done (false, value, src) σ ∧
  ∀ r σ', move_assign moved_from T_default fuel this other σ = Done r σ' →
          r.2 = src.
Proof.
  intros Hfuel. simpl. split_and!; [done| |].
  - destruct fuel; [lia|done].
  - intros r σ'. unfold move_assign, bind.
    destruct (clear _ _ _ _ _); [|done..]. unfold ret. by intros [= <- _].
Qed.

End with_default.

Section with_alloc.

Context (alloc : gmap nat (@Node T) → nat) (Halloc : fresh_alloc alloc).

(** *** [enqueue] *)

Lemma enqueue_spec fuel v σ q vs :
  wf_lag σ q vs →
  3 * length (spurious σ) + 2 < fuel →
  ∃ q' σ', enqueue alloc fuel v q σ = Done q' σ' ∧
    wf_lag σ' q' (vs ++ [v]) ∧
    length (spurious σ') ≤ length (spurious σ) ∧
    (quiet σ → quiet σ' ∧ wf σ' q' (vs ++ [v])).
Proof.
  intros (c & [Hhead Hsome Hchain Hnd Hholds] & Hnear) Hfuel.
  destruct σ as [h sp]. simpl in *.
  destruct (last c) as [l|] eqn:Hlast.
  2: { apply last_None in Hlast. by apply chain_nonempty in Hchain. }
  destruct (chain_last_node _ _ _ Hchain Hlast) as [dl Hl].
  set (b := alloc h).
  assert (∀ x, x ∈ c → x ≠ b) as Hfresh.
  { intros x Hx ->. apply (chain_live _ _ _ Hchain) in Hx as [n Hx].
    unfold b in Hx. by rewrite Halloc in Hx. }
  assert (l ∈ c) as Hlc by (by apply last_Some_elem_of).
  set (h1 := <[b := mkNode (Some v) None]> h).
  set (σ1 := mkStore h1 sp).
  assert (∃ rank, rank ≤ 2 ∧ lagging σ1 q (tail_ q) l rank) as (rank & Hrank & Hlag).
  { destruct Hnear as [Ht|(pre & p & l' & -> & Ht)].
    - exists 0. split; [lia|]. left. by rewrite Ht.
    - assert (last (pre ++ [p; l']) = Some l') as Hl'.
      { change [p; l'] with ([p] ++ [l']). by rewrite (assoc_L (++)), last_snoc. }
      rewrite Hl' in Hlast. injection Hlast as ->.
      exists 2. split; [lia|]. right. exists p. split_and!.
      + simpl. unfold h1. rewrite next_at_insert.
        case_decide as Hb; [|by eapply chain_step].
        exfalso. apply (Hfresh p); [set_solver|done].
      + intros ->. apply NoDup_app in Hnd as (_ & _ & Hnd).
        apply NoDup_cons in Hnd as [Hnd _]. set_solver.
      + done.
      + right. done. }
  destruct (enqueue_loop_spec fuel σ1 q (tail_ q) b l dl rank)
    as (q' & σ' & Hrun & Hhd & Htl & Hnodes & Hsp & Hq).
  { simpl. unfold h1. rewrite lookup_insert_ne; [done|]. intros <-. by apply (Hfresh b). }
  { done. }
  { simpl. lia. }
  exists q', σ'. split.
  { unfold enqueue. by erewrite bind_done by reflexivity. }
  destruct (last_snoc_split _ _ Hlast) as [pre Hpre].
  assert (sentinel σ' q' (c ++ [b]) (vs ++ [v])) as Hsen.
  { split.
    - rewrite Hhd, Hhead. destruct c; [by apply chain_nonempty in Hchain|done].
    - by rewrite Hhd.
    - rewrite Hnodes. simpl.
      apply (chain_snoc h _ c l b); try done.
      + intros Hb. by apply (Hfresh b).
      + intros x Hx Hxl. rewrite next_at_insert. case_decide; [congruence|].
        unfold h1. rewrite next_at_insert. case_decide; [|done].
        exfalso. by apply (Hfresh x).
      + rewrite next_at_insert. by case_decide.
      + rewrite next_at_insert. case_decide as E.
        { exfalso. by apply (Hfresh l). }
        unfold h1. rewrite next_at_insert. by case_decide.
    - apply NoDup_app. split_and!; [done| |apply NoDup_singleton].
      intros x Hx Hb. apply list_elem_of_singleton in Hb as ->. by apply (Hfresh b).
    - replace (tail (c ++ [b])) with (tail c ++ [b]).
      2: { destruct c; [by apply chain_nonempty in Hchain|done]. }
      apply Forall2_app.
      + eapply holds_frame; [|exact Hholds]. intros x Hx.
        assert (x ∈ c) as Hxc. { destruct c; [done|]. simpl in Hx. set_solver. }
        rewrite Hnodes. simpl.
        rewrite lookup_insert. case_decide as E.
        * subst x. by rewrite Hl.
        * unfold h1. rewrite lookup_insert_ne; [done|]. intros <-. by apply (Hfresh b).
      + constructor; [|constructor]. unfold holds. rewrite Hnodes. simpl.
        rewrite lookup_insert_ne. 2: { intros ->. by apply (Hfresh b). }
        unfold h1. by rewrite lookup_insert_eq. }
  split_and!.
  - exists (c ++ [b]). split; [done|].
    destruct Htl as [Ht|Ht].
    + left. by rewrite last_snoc.
    + right. exists pre, l, b. split; [|done]. rewrite Hpre. by rewrite <- (assoc_L (++)).
  - simpl in Hsp. done.
  - intros Hquiet. destruct (Hq Hquiet) as [Hq' Ht].
    split; [done|]. exists (c ++ [b]). split; [done|].
    by rewrite last_snoc.
Qed.

(** *** The constructor *)

Lemma construct_spec σ :
  ∃ q σ', construct alloc σ = Done q σ' ∧ wf σ' q [] ∧
    spurious σ' = spurious σ.
Proof.
  destruct σ as [h sp]. set (b := alloc h).
  exists (mkQueue (Some b) (Some b)), (mkStore (<[b := mkNode None None]> h) sp).
  split; [done|]. split; [|done].
  exists [b]. split; [|done].
  split; simpl; try done.
  - unfold next_at. by rewrite lookup_insert_eq.
  - apply NoDup_singleton.
Qed.

(** *** One producer, then one consumer *)

Lemma enqueue_all_spec : ∀ vs0 fuel σ q vs,
  wf_lag σ q vs →
  3 * length (spurious σ) + 2 < fuel →
  ∃ q' σ', enqueue_all alloc fuel vs0 q σ = Done q' σ' ∧
    wf_lag σ' q' (vs ++ vs0) ∧
    length (spurious σ') ≤ length (spurious σ).
Proof.
  induction vs0 as [|v vs0 IH]; intros fuel σ q vs Hwf Hfuel.
  - exists q, σ. rewrite app_nil_r. by split_and!.
  - cbn [enqueue_all].
    destruct (enqueue_spec fuel v σ q vs Hwf Hfuel) as (q1 & σ1 & Hrun & Hwf1 & Hsp & _).
    destruct (IH fuel σ1 q1 (vs ++ [v]) Hwf1) as (q' & σ' & Hrun' & Hwf' & Hsp'); [lia|].
    exists q', σ'. rewrite <- (assoc_L (++)) in Hwf'.
    split_and!; [|done|lia].
    by erewrite bind_done by exact Hrun.
Qed.

Lemma produce_consume_spec vs fuel value σ :
  3 * length (spurious σ) + 2 < fuel →
  ∃ σ', produce_consume moved_from alloc fuel vs value σ
          = Done (fifo_trace value vs) σ'.
Proof.
  intros Hfuel.
  destruct (construct_spec σ) as (q0 & σ0 & Hc & Hwf0 & Hsp0).
  destruct (enqueue_all_spec vs fuel σ0 q0 [] (wf_wf_lag _ _ _ Hwf0))
    as (q1 & σ1 & He & (c & Hsen & _) & Hsp1); [rewrite Hsp0; lia|].
  destruct (dequeue_times_spec vs fuel value σ1 q1 c Hsen)
    as (q2 & σ2 & Hd & _); [rewrite Hsp0 in Hsp1; lia|].
  exists σ2. unfold produce_consume.
  erewrite bind_done by exact Hc.
  erewrite bind_done by exact He.
  erewrite bind_done by exact Hd. done.
Qed.

(** C1 (sequential FIFO, both queues). One producer puts the values [vs] in
    order into a fresh queue and nothing else runs meanwhile; one consumer
    then calls [dequeue] / [pop] again and again.  It receives exactly [vs]
    in the same order, each with [true], and the call after the last value
    returns [false].  For [LockFreeQueue] this holds whichever of the weak
    compare-exchanges fail spuriously, given enough rounds of the loops. *)
Theorem fifo_single_producer_single_consumer
    (vs : list T) (value : T) (fuel : nat) (σ : store) :
  3 * length (spurious σ) + 2 < fuel →
  (∃ σ', produce_consume moved_from alloc fuel vs value σ
           = Done (fifo_trace value vs) σ') ∧
  Safe.pop_times (S (length vs)) value (Safe.push_all vs Safe.create)
    = (fifo_trace value vs, Safe.create).
Proof.
  intros Hfuel. split.
  - by apply produce_consume_spec.
  - apply SafeFacts.pop_times_drain. by rewrite SafeFacts.push_all_data.
Qed.

Section programs.

Variable T_default : T.

(** *** Programs *)

Lemma run_refines : ∀ prog fuel value σ q vs,
  wf σ q vs → quiet σ →
  length prog + length vs + 2 < fuel →
  ∃ q' σ',
    run moved_from T_default alloc fuel prog value q σ =
      Done ((run_list prog value vs).1, q') σ' ∧
    wf σ' q' (run_list prog value vs).2 ∧ quiet σ'.
Proof.
  induction prog as [|o prog IH]; intros fuel value σ q vs Hwf Hq Hfuel.
  - simpl. exists q, σ. by split_and!.
  - cbn [run]. destruct o as [v| |]; cbn [exec run_list].
    + (* enqueue *)
      destruct (enqueue_spec fuel v σ q vs (wf_wf_lag _ _ _ Hwf))
        as (q1 & σ1 & Hrun & _ & _ & Hq1).
      { rewrite Hq. simpl. lia. }
      destruct (Hq1 Hq) as [Hq1' Hwf1].
      destruct (IH fuel value σ1 q1 (vs ++ [v]) Hwf1 Hq1') as (q' & σ' & Hrun' & ? & ?).
      { rewrite length_app. simpl in *. lia. }
      exists q', σ'.
      destruct (run_list prog value (vs ++ [v])) as [[tr value'] vs''] eqn:E.
      split_and!; try done.
      erewrite bind_done.
      2: { erewrite bind_done by exact Hrun. reflexivity. }
      cbn. erewrite bind_done by exact Hrun'. done.
    + (* dequeue *)
      pose proof (dequeue_wf fuel value σ q vs Hwf) as Hd.
      destruct vs as [|v vs'].
      * destruct (IH fuel value σ q [] Hwf Hq) as (q' & σ' & Hrun' & ? & ?);
          [simpl in *; lia|].
        exists q', σ'.
        destruct (run_list prog value []) as [[tr value'] vs''] eqn:E.
        split_and!; try done.
        erewrite bind_done.
        2: { erewrite bind_done; [reflexivity|]. apply Hd. rewrite Hq. simpl. lia. }
        cbn. erewrite bind_done by exact Hrun'. done.
      * destruct Hd as (q1 & σ1 & Hrun & Hwf1 & _ & Hq1); [rewrite Hq; simpl; lia|].
        destruct (IH fuel v σ1 q1 vs' Hwf1 (Hq1 Hq)) as (q' & σ' & Hrun' & ? & ?);
          [simpl in *; lia|].
        exists q', σ'.
        destruct (run_list prog v vs') as [[tr value'] vs''] eqn:E.
        split_and!; try done.
        erewrite bind_done.
        2: { erewrite bind_done by exact Hrun. reflexivity. }
        cbn. erewrite bind_done by exact Hrun'. done.
    + (* clear *)
      destruct (clear_spec T_default vs fuel σ q Hwf) as (q1 & σ1 & Hrun & Hwf1 & _ & Hq1).
      { rewrite Hq. simpl. lia. }
      destruct (IH fuel value σ1 q1 [] Hwf1 (Hq1 Hq)) as (q' & σ' & Hrun' & ? & ?);
        [simpl in *; lia|].
      exists q', σ'.
      destruct (run_list prog value []) as [[tr value'] vs''] eqn:E.
      split_and!; try done.
      erewrite bind_done.
      2: { erewrite bind_done by exact Hrun. reflexivity. }
      cbn. erewrite bind_done by exact Hrun'. done.
Qed.

(** The sentinel invariant as long as no weak compare-exchange fails
    spuriously.  The constructor leaves a sentinel at [head_] and no
    payload behind it; and after any sequence of [enqueue], [dequeue] and
    [clear] calls made one after the other, with no compare-exchange
    disturbed, [head_] still points to a live sentinel whose successors
    hold exactly the queued values, oldest first (the values a plain list
    would hold after the same calls). *)
Theorem sentinel_invariant
    (prog : list op) (value : T) (fuel : nat) (σ : store) :
  quiet σ →
  length prog + 2 < fuel →
  ∃ q0 σ0 q' σ',
    construct alloc σ = Done q0 σ0 ∧
    sentinel_inv σ0 q0 [] ∧
    run moved_from T_default alloc fuel prog value q0 σ0 =
      Done ((run_list prog value []).1, q') σ' ∧
    sentinel_inv σ' q' (run_list prog value []).2.
Proof.
  intros Hq Hfuel.
  destruct (construct_spec σ) as (q0 & σ0 & Hc & Hwf0 & Hsp0).
  destruct (run_refines prog fuel value σ0 q0 [] Hwf0) as (q' & σ' & Hrun & Hwf' & _).
  { unfold quiet in *. congruence. }
  { simpl. lia. }
  exists q0, σ0, q', σ'. split_and!; try done; by apply wf_sentinel.
Qed.

End programs.

End with_alloc.

End facts.

(** *** Concrete runs *)

Lemma bump_alloc_fresh : fresh_alloc bump_alloc.
Proof.
  intros h. unfold bump_alloc. apply (not_elem_of_dom (D := gset nat)).
  apply (is_fresh (dom h)).
Qed.

Lemma fifo_single_producer_single_consumer_witness :
  (fresh_alloc bump_alloc ∧ 3 * length (spurious noisy_store) + 2 < 20) ∧
  ((∃ σ', produce_consume id bump_alloc 20 [10; 20; 30] 0 noisy_store
            = Done (fifo_trace 0 [10; 20; 30]) σ') ∧
   Safe.pop_times 4 0 (Safe.push_all [10; 20; 30] Safe.create)
     = (fifo_trace 0 [10; 20; 30], Safe.create)).
Proof.
  assert (H2 : 3 * length (spurious noisy_store) + 2 < 20) by (simpl; lia).
  split; [split; [exact bump_alloc_fresh|exact H2]|].
  exact (fifo_single_producer_single_consumer id bump_alloc bump_alloc_fresh
           [10; 20; 30] 0 20 noisy_store H2).
Defined.

Lemma one_queued_sentinel : sentinel_inv one_queued (mkQueue (Some 0) (Some 1)) [7].
Proof.
  exists [0; 1]. split; simpl.
  - done.
  - by eexists.
  - by split.
  - apply NoDup_cons. split; [set_solver|apply NoDup_singleton].
  - by repeat constructor.
Qed.

Lemma dequeue_contract_witness :
  (sentinel_inv one_queued (mkQueue (Some 0) (Some 1)) [7] ∧
   length (spurious one_queued) < 5) ∧
  ((∃ flag value' q' σ',
      dequeue id 5 0 (mkQueue (Some 0) (Some 1)) one_queued = Done (flag, value', q') σ' ∧
      (flag = true ↔ [7] ≠ []) ∧ value' = 7 ∧ sentinel_inv σ' q' []) ∧
   (∃ flag value' sq',
      Safe.pop 0 (Safe.mkSafeQueue [7; 8]) = (flag, value', sq') ∧
      (flag = true ↔ [7; 8] ≠ []) ∧ value' = 7 ∧ Safe.data_ sq' = [8])).
Proof.
  assert (H2 : length (spurious one_queued) < 5) by (simpl; lia).
  split; [split; [exact one_queued_sentinel|exact H2]|].
  exact (dequeue_contract id 0 5 one_queued (mkQueue (Some 0) (Some 1)) [7]
           (Safe.mkSafeQueue [7; 8]) one_queued_sentinel H2).
Defined.

Lemma sentinel_invariant_witness :
  (fresh_alloc bump_alloc ∧ quiet quiet_store ∧ length sample_program + 2 < 10) ∧
  ∃ q0 σ0 q' σ',
    construct bump_alloc quiet_store = Done q0 σ0 ∧
    sentinel_inv σ0 q0 [] ∧
    run id 0 bump_alloc 10 sample_program 0 q0 σ0 =
      Done ((run_list sample_program 0 []).1, q') σ' ∧
    sentinel_inv σ' q' (run_list sample_program 0 []).2.
Proof.
  assert (H2 : quiet quiet_store) by reflexivity.
  assert (H3 : length sample_program + 2 < 10) by (simpl; lia).
  split; [split_and!; [exact bump_alloc_fresh|exact H2|exact H3]|].
  exact (sentinel_invariant id bump_alloc bump_alloc_fresh 0 sample_program 0 10
           quiet_store H2 H3).
Defined.

Lemma dequeue_null_head_witness :
  0 < 1 ∧
  let src := (move_construct (mkQueue (Some 0) (Some 1))).2 in
  head_ src = None ∧
  dequeue id 1 0 src one_queued = Done (false, 0, src) one_queued ∧
  ∀ r σ', move_assign id 0 1 (mkQueue (Some 3) (Some 3)) (mkQueue (Some 0) (Some 1))
            one_queued = Done r σ' →
          r.2 = src.
Proof.
  assert (H : 0 < 1) by lia.
  split; [exact H|].
  exact (dequeue_null_head id 0 (mkQueue (Some 0) (Some 1)) (mkQueue (Some 3) (Some 3))
           0 1 one_queued H).
Defined.

Lemma lowest_free_fresh : fresh_alloc lowest_free.
Proof.
  intros h. unfold lowest_free.
  destruct (head (filter (λ n, h !! n = None) (seq 0 (size h)))) as [n|] eqn:E; simpl.
  - apply head_Some_elem_of in E. by apply list_elem_of_filter in E as [? _].
  - apply head_None in E.
    destruct (h !! size h) as [x|] eqn:Hx; [exfalso|done].
    assert (set_seq 0 (S (size h)) ⊆ dom h) as Hsub.
    { intros n Hn. apply elem_of_set_seq in Hn as [_ Hn]. apply elem_of_dom.
      destruct (decide (n = size h)) as [->|Hne]; [by eexists|].
      destruct (h !! n) as [y|] eqn:Hy; [by eexists|exfalso].
      assert (n ∈ filter (λ n, h !! n = None) (seq 0 (size h))) as Hin.
      { apply list_elem_of_filter. split; [done|]. apply elem_of_seq. lia. }
      rewrite E in Hin. by apply not_elem_of_nil in Hin. }
    apply subseteq_size in Hsub. rewrite size_set_seq, size_dom in Hsub. lia.
Qed.

(** C8 (sentinel invariant).
    One thread calls [enqueue(1)], [dequeue(value)], [enqueue(2)] on a
    fresh queue, and the weak compare-exchange on [tail_] that ends the
    first [enqueue] fails spuriously.  A plain queue would now hold 2.
    [enqueue] ignores the failure and [dequeue] never looks at [tail_], so
    the [dequeue] frees the old sentinel while [tail_] still points to it.
    With an allocator that never reuses an address, the second [enqueue]
    reads through the dangling pointer.  With one that hands the freed
    address out again, the second [enqueue] returns, but it has linked its
    node to itself: a sentinel is still at [head_], its [next] is null,
    the payload 2 is not in the node reached from [head_->next], and the
    next [dequeue] reports an empty queue.  The sequence of calls, run
    alone, has not kept the invariant. *)
Theorem sentinel_lost_after_spurious_failure :
  let σ := mkStore ∅ [false; true] in
  let prog := [Enqueue 1; Dequeue; Enqueue 2] in
  run_list prog 0 [] = ([(true, 1)], 1, [2]) ∧
  (let* q := construct bump_alloc in run id 0 bump_alloc 10 prog 0 q) σ = Fault ∧
  ∃ q' σ',
    (let* q := construct lowest_free in run id 0 lowest_free 10 prog 0 q) σ
      = Done ([(true, 1)], 1, q') σ' ∧
    q' = mkQueue (Some 1) (Some 0) ∧
    nodes σ' !! 1 = Some (mkNode (Some 1) None) ∧
    nodes σ' !! 0 = Some (mkNode (Some 2) (Some 0)) ∧
    sentinel_inv σ' q' [] ∧
    ¬ sentinel_inv σ' q' [2] ∧
    dequeue id 10 1 q' σ' = Done (false, 1, q') σ'.
Proof.
  cbv zeta. split_and!; [by vm_compute|by vm_compute|].
  eexists _, _. split; [vm_compute; reflexivity|].
  split_and!; try (vm_compute; reflexivity).
  - exists [1]. split; [done|by eexists|by vm_compute|apply NoDup_singleton|constructor].
  - intros ([|hd [|b r]] & [Hhead _ Hchain _ Hholds]).
    + done.
    + apply Forall2_length in Hholds. done.
    + injection Hhead as <-. destruct Hchain as [Hnext _]. vm_compute in Hnext. done.
Qed.

(** What a spurious failure can do to later calls.  In both runs the
    best-effort advance of [tail_] at the end of the first [enqueue] fails
    spuriously, and the [dequeue] that follows frees the old sentinel while
    [tail_] still points to it.  With an allocator that never reuses an
    address, the next [enqueue] reads through the dangling pointer.  With
    one that hands the freed address out again, the next [enqueue] links
    its node to itself and the value never reaches the consumer. *)
Example lagging_tail_hazard :
  (let* q := construct bump_alloc in
   let* q := enqueue bump_alloc 5 1 q in
   let* r := dequeue id 5 0 q in
   enqueue bump_alloc 5 2 r.2) (mkStore ∅ [false; true]) = Fault ∧
  ∃ σ',
    (let* q := construct lowest_free in
     let* q := enqueue lowest_free 5 1 q in
     let* r := dequeue id 5 0 q in
     let* q := enqueue lowest_free 5 2 r.2 in
     let* r' := dequeue id 5 0 q in
     ret (r.1, r'.1)) (mkStore ∅ [false; true]) = Done ((true, 1), (false, 0)) σ'.
Proof. split; [|eexists]; vm_compute; reflexivity. Qed.

End LockFreeFacts.

(** * Part 7: properties of the thread pools *)

Module LockFreeMemory.
Import LockFree LockFreeFacts Samples.

Section facts.

Context {T : Type} (moved_from : T → T).

Implicit Types (σ : @store T) (q : LockFreeQueue) (h F : gmap nat (@Node T))
  (c : list nat) (vs : list T).

(** *** [empty] *)

Lemma sentinel_first σ q c vs :
  sentinel σ q c vs →
  ∃ hd r n, c = hd :: r ∧ head_ q = Some hd ∧ nodes σ !! hd = Some n ∧
            next n = head r ∧ length r = length vs.
Proof.
  intros [Hhead _ Hchain _ Hholds].
  destruct c as [|hd r]; [done|]. simpl in *.
  apply Forall2_length in Hholds.
  exists hd, r.
  destruct r as [|b r']; simpl in Hchain; [|destruct Hchain as [Hchain _]];
    unfold next_at in Hchain; destruct (nodes σ !! hd) as [n|] eqn:E; try done;
    injection Hchain as Hn; by exists n.
Qed.

(** X1 ([empty]).
    [empty()] on a queue that satisfies the sentinel invariant tells
    whether no value is queued; it changes nothing and, like [dequeue],
    does not depend on [tail_]. *)
Theorem empty_iff_no_value σ q vs :
  sentinel_inv σ q vs → empty q σ = Done (bool_decide (length vs = 0)) σ.
Proof.
  intros (c & Hsen).
  destruct (sentinel_first _ _ _ _ Hsen) as (hd & r & n & -> & Hq & Hn & Hnx & Hlen).
  unfold empty. rewrite Hq. erewrite bind_done by (by apply load_next_live).
  unfold ret. f_equal. rewrite Hnx, <- Hlen. by destruct r.
Qed.

(** *** Who owns which node *)

Lemma popped_owns F σ σ' v hd b nb c' :
  owns F σ (hd :: b :: c') →
  nodes σ' = popped moved_from v hd b nb (nodes σ) →
  owns F σ' (b :: c').
Proof.
  intros [Hout Hin] Hn. split.
  - intros a Ha. apply Hout. set_solver.
  - intros a Ha. rewrite Hn. unfold popped.
    destruct (decide (a = hd)) as [->|Hne].
    + rewrite lookup_delete_eq. symmetry. apply Hout. set_solver.
    + rewrite lookup_delete_ne by done.
      rewrite lookup_insert_ne by set_solver.
      apply Hin. set_solver.
Qed.

Lemma clear_loop_owns F : ∀ vs fuel dummy σ q c,
  sentinel σ q c vs → owns F σ c →
  length (spurious σ) + length vs < fuel →
  ∃ σ' l, clear_loop moved_from fuel dummy q σ = Done (mkQueue (Some l) (tail_ q)) σ' ∧
    last c = Some l ∧
    sentinel σ' (mkQueue (Some l) (tail_ q)) [l] [] ∧
    owns F σ' [l] ∧
    length (spurious σ') ≤ length (spurious σ) ∧
    (quiet σ → quiet σ').
Proof.
  induction vs as [|v vs IH]; intros fuel dummy σ q c Hsen Hown Hfuel.
  - destruct fuel as [|fuel]; [lia|]. cbn [clear_loop].
    erewrite bind_done.
    2: { apply (dequeue_spec moved_from (S fuel) dummy σ q c [] Hsen). simpl in *. lia. }
    simpl.
    destruct (sentinel_first _ _ _ _ Hsen) as (hd & r & n & -> & Hq & _ & _ & Hlen).
    destruct r; [|done]. destruct q as [hq tq]. simpl in *. subst hq.
    exists σ, hd. by split_and!.
  - destruct fuel as [|fuel]; [simpl in *; lia|]. cbn [clear_loop].
    destruct (dequeue_spec moved_from (S fuel) dummy σ q c (v :: vs) Hsen)
      as (σ1 & hd & b & c' & nb & -> & Hrun & Hsen1 & Hn & Hsp & Hq); [simpl in *; lia|].
    erewrite bind_done by exact Hrun. simpl.
    destruct (IH fuel v σ1 _ _ Hsen1 (popped_owns _ _ _ _ _ _ _ _ Hown Hn))
      as (σ' & l & Hrun' & Hl & Hsen' & Hown' & Hsp' & Hq'); [simpl in *; lia|].
    simpl in *. exists σ', l. split_and!; try done; [lia|tauto].
Qed.

Lemma without_lookup h c a :
  without h c !! a = if decide (a ∈ c) then None else h !! a.
Proof.
  unfold without. rewrite map_lookup_filter.
  destruct (h !! a) as [n|]; simpl; [|by case_decide].
  case_guard; case_decide; naive_solver.
Qed.

Lemma owns_without σ c : owns (without (nodes σ) c) σ c.
Proof.
  split; intros a Ha; rewrite without_lookup.
  - by rewrite decide_True.
  - by rewrite decide_False.
Qed.

(** A queue is not affected by what happens to objects that are not its
    nodes. *)
Lemma sentinel_frame σ σ' q c vs :
  (∀ x, x ∈ c → nodes σ' !! x = nodes σ !! x) →
  sentinel σ q c vs → sentinel σ' q c vs.
Proof.
  intros Hag [Hhead Hsome Hchain Hnd Hholds]. split; try done.
  - eapply chain_frame; [|exact Hchain].
    intros x Hx. unfold next_at. by rewrite Hag.
  - eapply (holds_frame moved_from); [|exact Hholds].
    intros x Hx. rewrite Hag; [done|].
    destruct c; [done|]. simpl in Hx. set_solver.
Qed.

Section with_default.

(** [T dummy;] in [clear]. *)
Variable T_default : T.

(** *** The destructor *)

Lemma destroy_owns F σ q c vs fuel :
  sentinel σ q c vs → owns F σ c →
  length (spurious σ) + length vs < fuel →
  ∃ σ', destroy moved_from T_default fuel q σ = Done tt σ' ∧ nodes σ' = F ∧
        length (spurious σ') ≤ length (spurious σ) ∧ (quiet σ → quiet σ').
Proof.
  intros Hsen Hown Hfuel.
  destruct (clear_loop_owns F vs fuel T_default σ q c Hsen Hown Hfuel)
    as (σ1 & l & Hrun & Hl & Hsen1 & [Hout Hin] & Hsp & Hq).
  unfold destroy, clear. erewrite bind_done by exact Hrun. simpl.
  destruct (sentinel_first _ _ _ _ Hsen1) as (hd & r & n & [= <- <-] & _ & Hn & _).
  unfold delete_node. rewrite Hn. eexists. split; [done|]. simpl. split; [|done].
  apply map_eq. intros a. destruct (decide (a = l)) as [->|Hne].
  - rewrite lookup_delete_eq. symmetry. apply Hout. set_solver.
  - rewrite lookup_delete_ne by done. apply Hin. set_solver.
Qed.

Lemma destroy_null fuel σ :
  0 < fuel → destroy moved_from T_default fuel (mkQueue None None) σ = Done tt σ.
Proof. intros Hfuel. destruct fuel; [lia|done]. Qed.

(** X3 (destructor).
    The destructor of a queue in any state that satisfies the sentinel
    invariant, whatever [tail_] is and whichever compare-exchanges fail
    spuriously: it returns, having freed each node of the queue once, the
    sentinel included, and nothing else. *)
Theorem destructor_frees_every_node σ q c vs fuel :
  sentinel σ q c vs →
  length (spurious σ) + length vs < fuel →
  ∃ σ', destroy moved_from T_default fuel q σ = Done tt σ' ∧
        nodes σ' = without (nodes σ) c.
Proof.
  intros Hsen Hfuel.
  destruct (destroy_owns _ σ q c vs fuel Hsen (owns_without σ c) Hfuel)
    as (σ' & Hrun & Hn & _).
  by exists σ'.
Qed.

(** *** Move assignment *)

(** X4 (move assignment).
    [this = std::move(other)] calls [clear()], which frees the nodes that
    held values but keeps the sentinel, and then overwrites [head_] and
    [tail_].  The last sentinel [l] of [this] is never freed: after the
    assignment and the destructors of both objects, the heap is the
    initial one without the nodes of the two queues, except that [l] is
    still allocated. *)
Theorem move_assign_leaks_sentinel σ this other c vs c2 vs2 fuel :
  sentinel σ this c vs →
  sentinel σ other c2 vs2 →
  (∀ a, a ∈ c → a ∉ c2) →
  length (spurious σ) + length vs < fuel →
  length (spurious σ) + length vs2 < fuel →
  ∃ σ1 σ' l,
    move_assign moved_from T_default fuel this other σ
      = Done (mkQueue (head_ other) (tail_ other), mkQueue None None) σ1 ∧
    sentinel σ1 (mkQueue (head_ other) (tail_ other)) c2 vs2 ∧
    assign_and_destroy moved_from T_default fuel this other σ = Done tt σ' ∧
    last c = Some l ∧
    is_Some (nodes σ' !! l) ∧
    delete l (nodes σ') = without (nodes σ) (c ++ c2).
Proof.
  intros Hsen Hsen2 Hdisj Hfuel Hfuel2.
  destruct (clear_loop_owns _ vs fuel T_default σ this c Hsen (owns_without σ c) Hfuel)
    as (σ1 & l & Hrun & Hl & Hsen1 & [Hout Hin] & Hsp & _).
  assert (l ∈ c) as Hlc by (by apply last_Some_elem_of).
  assert (∀ x, x ∉ c → nodes σ1 !! x = nodes σ !! x) as Hframe.
  { intros x Hx. rewrite Hin by set_solver. rewrite without_lookup.
    by rewrite decide_False. }
  assert (sentinel σ1 (mkQueue (head_ other) (tail_ other)) c2 vs2) as Hsen2'.
  { destruct other as [ho to]. apply (sentinel_frame σ); [|done].
    intros x Hx. apply Hframe. intros Hxc. by apply (Hdisj x). }
  destruct (destroy_owns _ σ1 _ c2 vs2 fuel Hsen2' (owns_without σ1 c2))
    as (σ2 & Hrun2 & Hn2 & _); [lia|].
  assert (move_assign moved_from T_default fuel this other σ
          = Done (mkQueue (head_ other) (tail_ other), mkQueue None None) σ1) as Hmove.
  { unfold move_assign, clear. by erewrite bind_done by exact Hrun. }
  destruct (sentinel_first _ _ _ _ Hsen1) as (hd & r & n & [= <- <-] & _ & Hn & _).
  exists σ1, σ2, l. split_and!; try done.
  - unfold assign_and_destroy. erewrite bind_done by exact Hmove.
    cbn [fst snd]. erewrite bind_done by exact Hrun2.
    apply destroy_null. lia.
  - rewrite Hn2, without_lookup, decide_False, Hn; [done|].
    intros Hl2. by apply (Hdisj l).
  - apply map_eq. intros a. rewrite Hn2.
    destruct (decide (a = l)) as [->|Hne].
    + rewrite lookup_delete_eq, without_lookup. rewrite decide_True; [done|set_solver].
    + rewrite lookup_delete_ne by done. rewrite !without_lookup.
      destruct (decide (a ∈ c2)) as [Hc2|Hc2].
      * rewrite decide_True; [done|set_solver].
      * rewrite Hin by set_solver. rewrite without_lookup.
        destruct (decide (a ∈ c)) as [Hc|Hc].
        -- rewrite decide_True; [done|set_solver].
        -- rewrite decide_False; [done|set_solver].
Qed.

End with_default.

Section with_alloc.

Context (alloc : gmap nat (@Node T) → nat) (Halloc : fresh_alloc alloc).

(** *** [enqueue], with the nodes it touches *)

Lemma enqueue_chain fuel v σ q c vs :
  sentinel σ q c vs → tail_near q c →
  3 * length (spurious σ) + 2 < fuel →
  ∃ q' σ' l dl,
    enqueue alloc fuel v q σ = Done q' σ' ∧
    last c = Some l ∧
    sentinel σ' q' (c ++ [alloc (nodes σ)]) (vs ++ [v]) ∧
    tail_near q' (c ++ [alloc (nodes σ)]) ∧
    nodes σ' = <[l := mkNode dl (Some (alloc (nodes σ)))]>
                 (<[alloc (nodes σ) := mkNode (Some v) None]> (nodes σ)) ∧
    length (spurious σ') ≤ length (spurious σ) ∧
    (quiet σ → quiet σ' ∧ tail_ q' = Some (alloc (nodes σ))).
Proof.
  intros [Hhead Hsome Hchain Hnd Hholds] Hnear Hfuel.
  destruct σ as [h sp]. simpl in *.
  destruct (last c) as [l|] eqn:Hlast.
  2: { apply last_None in Hlast. by apply chain_nonempty in Hchain. }
  destruct (chain_last_node _ _ _ Hchain Hlast) as [dl Hl].
  set (b := alloc h).
  assert (∀ x, x ∈ c → x ≠ b) as Hfresh.
  { intros x Hx ->. apply (chain_live _ _ _ Hchain) in Hx as [n Hx].
    unfold b in Hx. by rewrite Halloc in Hx. }
  assert (l ∈ c) as Hlc by (by apply last_Some_elem_of).
  set (h1 := <[b := mkNode (Some v) None]> h).
  set (σ1 := mkStore h1 sp).
  assert (∃ rank, rank ≤ 2 ∧ lagging σ1 q (tail_ q) l rank) as (rank & Hrank & Hlag).
  { destruct Hnear as [Ht|(pre & p & l' & -> & Ht)].
    - exists 0. split; [lia|]. left. by rewrite Ht.
    - assert (last (pre ++ [p; l']) = Some l') as Hl'.
      { change [p; l'] with ([p] ++ [l']). by rewrite (assoc_L (++)), last_snoc. }
      rewrite Hl' in Hlast. injection Hlast as ->.
      exists 2. split; [lia|]. right. exists p. split_and!.
      + simpl. unfold h1. rewrite next_at_insert.
        case_decide as Hb; [|by eapply chain_step].
        exfalso. apply (Hfresh p); [set_solver|done].
      + intros ->. apply NoDup_app in Hnd as (_ & _ & Hnd).
        apply NoDup_cons in Hnd as [Hnd _]. set_solver.
      + done.
      + right. done. }
  destruct (enqueue_loop_spec fuel σ1 q (tail_ q) b l dl rank)
    as (q' & σ' & Hrun & Hhd & Htl & Hnodes & Hsp & Hq).
  { simpl. unfold h1. rewrite lookup_insert_ne; [done|]. intros <-. by apply (Hfresh b). }
  { done. }
  { simpl. lia. }
  exists q', σ', l, dl. split.
  { unfold enqueue. by erewrite bind_done by reflexivity. }
  destruct (last_snoc_split _ _ Hlast) as [pre Hpre].
  split; [done|].
  split_and!.
  - split.
    + rewrite Hhd, Hhead. destruct c; [by apply chain_nonempty in Hchain|done].
    + by rewrite Hhd.
    + rewrite Hnodes. simpl.
      apply (chain_snoc h _ c l b); try done.
      * intros Hb. by apply (Hfresh b).
      * intros x Hx Hxl. rewrite next_at_insert. case_decide; [congruence|].
        unfold h1. rewrite next_at_insert. case_decide; [|done].
        exfalso. by apply (Hfresh x).
      * rewrite next_at_insert. by case_decide.
      * rewrite next_at_insert. case_decide as E.
        { exfalso. by apply (Hfresh l). }
        unfold h1. rewrite next_at_insert. by case_decide.
    + apply NoDup_app. split_and!; [done| |apply NoDup_singleton].
      intros x Hx Hb. apply list_elem_of_singleton in Hb as ->. by apply (Hfresh b).
    + replace (tail (c ++ [b])) with (tail c ++ [b]).
      2: { destruct c; [by apply chain_nonempty in Hchain|done]. }
      apply Forall2_app.
      * eapply (holds_frame moved_from); [|exact Hholds]. intros x Hx.
        assert (x ∈ c) as Hxc. { destruct c; [done|]. simpl in Hx. set_solver. }
        rewrite Hnodes. simpl.
        rewrite lookup_insert. case_decide as E.
        -- subst x. by rewrite Hl.
        -- unfold h1. rewrite lookup_insert_ne; [done|]. intros <-. by apply (Hfresh b).
      * constructor; [|constructor]. unfold holds. rewrite Hnodes. simpl.
        rewrite lookup_insert_ne. 2: { intros ->. by apply (Hfresh b). }
        unfold h1. by rewrite lookup_insert_eq.
  - destruct Htl as [Ht|Ht].
    + left. by rewrite last_snoc.
    + right. exists pre, l, b. split; [|done]. rewrite Hpre. by rewrite <- (assoc_L (++)).
  - done.
  - simpl in Hsp. done.
  - done.
Qed.

Lemma enqueue_owns F σ σ' c l dl v :
  chain (nodes σ) c → last c = Some l → owns F σ c →
  nodes σ' = <[l := mkNode dl (Some (alloc (nodes σ)))]>
               (<[alloc (nodes σ) := mkNode (Some v) None]> (nodes σ)) →
  owns F σ' (c ++ [alloc (nodes σ)]).
Proof.
  intros Hchain Hl [Hout Hin] Hn.
  assert (alloc (nodes σ) ∉ c) as Hfresh.
  { intros Hx. apply (chain_live _ _ _ Hchain) in Hx as [n Hx].
    by rewrite Halloc in Hx. }
  assert (l ∈ c) as Hlc by (by apply last_Some_elem_of).
  split.
  - intros a Ha. apply elem_of_app in Ha as [Ha|Ha]; [by apply Hout|].
    apply list_elem_of_singleton in Ha as ->.
    rewrite <- Hin by done. apply Halloc.
  - intros a Ha. rewrite Hn.
    rewrite !lookup_insert_ne by set_solver. apply Hin. set_solver.
Qed.

(** X19 ([enqueue] with a lagging [tail_]).
    [enqueue] on a queue whose [tail_] is the last node or lags by one
    link: whichever weak compare-exchanges fail spuriously, it returns
    within two rounds of its loop more than three times the number of
    such failures; it has allocated exactly one node and linked it behind
    the last one, so that the value is the newest of the queue; [tail_]
    is again the last node or lags by one link, and it is the last node
    if no compare-exchange failed. *)
Theorem enqueue_helps_lagging_tail fuel v σ q vs :
  wf_lag σ q vs →
  3 * length (spurious σ) + 2 < fuel →
  ∃ q' σ',
    enqueue alloc fuel v q σ = Done q' σ' ∧
    wf_lag σ' q' (vs ++ [v]) ∧
    dom (nodes σ') = {[alloc (nodes σ)]} ∪ dom (nodes σ) ∧
    length (spurious σ') ≤ length (spurious σ) ∧
    (quiet σ → quiet σ' ∧ wf σ' q' (vs ++ [v])).
Proof.
  intros (c & Hsen & Hnear) Hfuel.
  destruct (enqueue_chain fuel v σ q c vs Hsen Hnear Hfuel)
    as (q' & σ' & l & dl & Hrun & Hl & Hsen' & Hnear' & Hn & Hsp & Hq).
  exists q', σ'. split_and!; try done.
  - by exists (c ++ [alloc (nodes σ)]).
  - rewrite Hn, !dom_insert_L.
    assert (l ∈ dom (nodes σ)) as Hdom.
    { apply elem_of_dom. apply (chain_live _ c); [by destruct Hsen|].
      by apply last_Some_elem_of. }
    set_solver.
  - intros Hquiet. destruct (Hq Hquiet) as [Hq' Ht]. split; [done|].
    exists (c ++ [alloc (nodes σ)]). split; [done|]. by rewrite last_snoc.
Qed.

Section programs.

Variable T_default : T.

Lemma run_list_length : ∀ (prog : list (@op T)) value vs,
  length (run_list prog value vs).2 ≤ length prog + length vs.
Proof.
  induction prog as [|o prog IH]; intros value vs; [simpl; lia|].
  destruct o as [v| |]; cbn [run_list].
  - specialize (IH value (vs ++ [v])). rewrite length_app in IH. simpl in *. lia.
  - destruct vs as [|v rest].
    + specialize (IH value []).
      destruct (run_list prog value []) as [[tr value'] vs']. simpl in *. lia.
    + specialize (IH v rest).
      destruct (run_list prog v rest) as [[tr value'] vs']. simpl in *. lia.
  - specialize (IH value []). simpl in *. lia.
Qed.

(** A program keeps the memory of the queue apart from the rest. *)
Lemma run_owns F : ∀ prog fuel value σ q c vs,
  sentinel σ q c vs → tail_ q = last c → owns F σ c → quiet σ →
  length prog + length vs + 2 < fuel →
  ∃ q' σ' c',
    run moved_from T_default alloc fuel prog value q σ =
      Done ((run_list prog value vs).1, q') σ' ∧
    sentinel σ' q' c' (run_list prog value vs).2 ∧
    tail_ q' = last c' ∧ owns F σ' c' ∧ quiet σ'.
Proof.
  induction prog as [|o prog IH]; intros fuel value σ q c vs Hsen Htail Hown Hq Hfuel.
  - simpl. exists q, σ, c. by split_and!.
  - cbn [run]. destruct o as [v| |]; cbn [exec run_list].
    + (* enqueue *)
      destruct (enqueue_chain fuel v σ q c vs Hsen)
        as (q1 & σ1 & l & dl & Hrun & Hl & Hsen1 & _ & Hn & _ & Hq1).
      { by left. }
      { rewrite Hq. simpl. lia. }
      destruct (Hq1 Hq) as [Hq1' Htail1].
      destruct (IH fuel value σ1 q1 _ (vs ++ [v]) Hsen1)
        as (q' & σ' & c' & Hrun' & ? & ? & ? & ?).
      { by rewrite last_snoc. }
      { eapply enqueue_owns; try done. by destruct Hsen. }
      { done. }
      { rewrite length_app. simpl in *. lia. }
      exists q', σ', c'.
      destruct (run_list prog value (vs ++ [v])) as [[tr value'] vs''] eqn:E.
      split_and!; try done.
      erewrite bind_done.
      2: { erewrite bind_done by exact Hrun. reflexivity. }
      cbn. erewrite bind_done by exact Hrun'. done.
    + (* dequeue *)
      pose proof (dequeue_spec moved_from fuel value σ q c vs Hsen) as Hd.
      destruct vs as [|v vs'].
      * destruct (IH fuel value σ q c [] Hsen Htail Hown Hq)
          as (q' & σ' & c' & Hrun' & ? & ? & ? & ?); [simpl in *; lia|].
        exists q', σ', c'.
        destruct (run_list prog value []) as [[tr value'] vs''] eqn:E.
        split_and!; try done.
        erewrite bind_done.
        2: { erewrite bind_done; [reflexivity|]. apply Hd. rewrite Hq. simpl. lia. }
        cbn. erewrite bind_done by exact Hrun'. done.
      * destruct Hd as (σ1 & hd & b & c1 & nb & -> & Hrun & Hsen1 & Hn & _ & Hq1);
          [rewrite Hq; simpl; lia|].
        destruct (IH fuel v σ1 _ (b :: c1) vs' Hsen1)
          as (q' & σ' & c' & Hrun' & ? & ? & ? & ?).
        { simpl. rewrite Htail. by rewrite last_cons_cons. }
        { by eapply popped_owns. }
        { by apply Hq1. }
        { simpl in *. lia. }
        exists q', σ', c'.
        destruct (run_list prog v vs') as [[tr value'] vs''] eqn:E.
        split_and!; try done.
        erewrite bind_done.
        2: { erewrite bind_done by exact Hrun. reflexivity. }
        cbn. erewrite bind_done by exact Hrun'. done.
    + (* clear *)
      destruct (clear_loop_owns F vs fuel T_default σ q c Hsen Hown)
        as (σ1 & l & Hrun & Hl & Hsen1 & Hown1 & _ & Hq1).
      { rewrite Hq. simpl. lia. }
      destruct (IH fuel value σ1 _ [l] [] Hsen1)
        as (q' & σ' & c' & Hrun' & ? & ? & ? & ?).
      { simpl. by rewrite Htail. }
      { done. }
      { by apply Hq1. }
      { simpl in *. lia. }
      exists q', σ', c'.
      destruct (run_list prog value []) as [[tr value'] vs''] eqn:E.
      split_and!; try done.
      erewrite bind_done.
      2: { unfold clear. erewrite bind_done by exact Hrun. reflexivity. }
      cbn. erewrite bind_done by exact Hrun'. done.
Qed.

(** X5 (no leak, no double free).
    A queue used by one thread, with no compare-exchange disturbed, from
    its construction to its destruction: the calls return what a plain
    list would give, nothing faults, and when the queue is gone the heap
    is what it was before: every node that was allocated has been freed,
    once. *)
Theorem scoped_queue_returns_memory (prog : list op) (value : T) (fuel : nat) σ :
  quiet σ →
  length prog + 2 < fuel →
  ∃ σ', scoped moved_from T_default alloc fuel prog value σ
          = Done (run_list prog value []).1.1 σ' ∧
        nodes σ' = nodes σ.
Proof.
  intros Hq Hfuel. destruct σ as [h sp]. unfold quiet in Hq. simpl in *. subst sp.
  set (b := alloc h).
  set (σ0 := mkStore (<[b := mkNode None None]> h) []).
  assert (sentinel σ0 (mkQueue (Some b) (Some b)) [b] []) as Hsen.
  { split; simpl; try done.
    - unfold next_at. by rewrite lookup_insert_eq.
    - apply NoDup_singleton. }
  assert (owns h σ0 [b]) as Hown.
  { split; intros a Ha.
    - apply list_elem_of_singleton in Ha as ->. apply Halloc.
    - simpl. rewrite lookup_insert_ne; [done|set_solver]. }
  destruct (run_owns h prog fuel value σ0 _ [b] [] Hsen)
    as (q' & σ' & c' & Hrun & Hsen' & _ & Hown' & Hq'); try done.
  { simpl. lia. }
  pose proof (run_list_length prog value []) as Hlen.
  destruct (destroy_owns T_default h σ' q' c' _ fuel Hsen' Hown')
    as (σ'' & Hdes & Hn & _).
  { rewrite Hq'. simpl in *. lia. }
  exists σ''. split; [|done].
  unfold scoped.
  erewrite bind_done by reflexivity.
  erewrite bind_done by exact Hrun.
  cbn [fst snd]. erewrite bind_done by exact Hdes. done.
Qed.

(** *** A moved-from queue *)

(** X2 (moved-from queue).
    The move constructor hands [head_] and [tail_], and with them the whole
    chain, to the new object and leaves null pointers in [other].  On such
    a moved-from queue [clear] and the destructor do nothing, while
    [empty] and [enqueue] dereference the null pointer. *)
Theorem moved_from_queue (other : LockFreeQueue) (v : T) (fuel : nat) σ vs :
  0 < fuel →
  sentinel_inv σ other vs →
  let dst := (move_construct other).1 in
  let src := (move_construct other).2 in
  sentinel_inv σ dst vs ∧ tail_ dst = tail_ other ∧
  clear moved_from T_default fuel src σ = Done src σ ∧
  destroy moved_from T_default fuel src σ = Done tt σ ∧
  empty src σ = Fault ∧
  enqueue alloc fuel v src σ = Fault.
Proof.
  intros Hfuel Hinv. destruct other as [ho to]. simpl.
  destruct fuel as [|fuel]; [lia|]. by split_and!.
Qed.

End programs.

(** *** A spurious failure of the tail advance *)

(** X6 (lagging [tail_]).
    [enqueue] does not look at the result of its last
    [tail_.compare_exchange_weak].  If that call fails spuriously when a
    value is put into an empty queue, [tail_] stays on the sentinel; the
    [dequeue] of that value then deletes the sentinel, and [tail_] is left
    pointing to a freed node.  The next [enqueue] reads through it, unless
    the allocator has just handed the same address out again. *)
Theorem spurious_tail_failure_dangles σ q (v value : T) (fuel : nat) :
  wf σ q [] →
  spurious σ = [false; true] →
  2 < fuel →
  ∃ σ1 q2 σ2 a,
    enqueue alloc fuel v q σ = Done q σ1 ∧
    dequeue moved_from fuel value q σ1 = Done (true, v, q2) σ2 ∧
    tail_ q2 = Some a ∧
    nodes σ2 !! a = None ∧
    (alloc (nodes σ2) ≠ a → ∀ v', enqueue alloc fuel v' q2 σ2 = Fault).
Proof.
  intros (c & Hsen & Htail) Hsp Hfuel.
  destruct (sentinel_first _ _ _ _ Hsen) as (l & r & n & -> & Hhead & Hl & Hnx & Hlen).
  destruct r; [|done]. clear Hlen. simpl in Htail, Hnx.
  destruct σ as [h sp], q as [hq tq], n as [dl nx]. simpl in *. subst hq tq sp nx.
  set (b := alloc h).
  assert (b ≠ l) as Hbl. { intros E. unfold b in E. by rewrite <- E, Halloc in Hl. }
  destruct fuel as [|fuel]; [lia|].
  set (h1 := <[b := mkNode (Some v) None]> h).
  set (h2 := <[l := mkNode dl (Some b)]> h1).
  set (h3 := <[b := mkNode (Some (moved_from v)) None]> h2).
  exists (mkStore h2 []), (mkQueue (Some b) (Some l)), (mkStore (delete l h3) []), l.
  split_and!.
  - unfold enqueue. erewrite bind_done by reflexivity.
    cbn [enqueue_loop].
    erewrite bind_done.
    2: { apply load_next_live. simpl. by rewrite lookup_insert_ne, Hl. }
    simpl.
    erewrite bind_done.
    2: { apply next_cas_live. simpl. by rewrite lookup_insert_ne, Hl. }
    simpl. unfold bind, flip, ret. simpl. by rewrite cas_weak_spurious.
  - unfold dequeue. cbn [dequeue_loop head_].
    erewrite bind_done.
    2: { apply load_next_live. simpl. unfold h2. by rewrite lookup_insert_eq. }
    simpl.
    erewrite bind_done by reflexivity. cbn [flip spurious nodes head default].
    rewrite cas_weak_ok. cbn iota.
    erewrite bind_done.
    2: { apply (move_data_live moved_from _ b v None). simpl. unfold h2, h1.
         by rewrite lookup_insert_ne, lookup_insert_eq. }
    erewrite bind_done.
    2: { apply (delete_node_live _ l (mkNode dl (Some b))). simpl. unfold h2.
         by rewrite lookup_insert_ne, lookup_insert_eq. }
    done.
  - done.
  - simpl. by rewrite lookup_delete_eq.
  - simpl. intros Hne v'. unfold enqueue.
    erewrite bind_done by reflexivity.
    cbn [enqueue_loop tail_]. unfold load_next, bind, deref. simpl.
    rewrite lookup_insert_ne by done. by rewrite lookup_delete_eq.
Qed.

End with_alloc.

End facts.

(** *** Concrete runs *)

Lemma one_queued_chain : sentinel one_queued (mkQueue (Some 0) (Some 1)) [0; 1] [7].
Proof.
  split; simpl.
  - done.
  - by eexists.
  - by split.
  - apply NoDup_cons. split; [set_solver|apply NoDup_singleton].
  - by repeat constructor.
Qed.

Lemma two_queues_first : sentinel two_queues (mkQueue (Some 0) (Some 1)) [0; 1] [7].
Proof.
  split; simpl.
  - done.
  - by eexists.
  - by split.
  - apply NoDup_cons. split; [set_solver|apply NoDup_singleton].
  - by repeat constructor.
Qed.

Lemma two_queues_second : sentinel two_queues (mkQueue (Some 2) (Some 2)) [2] [].
Proof.
  split; simpl.
  - done.
  - by eexists.
  - done.
  - apply NoDup_singleton.
  - constructor.
Qed.

Lemma two_queues_apart : ∀ a : nat, a ∈ [0; 1] → a ∉ [2].
Proof. intros a Ha. set_solver. Qed.

Lemma lag_store_wf : wf lag_store (mkQueue (Some 0) (Some 0)) [].
Proof.
  exists [0]. split; [|done]. split; simpl.
  - done.
  - by eexists.
  - done.
  - apply NoDup_singleton.
  - constructor.
Qed.

Lemma lagging_store_wf_lag : wf_lag lagging_store (mkQueue (Some 0) (Some 0)) [7].
Proof.
  exists [0; 1]. split.
  - split; simpl.
    + done.
    + by eexists.
    + by split.
    + apply NoDup_cons. split; [set_solver|apply NoDup_singleton].
    + by repeat constructor.
  - right. by exists [], 0, 1.
Qed.

Lemma enqueue_helps_lagging_tail_witness :
  (fresh_alloc bump_alloc ∧ wf_lag lagging_store (mkQueue (Some 0) (Some 0)) [7] ∧
   3 * length (spurious lagging_store) + 2 < 10) ∧
  ∃ q' σ',
    enqueue bump_alloc 10 8 (mkQueue (Some 0) (Some 0)) lagging_store = Done q' σ' ∧
    wf_lag σ' q' ([7] ++ [8]) ∧
    dom (nodes σ') = {[bump_alloc (nodes lagging_store)]} ∪ dom (nodes lagging_store) ∧
    length (spurious σ') ≤ length (spurious lagging_store) ∧
    (quiet lagging_store → quiet σ' ∧ wf σ' q' ([7] ++ [8])).
Proof.
  assert (H3 : 3 * length (spurious lagging_store) + 2 < 10) by (simpl; lia).
  split; [split_and!; [exact bump_alloc_fresh|exact lagging_store_wf_lag|exact H3]|].
  exact (enqueue_helps_lagging_tail id bump_alloc bump_alloc_fresh 10 8 lagging_store
           (mkQueue (Some 0) (Some 0)) [7] lagging_store_wf_lag H3).
Defined.

Lemma empty_iff_no_value_witness :
  sentinel_inv one_queued (mkQueue (Some 0) (Some 1)) [7] ∧
  empty (mkQueue (Some 0) (Some 1)) one_queued
    = Done (bool_decide (length [7] = 0)) one_queued.
Proof.
  split; [exact one_queued_sentinel|].
  exact (empty_iff_no_value one_queued (mkQueue (Some 0) (Some 1)) [7]
           one_queued_sentinel).
Defined.

Lemma destructor_frees_every_node_witness :
  (sentinel one_queued (mkQueue (Some 0) (Some 1)) [0; 1] [7] ∧
   length (spurious one_queued) + length [7] < 5) ∧
  ∃ σ', destroy id 0 5 (mkQueue (Some 0) (Some 1)) one_queued = Done tt σ' ∧
        nodes σ' = without (nodes one_queued) [0; 1].
Proof.
  assert (H2 : length (spurious one_queued) + length [7] < 5) by (simpl; lia).
  split; [split; [exact one_queued_chain|exact H2]|].
  exact (destructor_frees_every_node id 0 one_queued (mkQueue (Some 0) (Some 1))
           [0; 1] [7] 5 one_queued_chain H2).
Defined.

Lemma move_assign_leaks_sentinel_witness :
  (sentinel two_queues (mkQueue (Some 0) (Some 1)) [0; 1] [7] ∧
   sentinel two_queues (mkQueue (Some 2) (Some 2)) [2] [] ∧
   (∀ a : nat, a ∈ [0; 1] → a ∉ [2]) ∧
   length (spurious two_queues) + length [7] < 5 ∧
   length (spurious two_queues) + length (@nil nat) < 5) ∧
  ∃ σ1 σ' l,
    move_assign id 0 5 (mkQueue (Some 0) (Some 1)) (mkQueue (Some 2) (Some 2)) two_queues
      = Done (mkQueue (Some 2) (Some 2), mkQueue None None) σ1 ∧
    sentinel σ1 (mkQueue (Some 2) (Some 2)) [2] [] ∧
    assign_and_destroy id 0 5 (mkQueue (Some 0) (Some 1)) (mkQueue (Some 2) (Some 2))
      two_queues = Done tt σ' ∧
    last [0; 1] = Some l ∧
    is_Some (nodes σ' !! l) ∧
    delete l (nodes σ') = without (nodes two_queues) ([0; 1] ++ [2]).
Proof.
  assert (H4 : length (spurious two_queues) + length [7] < 5) by (simpl; lia).
  assert (H5 : length (spurious two_queues) + length (@nil nat) < 5) by (simpl; lia).
  split; [split_and!; [exact two_queues_first|exact two_queues_second|
                       exact two_queues_apart|exact H4|exact H5]|].
  exact (move_assign_leaks_sentinel id 0 two_queues (mkQueue (Some 0) (Some 1))
           (mkQueue (Some 2) (Some 2)) [0; 1] [7] [2] [] 5
           two_queues_first two_queues_second two_queues_apart H4 H5).
Defined.

Lemma scoped_queue_returns_memory_witness :
  (fresh_alloc bump_alloc ∧ quiet quiet_store ∧ length sample_program + 2 < 10) ∧
  ∃ σ', scoped id 0 bump_alloc 10 sample_program 0 quiet_store
          = Done (run_list sample_program 0 []).1.1 σ' ∧
        nodes σ' = nodes quiet_store.
Proof.
  assert (H2 : quiet quiet_store) by reflexivity.
  assert (H3 : length sample_program + 2 < 10) by (simpl; lia).
  split; [split_and!; [exact bump_alloc_fresh|exact H2|exact H3]|].
  exact (scoped_queue_returns_memory id bump_alloc bump_alloc_fresh 0 sample_program 0 10
           quiet_store H2 H3).
Defined.

Lemma moved_from_queue_witness :
  (0 < 1 ∧ sentinel_inv one_queued (mkQueue (Some 0) (Some 1)) [7]) ∧
  let dst := (move_construct (mkQueue (Some 0) (Some 1))).1 in
  let src := (move_construct (mkQueue (Some 0) (Some 1))).2 in
  sentinel_inv one_queued dst [7] ∧ tail_ dst = Some 1 ∧
  clear id 0 1 src one_queued = Done src one_queued ∧
  destroy id 0 1 src one_queued = Done tt one_queued ∧
  empty src one_queued = Fault ∧
  enqueue bump_alloc 1 9 src one_queued = Fault.
Proof.
  assert (H : 0 < 1) by lia.
  split; [split; [exact H|exact one_queued_sentinel]|].
  exact (moved_from_queue id bump_alloc 0 (mkQueue (Some 0) (Some 1)) 9 1 one_queued [7]
           H one_queued_sentinel).
Defined.

Lemma spurious_tail_failure_dangles_witness :
  (fresh_alloc bump_alloc ∧ wf lag_store (mkQueue (Some 0) (Some 0)) [] ∧
   spurious lag_store = [false; true] ∧ 2 < 5) ∧
  ∃ σ1 q2 σ2 a,
    enqueue bump_alloc 5 1 (mkQueue (Some 0) (Some 0)) lag_store
      = Done (mkQueue (Some 0) (Some 0)) σ1 ∧
    dequeue id 5 0 (mkQueue (Some 0) (Some 0)) σ1 = Done (true, 1, q2) σ2 ∧
    tail_ q2 = Some a ∧
    nodes σ2 !! a = None ∧
    (bump_alloc (nodes σ2) ≠ a → ∀ v', enqueue bump_alloc 5 v' q2 σ2 = Fault).
Proof.
  assert (H3 : spurious lag_store = [false; true]) by reflexivity.
  assert (H4 : 2 < 5) by lia.
  split; [split_and!; [exact bump_alloc_fresh|exact lag_store_wf|exact H3|exact H4]|].
  exact (spurious_tail_failure_dangles id bump_alloc bump_alloc_fresh lag_store
           (mkQueue (Some 0) (Some 0)) 1 0 5 lag_store_wf H3 H4).
Defined.

End LockFreeMemory.

Module PoolFacts.
Import Pool Samples.

Section facts.

Context {U V : Type}.

Implicit Types (w : @world U V) (t : @thread U V) (cfg : @config U V)
  (p : @ThreadPool U V).

Local Open Scope Z_scope.

Lemma invoke_pool (task : @Task U V) w :
  pool (invoke task w).2 = pool w ∧ tally (invoke task w).2 = tally w.
Proof.
  unfold invoke. by destruct (futures w !! fid task) as [[| | |]|].
Qed.

Lemma invoke_std (task : @Task U V) w e w' :
  invoke task w = (Some e, w') → is_std_exception e = true.
Proof.
  unfold invoke. by destruct (futures w !! fid task) as [[| | |]|]; intros [= <- _].
Qed.

Lemma abandon_pool (dummy : option (@Task U V)) w :
  pool (abandon dummy w) = pool w ∧ tally (abandon dummy w) = tally w.
Proof.
  unfold abandon. destruct dummy as [task|]; [|done].
  by destruct (futures w !! fid task) as [[| | |]|].
Qed.

(** How one step moves tasks and the counter: either neither changes, or
    [submit] counts a task in, or a decrement counts one out. *)
Ltac balance d :=
  split_and!;
  [ done
  | first [done | by intros ->]
  | exists d; unfold queued, tally; simpl; rewrite ?length_app; simpl;
    split_and!; [lia | lia | tauto] ].

Lemma thread_step_balance var joined w t w' t' :
  thread_step var joined w t = Some (w', t') →
  wait_for_completion_ (pool w') = wait_for_completion_ (pool w) ∧
  (is_running_ (pool w) = false → is_running_ (pool w') = false) ∧
  ∃ d : Z,
    queued w' + Z.of_nat (holding t') = queued w + Z.of_nat (holding t) + d ∧
    tally w' = tally w + d ∧
    ((d = 0 ∧ task_count_ (pool w') = task_count_ (pool w)) ∨
     (d = 1 ∧ task_count_ (pool w') = fetch_add (task_count_ (pool w))) ∨
     (d = -1 ∧ task_count_ (pool w') = fetch_sub (task_count_ (pool w)))).
Proof.
  destruct t as [pc|pc]; simpl; intros Hstep.
  - destruct pc as [| |ph task|ph task| | |]; simpl in Hstep.
    + (* WCheck *)
      injection Hstep as <- <-. destruct (is_running_ (pool w)); balance 0.
    + (* WPop *)
      destruct w as [[wfc run cnt thr [q]] fut u err sub com dis]. simpl in *.
      destruct q as [|task rest]; injection Hstep as <- <-; balance 0.
    + (* WInvoke *)
      pose proof (invoke_pool task w) as [Hp Ht].
      pose proof (invoke_std task w) as Hstd.
      destruct (invoke task w) as [[e|] w1]; simpl in *.
      * rewrite (Hstd e w1 eq_refl) in Hstep.
        assert (w' = (match var with Locked => log w1 ("Task error: " ++ what e)
                                   | LockFree => w1 end) ∧ t' = Worker (WCount ph task))
          as [-> ->] by (destruct var; by injection Hstep as <- <-).
        assert (pool (match var with Locked => log w1 ("Task error: " ++ what e)
                                   | LockFree => w1 end) = pool w) as Hp'
          by (by destruct var).
        assert (tally (match var with Locked => log w1 ("Task error: " ++ what e)
                                    | LockFree => w1 end) = tally w) as Ht'
          by (by destruct var).
        unfold queued. rewrite Hp', Ht'. split_and!; [done|done|].
        exists 0. simpl. split_and!; [lia|lia|tauto].
      * injection Hstep as <- <-. unfold queued. rewrite Hp, Ht.
        split_and!; [done|done|]. exists 0. simpl. split_and!; [lia|lia|tauto].
    + (* WCount *)
      injection Hstep as <- <-.
      destruct w as [[wfc run cnt thr [q]] fut u err sub com dis].
      destruct ph; balance (-1).
    + (* WAfter *)
      destruct var; injection Hstep as <- <-;
        destruct (wait_for_completion_ (pool w)), (is_running_ (pool w)); balance 0.
    + (* WDrain *)
      destruct w as [[wfc run cnt thr [q]] fut u err sub com dis]. simpl in *.
      destruct q as [|task rest]; injection Hstep as <- <-; balance 0.
    + done.
  - destruct pc as [c|task|task|dummy|task| |wfc|c r]; simpl in Hstep.
    + destruct c as [f|wfc| | | | |i]; simpl in Hstep.
      * (* submit *)
        destruct w as [[wfc run cnt thr [q]] fut u err sub com dis]. simpl in *.
        destruct run; injection Hstep as <- <-; balance 0.
      * (* stop *)
        destruct w as [[wfc' run cnt thr [q]] fut u err sub com dis]. simpl in *.
        destruct run, var, wfc; injection Hstep as <- <-; balance 0.
      * (* wait_all *)
        case_bool_decide; [|done]. injection Hstep as <- <-. balance 0.
      * injection Hstep as <- <-. balance 0.
      * injection Hstep as <- <-. balance 0.
      * injection Hstep as <- <-. balance 0.
      * (* future.get *)
        destruct (futures w !! i) as [[| | |]|]; try done;
          injection Hstep as <- <-; balance 0.
    + (* SubmitCount *)
      injection Hstep as <- <-.
      destruct w as [[wfc run cnt thr [q]] fut u err sub com dis]. balance 1.
    + (* SubmitPush *)
      injection Hstep as <- <-.
      destruct w as [[wfc run cnt thr [q]] fut u err sub com dis]. balance 0.
    + (* StopClear *)
      pose proof (abandon_pool dummy w) as [Hp Ht].
      destruct (Safe.data_ (task_queue_ (pool w))) as [|task rest] eqn:Eq;
        injection Hstep as <- <-.
      * unfold queued. rewrite Hp, Ht. split_and!; [done|done|].
        exists 0. simpl. split_and!; [lia|lia|tauto].
      * unfold queued, tally in *. simpl. rewrite Eq. simpl.
        split_and!; [done|done|]. exists 0. simpl in *.
        split_and!; [lia|lia|tauto].
    + (* StopClearCount *)
      injection Hstep as <- <-.
      destruct w as [[wfc run cnt thr [q]] fut u err sub com dis]. balance (-1).
    + (* StopWait *)
      case_bool_decide; [|done]. injection Hstep as <- <-. balance 0.
    + (* StopJoin *)
      destruct joined; [|done]. injection Hstep as <- <-.
      destruct w as [[wfc' run cnt thr [q]] fut u err sub com dis]. balance 0.
    + done.
Qed.

Lemma sum_list_with_insert {A} (f : A → nat) (l : list A) i x y :
  l !! i = Some x →
  (sum_list_with f (<[i:=y]> l) + f x = sum_list_with f l + f y)%nat.
Proof.
  revert i. induction l as [|a l IH]; intros [|i] Hi; simpl in *; try done.
  - injection Hi as ->. lia.
  - specialize (IH i Hi). lia.
Qed.

Lemma outstanding_step cfg i t w' t' :
  threads cfg !! i = Some t →
  Z.of_nat (outstanding (mkConfig w' (<[i:=t']> (threads cfg))))
  = Z.of_nat (outstanding cfg)
    + (queued w' + Z.of_nat (holding t')) - (queued (shared cfg) + Z.of_nat (holding t)).
Proof.
  intros Hi. unfold outstanding, queued. simpl.
  pose proof (sum_list_with_insert holding (threads cfg) i t t' Hi). lia.
Qed.

Lemma fetch_add_mod (n : Z) :
  fetch_add (n `mod` size_t_max) = (n + 1) `mod` size_t_max.
Proof. unfold fetch_add. by rewrite Zplus_mod_idemp_l. Qed.

Lemma fetch_sub_mod (n : Z) :
  fetch_sub (n `mod` size_t_max) = (n - 1) `mod` size_t_max.
Proof. unfold fetch_sub. by rewrite Zminus_mod_idemp_l. Qed.

Lemma step_inv var i cfg : pool_inv cfg → pool_inv (step var i cfg).
Proof.
  intros [Hflag Hcount Htally]. unfold step.
  destruct (threads cfg !! i) as [t|] eqn:Hi; [|done].
  destruct (thread_step var _ (shared cfg) t) as [[w' t']|] eqn:Hstep; [|done].
  destruct (thread_step_balance _ _ _ _ _ _ Hstep) as (Hf & _ & d & Hbal & Htal & Hcnt).
  pose proof (outstanding_step cfg i t w' t' Hi) as Hout.
  split; simpl.
  - congruence.
  - rewrite Hout.
    destruct Hcnt as [[-> ->]|[[-> ->]|[-> ->]]]; rewrite Hcount.
    + f_equal. lia.
    + rewrite fetch_add_mod. f_equal. lia.
    + rewrite fetch_sub_mod. f_equal. lia.
  - rewrite Hout, Htal, Htally. lia.
Qed.

Lemma run_inv var schedule : ∀ cfg, pool_inv cfg → pool_inv (run var schedule cfg).
Proof.
  induction schedule as [|i schedule IH]; intros cfg Hinv; [done|].
  apply IH. by apply step_inv.
Qed.

Lemma create_inv var n (u : U) (calls : list (@call U V)) cfg :
  create var n u calls = inr cfg → pool_inv cfg.
Proof.
  unfold create. case_bool_decide as Hn; [done|]. intros [= <-]. clear Hn.
  assert (sum_list_with holding
            (replicate n (Worker WCheck) ++ (Caller ∘ Call <$> calls)) = 0%nat) as Hsum.
  { rewrite sum_list_with_app.
    assert (sum_list_with holding (replicate n (@Worker U V WCheck)) = 0%nat) as ->
      by (induction n; simpl; auto).
    by induction calls. }
  split; unfold outstanding; simpl; rewrite ?Hsum; done.
Qed.

Lemma reachable_inv var cfg : reachable var cfg → pool_inv cfg.
Proof.
  intros (n & u & calls & cfg0 & schedule & Hc & ->).
  apply run_inv. by eapply create_inv.
Qed.

Lemma step_stopped var i cfg : is_running cfg = false → is_running (step var i cfg) = false.
Proof.
  intros Hr. unfold step.
  destruct (threads cfg !! i) as [t|] eqn:Hi; [|done].
  destruct (thread_step var _ (shared cfg) t) as [[w' t']|] eqn:Hstep; [|done].
  destruct (thread_step_balance _ _ _ _ _ _ Hstep) as (_ & Hs & _). by apply Hs.
Qed.

Lemma run_stopped var schedule : ∀ cfg,
  is_running cfg = false → is_running (run var schedule cfg) = false.
Proof.
  induction schedule as [|i schedule IH]; intros cfg Hr; [done|].
  apply IH. by apply step_stopped.
Qed.

Lemma run_app var (s1 s2 : list nat) cfg :
  run var (s1 ++ s2) cfg = run var s2 (run var s1 cfg).
Proof. apply foldl_app. Qed.

(** *** The books *)

Lemma is_pending_insert (fut : list (@slot V)) j s i :
  fut !! j = Some Pending → s ≠ Pending →
  (is_pending (<[j:=s]> fut !! i) + (if decide (j = i) then 1 else 0)
   = is_pending (fut !! i))%nat.
Proof.
  intros Hj Hs. case_decide as E.
  - subst i. rewrite list_lookup_insert_eq by (by eapply lookup_lt_Some).
    rewrite Hj. by destruct s.
  - rewrite list_lookup_insert_ne by done. simpl. lia.
Qed.

Lemma is_pending_snoc (fut : list (@slot V)) i :
  is_pending ((fut ++ [Pending]) !! i)
  = (is_pending (fut !! i) + (if decide (length fut = i) then 1 else 0))%nat.
Proof.
  destruct (decide (i < length fut)%nat) as [Hlt|Hge].
  - rewrite lookup_app_l by done. case_decide; lia.
  - rewrite lookup_app_r by lia. rewrite (lookup_ge_None_2 fut i) by lia. simpl.
    case_decide as E.
    + subst i. by rewrite Nat.sub_diag.
    + destruct (i - length fut)%nat as [|k] eqn:Ek; [lia|]. by destruct k.
Qed.

Lemma executed_insert (fut : list (@slot V)) j (r : @result V) :
  fut !! j = Some Pending →
  executed (<[j := slot_of r]> fut) = S (executed fut) ∧
  broken (<[j := slot_of r]> fut) = broken fut.
Proof.
  intros Hj. unfold executed, broken. split.
  - pose proof (sum_list_with_insert
      (λ s : @slot V, match s with Ready _ | Failed _ => 1%nat | _ => 0%nat end)
      fut j Pending (slot_of r) Hj) as H.
    simpl in H. destruct r; simpl in *; lia.
  - pose proof (sum_list_with_insert
      (λ s : @slot V, match s with Broken => 1%nat | _ => 0%nat end)
      fut j Pending (slot_of r) Hj) as H.
    simpl in H. destruct r; simpl in *; lia.
Qed.

Lemma broken_insert (fut : list (@slot V)) j :
  fut !! j = Some Pending →
  executed (<[j := Broken]> fut) = executed fut ∧
  broken (<[j := Broken]> fut) = S (broken fut).
Proof.
  intros Hj. unfold executed, broken. split.
  - pose proof (sum_list_with_insert
      (λ s : @slot V, match s with Ready _ | Failed _ => 1%nat | _ => 0%nat end)
      fut j Pending Broken Hj) as H.
    simpl in H. lia.
  - pose proof (sum_list_with_insert
      (λ s : @slot V, match s with Broken => 1%nat | _ => 0%nat end)
      fut j Pending Broken Hj) as H.
    simpl in H. lia.
Qed.

Lemma executed_snoc (fut : list (@slot V)) :
  executed (fut ++ [Pending]) = executed fut ∧ broken (fut ++ [Pending]) = broken fut.
Proof. unfold executed, broken. rewrite !sum_list_with_app. simpl. lia. Qed.

Lemma invoke_pending (task : @Task U V) w r u' :
  futures w !! fid task = Some Pending →
  fn task (user w) = (r, u') →
  invoke task w
    = (None, mkWorld (pool w) (<[fid task := slot_of r]> (futures w)) u' (cerr w)
                     (submitted w) (completed w) (discarded w)).
Proof. unfold invoke. by intros -> ->. Qed.

(** What one step does to the books, for a thread whose task, if it has
    one waiting to run, has a pending future. *)
Lemma thread_step_books var joined w t w' t' :
  thread_step var joined w t = Some (w', t') →
  (∀ j, (0 < located_at j t)%nat → futures w !! j = Some Pending) →
  (∀ i, (queued_at i (Safe.data_ (task_queue_ (pool w'))) + located_at i t'
         + is_pending (futures w !! i)
         = queued_at i (Safe.data_ (task_queue_ (pool w))) + located_at i t
           + is_pending (futures w' !! i))%nat) ∧
  (length (futures w') + submitted w + creating t
   = length (futures w) + submitted w' + creating t')%nat ∧
  (executed (futures w') + completed w + hooking t
   = executed (futures w) + completed w' + hooking t')%nat ∧
  (broken (futures w') + discarded w + dropping t'
   = broken (futures w) + discarded w' + dropping t)%nat.
Proof.
  destruct t as [pc|pc]; simpl; intros Hstep Hpend.
  - destruct pc as [| |ph task|ph task| | |]; simpl in Hstep.
    + (* WCheck *)
      injection Hstep as <- <-. by destruct (is_running_ (pool w)).
    + (* WPop *)
      destruct w as [[wfc run cnt thr [q]] fut u err sub com dis]. simpl in *.
      destruct q as [|task rest]; injection Hstep as <- <-; [done|].
      split_and!; try done. intros i. simpl. lia.
    + (* WInvoke *)
      assert (futures w !! fid task = Some Pending) as Hp.
      { apply Hpend. rewrite decide_True by done. lia. }
      destruct (fn task (user w)) as [r u'] eqn:Efn.
      rewrite (invoke_pending task w r u' Hp Efn) in Hstep.
      injection Hstep as <- <-. simpl.
      destruct (executed_insert (futures w) (fid task) r Hp) as [He Hb].
      split_and!.
      * intros i.
        pose proof (is_pending_insert (futures w) (fid task) (slot_of r) i Hp) as Hi.
        assert (slot_of r ≠ Pending) as Hne by (by destruct r).
        specialize (Hi Hne). lia.
      * rewrite length_insert. lia.
      * lia.
      * lia.
    + (* WCount *)
      injection Hstep as <- <-. destruct ph; simpl; split_and!; try done; lia.
    + (* WAfter *)
      destruct var; injection Hstep as <- <-;
        by destruct (wait_for_completion_ (pool w)), (is_running_ (pool w)).
    + (* WDrain *)
      destruct w as [[wfc run cnt thr [q]] fut u err sub com dis]. simpl in *.
      destruct q as [|task rest]; injection Hstep as <- <-; [done|].
      split_and!; try done. intros i. simpl. lia.
    + done.
  - destruct pc as [c|task|task|dummy|task| |wfc|c r]; simpl in Hstep.
    + destruct c as [f|wfc| | | | |k]; simpl in Hstep.
      * (* submit *)
        destruct (is_running_ (pool w)); injection Hstep as <- <-; [|done]. simpl.
        destruct (executed_snoc (futures w)) as [He Hb].
        split_and!.
        -- intros i. rewrite is_pending_snoc. lia.
        -- rewrite length_app. simpl. lia.
        -- lia.
        -- lia.
      * (* stop *)
        destruct (is_running_ (pool w)), var, wfc; by injection Hstep as <- <-.
      * case_bool_decide; [|done]. by injection Hstep as <- <-.
      * by injection Hstep as <- <-.
      * by injection Hstep as <- <-.
      * by injection Hstep as <- <-.
      * destruct (futures w !! k) as [[| | |]|]; try done; by injection Hstep as <- <-.
    + (* SubmitCount *)
      injection Hstep as <- <-. simpl. split_and!; try done; lia.
    + (* SubmitPush *)
      injection Hstep as <- <-. simpl. split_and!; try done.
      intros i. unfold queued_at. rewrite sum_list_with_app. simpl. lia.
    + (* StopClear *)
      assert (∃ fut', futures (abandon dummy w) = fut' ∧
                pool (abandon dummy w) = pool w ∧
                submitted (abandon dummy w) = submitted w ∧
                completed (abandon dummy w) = completed w ∧
                discarded (abandon dummy w) = discarded w ∧
                length fut' = length (futures w) ∧
                (∀ i, is_pending (fut' !! i) + located_at i (Caller (StopClear dummy))
                      = is_pending (futures w !! i))%nat ∧
                executed fut' = executed (futures w) ∧
                (broken fut' = broken (futures w) + dropping (Caller (StopClear dummy)))%nat)
        as (fut' & Hf & Hp & Hs & Hc & Hd & Hlen & Hloc & He & Hb).
      { destruct dummy as [k|]; simpl.
        - assert (futures w !! fid k = Some Pending) as Hk.
          { apply Hpend. simpl. rewrite decide_True by done. lia. }
          rewrite Hk. simpl. eexists. split; [done|].
          destruct (broken_insert (futures w) (fid k) Hk) as [He Hb].
          split_and!; try done; try (by rewrite length_insert);
            try (intros i; by apply is_pending_insert); lia.
        - eexists. split; [done|]. split_and!; try done; try intros i; lia. }
      destruct (Safe.data_ (task_queue_ (pool w))) as [|task rest] eqn:Eq;
        injection Hstep as <- <-; simpl; rewrite ?Hf, ?Hp, ?Hs, ?Hc, ?Hd, ?Eq.
      * split_and!; [intros i; specialize (Hloc i); simpl in *; lia|lia|lia|].
        simpl in Hb. lia.
      * split_and!; [intros i; specialize (Hloc i); simpl in *; lia|lia|lia|].
        simpl in Hb. lia.
    + (* StopClearCount *)
      injection Hstep as <- <-. simpl. split_and!; try done; lia.
    + case_bool_decide; [|done]. by injection Hstep as <- <-.
    + destruct joined; [|done]. by injection Hstep as <- <-.
    + done.
Qed.

Lemma step_books var i cfg : accounting cfg → accounting (step var i cfg).
Proof.
  intros [Hloc Hcre Hexe Hbro]. unfold step.
  destruct (threads cfg !! i) as [t|] eqn:Hi; [|done].
  destruct (thread_step var _ (shared cfg) t) as [[w' t']|] eqn:Hstep; [|done].
  assert (∀ j, (0 < located_at j t)%nat → futures (shared cfg) !! j = Some Pending)
    as Hpend.
  { intros j Hj. specialize (Hloc j).
    pose proof (sum_list_with_in t (located_at j) (threads cfg)
                  (list_elem_of_lookup_2 _ _ _ Hi)) as Hle.
    destruct (futures (shared cfg) !! j) as [[| | |]|]; simpl in Hloc; try done; lia. }
  destruct (thread_step_books _ _ _ _ _ _ Hstep Hpend) as (Hl & Hc & He & Hb).
  split; simpl.
  - intros j. specialize (Hloc j). specialize (Hl j).
    pose proof (sum_list_with_insert (located_at j) (threads cfg) i t t' Hi). lia.
  - pose proof (sum_list_with_insert creating (threads cfg) i t t' Hi). lia.
  - pose proof (sum_list_with_insert hooking (threads cfg) i t t' Hi). lia.
  - pose proof (sum_list_with_insert dropping (threads cfg) i t t' Hi). lia.
Qed.

Lemma run_books var schedule : ∀ cfg, accounting cfg → accounting (run var schedule cfg).
Proof.
  induction schedule as [|i schedule IH]; intros cfg Hinv; [done|].
  apply IH. by apply step_books.
Qed.

Lemma sum_list_with_start (f : @thread U V → nat) n (calls : list (@call U V)) :
  f (Worker WCheck) = 0%nat → (∀ c, f (Caller (Call c)) = 0%nat) →
  sum_list_with f (replicate n (Worker WCheck) ++ (Caller ∘ Call <$> calls)) = 0%nat.
Proof.
  intros Hw Hc. rewrite sum_list_with_app.
  assert (sum_list_with f (replicate n (@Worker U V WCheck)) = 0%nat) as ->
    by (induction n; simpl; lia).
  induction calls as [|c calls IH]; simpl in *; [done|]. rewrite Hc. exact IH.
Qed.

Lemma create_books var n (u : U) (calls : list (@call U V)) cfg :
  create var n u calls = inr cfg → accounting cfg.
Proof.
  unfold create. case_bool_decide as Hn; [done|]. intros [= <-]. clear Hn.
  split; simpl; intros; rewrite sum_list_with_start; done.
Qed.

Lemma reachable_books var cfg : reachable var cfg → accounting cfg.
Proof.
  intros (n & u & calls & cfg0 & schedule & Hc & ->).
  apply run_books. by eapply create_books.
Qed.

(** *** The statements of the specification *)

(** C4 (outstanding counter). In every state the [SafeQueue] pool can reach,
    whatever mix of tasks returned, threw or was discarded by [stop(false)]:
    completions and discards never outnumber submissions; their difference
    is the number of tasks still queued or in the hands of a thread;
    [task_count_] is that number (as a [size_t], so modulo [2^64]; exactly,
    as long as fewer than [2^64] tasks are outstanding); and once every
    submitted task has completed or been discarded (equivalently, no task
    is queued or held), [pending_tasks()] reads zero.  The three numbers are
    those of the futures: every future was counted by its [submit] (unless
    that [submit] is just before the increment), the completions are the
    futures whose callable returned or threw (less the workers just before
    the hook), and the discards are the broken promises (plus the closure
    [clear_queue] still holds). *)
Theorem counter_discipline cfg :
  reachable Locked cfg →
  let w := shared cfg in
  (completed w + discarded w ≤ submitted w)%nat ∧
  (submitted w - (completed w + discarded w))%nat = outstanding cfg ∧
  pending_tasks cfg
    = Z.of_nat (submitted w - (completed w + discarded w)) `mod` size_t_max ∧
  0 ≤ pending_tasks cfg ∧
  (Z.of_nat (outstanding cfg) < size_t_max →
   pending_tasks cfg = Z.of_nat (submitted w - (completed w + discarded w))) ∧
  (outstanding cfg = 0%nat → pending_tasks cfg = 0) ∧
  (submitted w = (completed w + discarded w)%nat → pending_tasks cfg = 0) ∧
  length (futures w) = (submitted w + sum_list_with creating (threads cfg))%nat ∧
  executed (futures w) = (completed w + sum_list_with hooking (threads cfg))%nat ∧
  (broken (futures w) + sum_list_with dropping (threads cfg))%nat = discarded w.
Proof.
  intros Hreach. destruct (reachable_inv _ _ Hreach) as [_ Hcount Htally].
  destruct (reachable_books _ _ Hreach) as [_ Hcre Hexe Hbro].
  unfold tally, pending_tasks in *. simpl.
  assert ((submitted (shared cfg) - (completed (shared cfg) + discarded (shared cfg)))%nat
          = outstanding cfg) as Hout by lia.
  split_and!.
  - lia.
  - done.
  - by rewrite Hout.
  - rewrite Hcount. by apply Z.mod_pos_bound.
  - intros Hlt. rewrite Hcount, Hout. apply Z.mod_small. lia.
  - intros Hz. rewrite Hcount, Hz. done.
  - intros Hz. rewrite Hcount, <- Hout, Hz, Nat.sub_diag. done.
  - done.
  - done.
  - done.
Qed.

(** C5 (submission after stop). In either pool, when [is_running()] is
    false a call of [submit] is over after its first step: it throws
    [std::runtime_error] ("ThreadPool is stopped", for the lock-free
    variant "ThreadPool is not running") to the caller, and nothing shared
    changes: no task is queued and [pending_tasks()] reads what it read
    before. *)
Theorem submit_after_stop var cfg i (f : @callable U V) :
  is_running cfg = false →
  threads cfg !! i = Some (Caller (Call (Submit f))) →
  step var i cfg
    = mkConfig (shared cfg)
        (<[i := Caller (Finished (Submit f)
                          (RThrow (runtime_error (stopped_message var))))]> (threads cfg)) ∧
  pending_tasks (step var i cfg) = pending_tasks cfg ∧
  outstanding (step var i cfg) = outstanding cfg.
Proof.
  intros Hr Hi.
  assert (step var i cfg
    = mkConfig (shared cfg)
        (<[i := Caller (Finished (Submit f)
                          (RThrow (runtime_error (stopped_message var))))]> (threads cfg)))
    as Hstep.
  { unfold step. rewrite Hi. simpl. unfold is_running in Hr. by rewrite Hr. }
  rewrite Hstep. split_and!; [done|done|].
  unfold outstanding. simpl. f_equal.
  pose proof (sum_list_with_insert holding (threads cfg) i _
                (Caller (Finished (Submit f)
                   (RThrow (runtime_error (stopped_message var))))) Hi) as Hs.
  simpl in Hs. lia.
Qed.

(** C7 (stop is idempotent). The first step of any [stop] call exchanges
    [is_running_] with [false] in one atomic step.  If the flag was [true],
    this call is the one that stops the pool and goes on to clear, wait or
    join.  If it was already [false], the call returns at once and changes
    nothing, whatever its argument.  Either way [is_running()] is false from
    that step on, whatever the threads do afterwards. *)
Theorem stop_idempotent var cfg i wfc :
  threads cfg !! i = Some (Caller (Call (Stop wfc))) →
  let cfg' := step var i cfg in
  (∀ schedule, is_running (run var schedule cfg') = false) ∧
  (is_running cfg = true →
   ∃ pc, threads cfg' = <[i := Caller pc]> (threads cfg) ∧
         (pc = StopClear None ∨ pc = StopWait ∨ pc = StopJoin false)) ∧
  (is_running cfg = false →
   shared cfg' = shared cfg ∧
   threads cfg' = <[i := Caller (Finished (Stop wfc) RVoid)]> (threads cfg)).
Proof.
  intros Hi. simpl. unfold step. rewrite Hi. simpl.
  destruct cfg as [[[wfc' run cnt thr q] fut u err sub com dis] ths].
  unfold is_running. simpl in *.
  destruct run; simpl.
  - split_and!; [|intros _|done].
    + intros schedule. by apply run_stopped.
    + destruct var, wfc; eexists; (split; [done|]); tauto.
  - split_and!; [|done|done].
    intros schedule. by apply run_stopped.
Qed.

(** C6 (a failing callable), for the [SafeQueue] pool. First, in any state:
    when a worker invokes a task whose callable throws [e], the exception
    is stored in the task's shared state, the worker goes on to the
    completion hook (it neither exits nor lets the exception out, and
    nothing is written to [std::cerr]), and [future.get()] then throws [e].
    Second, a run of a one-worker pool: [f], which throws, is submitted and
    executed, its future rethrows [e]; [g], submitted after that, is
    executed by the same worker and its future delivers what [g] did; the
    pool is still running and nothing is outstanding. *)
Theorem exception_round_trip
    (f g : @callable U V) (e : exn) (u0 u1 u2 : U) (r : result) :
  f u0 = (Threw e, u1) →
  g u1 = (r, u2) →
  (∀ ph w task joined,
     futures w !! fid task = Some Pending →
     fn task (user w) = (Threw e, u1) →
     ∃ w', worker_thread Locked w (WInvoke ph task) = Some (w', WCount ph task) ∧
           futures w' !! fid task = Some (Failed e) ∧
           pool w' = pool w ∧ cerr w' = cerr w ∧
           caller_step Locked joined w' (Call (Get (fid task)))
             = Some (w', Finished (Get (fid task)) (RThrow e))) ∧
  ∃ cfg0, create Locked 1%nat u0 [Submit f; Get 0%nat; Submit g; Get 1%nat] = inr cfg0 ∧
    let cfg := run Locked [1; 1; 1; 0; 0; 0; 0; 2; 3; 3; 3; 0; 0; 0; 0; 4]%nat cfg0 in
    threads cfg = [Worker WCheck;
                   Caller (Finished (Submit f) (RFuture 0%nat));
                   Caller (Finished (Get 0%nat) (RThrow e));
                   Caller (Finished (Submit g) (RFuture 1%nat));
                   Caller (Finished (Get 1%nat) (answer_of r))] ∧
    futures (shared cfg) = [Failed e; slot_of r] ∧
    user (shared cfg) = u2 ∧
    cerr (shared cfg) = [] ∧
    is_running cfg = true ∧
    pending_tasks cfg = 0.
Proof.
  intros Hf Hg. split.
  - intros ph w task joined Hslot Hfn.
    assert (fid task < length (futures w))%nat as Hlt by (by eapply lookup_lt_Some).
    exists (mkWorld (pool w) (<[fid task := Failed e]> (futures w)) u1 (cerr w)
                    (submitted w) (completed w) (discarded w)).
    split_and!; try done.
    + cbn [worker_thread]. by rewrite (invoke_pending _ _ _ _ Hslot Hfn).
    + by apply list_lookup_insert_eq.
    + cbn [caller_step futures]. by rewrite list_lookup_insert_eq.
  - eexists. split; [reflexivity|].
    change [1; 1; 1; 0; 0; 0; 0; 2; 3; 3; 3; 0; 0; 0; 0; 4]%nat
      with ([1; 1; 1; 0; 0; 0; 0] ++ [2; 3; 3; 3; 0; 0; 0; 0] ++ [4])%nat.
    rewrite !run_app.
    set (start := replicate 1 (Worker WCheck) ++
                  (Caller ∘ Call <$> [Submit f; Get 0%nat; Submit g; Get 1%nat])).
    assert (H1 : run Locked [1; 1; 1; 0; 0; 0; 0]%nat
        (mkConfig (mkWorld (mkPool true true 0 1 Safe.create) [] u0 [] 0 0 0) start)
        = mkConfig (mkWorld (mkPool true true 0 1 Safe.create) [Failed e] u1 [] 1 1 0)
            [Worker WCheck; Caller (Finished (Submit f) (RFuture 0%nat));
             Caller (Call (Get 0%nat)); Caller (Call (Submit g)); Caller (Call (Get 1%nat))]).
    { vm_compute; rewrite Hf; reflexivity. }
    rewrite H1. clear H1 start.
    assert (H2 : run Locked [2; 3; 3; 3; 0; 0; 0; 0]%nat
        (mkConfig (mkWorld (mkPool true true 0 1 Safe.create) [Failed e] u1 [] 1 1 0)
            [Worker WCheck; Caller (Finished (Submit f) (RFuture 0%nat));
             Caller (Call (Get 0%nat)); Caller (Call (Submit g)); Caller (Call (Get 1%nat))])
        = mkConfig (mkWorld (mkPool true true 0 1 Safe.create) [Failed e; slot_of r] u2 []
                      2 2 0)
            [Worker WCheck; Caller (Finished (Submit f) (RFuture 0%nat));
             Caller (Finished (Get 0%nat) (RThrow e));
             Caller (Finished (Submit g) (RFuture 1%nat)); Caller (Call (Get 1%nat))]).
    { vm_compute; rewrite Hg; reflexivity. }
    rewrite H2. clear H2.
    destruct r; vm_compute; by split_and!.
Qed.

(** In every state the [SafeQueue] pool can reach, [wait_for_completion_]
    still has the value the constructor gave it: no member function
    assigns it, [stop] only reads its own parameter. *)
Lemma wait_for_completion_constant cfg :
  reachable Locked cfg → wait_for_completion_ (pool (shared cfg)) = true.
Proof. intros Hreach. by destruct (reachable_inv _ _ Hreach). Qed.

(** So a worker that has left the serving loop always enters the drain
    loop, also after [stop(false)]. *)
Lemma worker_always_drains cfg :
  reachable Locked cfg →
  worker_thread Locked (shared cfg) WAfter = Some (shared cfg, WDrain).
Proof.
  intros Hreach. simpl. by rewrite (wait_for_completion_constant _ Hreach).
Qed.

End facts.

(** C3 (abandon mode), evaluated on the code. After [stop(false)] has
    cleared [is_running_], the worker does not exit: it takes the task that
    is still queued and executes it.  [stop] finds nothing left to discard,
    both futures are fulfilled and the user's counter reads 2. *)
Theorem abandon_mode_still_drains :
  create Locked 1 0%nat [Submit (bump 10); Submit (bump 20); Stop false]
    = inr abandon_start ∧
  let before := run Locked (take 9 abandon_schedule) abandon_start in
  let after := run Locked abandon_schedule abandon_start in
  is_running before = false ∧
  Safe.data_ (task_queue_ (pool (shared before))) = [mkTask 1 (bump 20)] ∧
  threads before !! 0%nat = Some (Worker (WInvoke Serving (mkTask 0 (bump 10)))) ∧
  threads before !! 3%nat = Some (Caller (StopClear None)) ∧
  futures (shared after) = [Ready 10%nat; Ready 20%nat] ∧
  user (shared after) = 2%nat ∧
  completed (shared after) = 2%nat ∧
  discarded (shared after) = 0%nat ∧
  threads after !! 0%nat = Some (Worker WExit) ∧
  threads after !! 3%nat = Some (Caller (Finished (Stop false) RVoid)).
Proof. vm_compute. by split_and!. Qed.

Lemma abandon_reachable schedule : reachable Locked (run Locked schedule abandon_start).
Proof.
  exists 1%nat, 0%nat, [Submit (bump 10); Submit (bump 20); Stop false],
    abandon_start, schedule.
  by split.
Qed.

Lemma counter_discipline_witness :
  reachable Locked (run Locked (take 12 abandon_schedule) abandon_start) ∧
  let cfg := run Locked (take 12 abandon_schedule) abandon_start in
  let w := shared cfg in
  (completed w + discarded w ≤ submitted w)%nat ∧
  (submitted w - (completed w + discarded w))%nat = outstanding cfg ∧
  pending_tasks cfg
    = (Z.of_nat (submitted w - (completed w + discarded w)) `mod` size_t_max)%Z ∧
  (0 ≤ pending_tasks cfg)%Z ∧
  ((Z.of_nat (outstanding cfg) < size_t_max)%Z →
   pending_tasks cfg = Z.of_nat (submitted w - (completed w + discarded w))) ∧
  (outstanding cfg = 0%nat → pending_tasks cfg = 0%Z) ∧
  (submitted w = (completed w + discarded w)%nat → pending_tasks cfg = 0%Z) ∧
  length (futures w) = (submitted w + sum_list_with creating (threads cfg))%nat ∧
  executed (futures w) = (completed w + sum_list_with hooking (threads cfg))%nat ∧
  (broken (futures w) + sum_list_with dropping (threads cfg))%nat = discarded w.
Proof.
  split; [apply abandon_reachable|].
  exact (counter_discipline _ (abandon_reachable (take 12 abandon_schedule))).
Defined.

Lemma submit_after_stop_witness :
  (is_running stopped_pool = false ∧
   threads stopped_pool !! 2%nat = Some (Caller (Call (Submit (bump 1))))) ∧
  (step Locked 2 stopped_pool
     = mkConfig (shared stopped_pool)
         (<[2%nat := Caller (Finished (Submit (bump 1))
                           (RThrow (runtime_error "ThreadPool is stopped")))]>
            (threads stopped_pool)) ∧
   pending_tasks (step Locked 2 stopped_pool) = pending_tasks stopped_pool ∧
   outstanding (step Locked 2 stopped_pool) = outstanding stopped_pool).
Proof.
  assert (H1 : is_running stopped_pool = false) by reflexivity.
  assert (H2 : threads stopped_pool !! 2%nat = Some (Caller (Call (Submit (bump 1)))))
    by reflexivity.
  split; [by split|].
  exact (submit_after_stop Locked stopped_pool 2 (bump 1) H1 H2).
Defined.

Lemma stop_idempotent_witness :
  threads stopped_pool !! 3%nat = Some (Caller (Call (Stop true))) ∧
  let cfg' := step Locked 3 stopped_pool in
  (∀ schedule, is_running (run Locked schedule cfg') = false) ∧
  (is_running stopped_pool = true →
   ∃ pc, threads cfg' = <[3%nat := Caller pc]> (threads stopped_pool) ∧
         (pc = StopClear None ∨ pc = StopWait ∨ pc = StopJoin false)) ∧
  (is_running stopped_pool = false →
   shared cfg' = shared stopped_pool ∧
   threads cfg' = <[3%nat := Caller (Finished (Stop true) RVoid)]> (threads stopped_pool)).
Proof.
  assert (H : threads stopped_pool !! 3%nat = Some (Caller (Call (Stop true))))
    by reflexivity.
  split; [exact H|].
  exact (stop_idempotent Locked stopped_pool 3 true H).
Defined.

Lemma exception_round_trip_witness :
  (boom 0%nat = (Threw (runtime_error "Test exception"), 0%nat) ∧
   bump 7 0%nat = (Returned 7%nat, 1%nat)) ∧
  ∃ cfg0, create Locked 1 0%nat [Submit boom; Get 0; Submit (bump 7); Get 1] = inr cfg0 ∧
    let cfg := run Locked [1; 1; 1; 0; 0; 0; 0; 2; 3; 3; 3; 0; 0; 0; 0; 4]%nat cfg0 in
    threads cfg = [Worker WCheck;
                   Caller (Finished (Submit boom) (RFuture 0));
                   Caller (Finished (Get 0) (RThrow (runtime_error "Test exception")));
                   Caller (Finished (Submit (bump 7)) (RFuture 1));
                   Caller (Finished (Get 1) (RValue 7%nat))] ∧
    futures (shared cfg) = [Failed (runtime_error "Test exception"); Ready 7%nat] ∧
    user (shared cfg) = 1%nat ∧
    cerr (shared cfg) = [] ∧
    is_running cfg = true ∧
    pending_tasks cfg = 0%Z.
Proof.
  assert (H1 : boom 0%nat = (Threw (runtime_error "Test exception"), 0%nat))
    by reflexivity.
  assert (H2 : bump 7 0%nat = (Returned 7%nat, 1%nat)) by reflexivity.
  split; [by split|].
  exact (proj2 (exception_round_trip boom (bump 7)
                  (runtime_error "Test exception") 0%nat 0%nat 1%nat (Returned 7%nat)
                  H1 H2)).
Defined.

End PoolFacts.

(** ** More about the pools: what the other member functions guarantee *)

Module PoolMore.
Import Pool Samples PoolFacts.

Section facts.

Context {U V : Type}.

Implicit Types (w : @world U V) (t : @thread U V) (cfg : @config U V)
  (p : @ThreadPool U V).

(** *** What a step does to the futures *)

Lemma invoke_futures (task : @Task U V) w :
  futures (invoke task w).2 = futures w ∨
  ∃ s, s ≠ Pending ∧ futures w !! fid task = Some Pending ∧
       futures (invoke task w).2 = <[fid task := s]> (futures w).
Proof.
  unfold invoke. destruct (futures w !! fid task) as [[| | |]|] eqn:E; simpl; auto.
  right. eexists. split_and!; [|done|done]. by destruct (fn task (user w)).1.
Qed.

Lemma abandon_futures (dummy : option (@Task U V)) w :
  futures (abandon dummy w) = futures w ∨
  ∃ j, futures w !! j = Some Pending ∧
       futures (abandon dummy w) = <[j := Broken]> (futures w).
Proof.
  unfold abandon. destruct dummy as [task|]; [|by left].
  destruct (futures w !! fid task) as [[| | |]|] eqn:E; simpl; auto.
  right. by exists (fid task).
Qed.

(** A step leaves the futures alone, or fills one that was pending, or
    adds a pending one at the end. *)
Lemma thread_step_futures var joined w t w' t' :
  thread_step var joined w t = Some (w', t') →
  futures w' = futures w ∨
  (∃ j s, s ≠ Pending ∧ futures w !! j = Some Pending ∧
          futures w' = <[j := s]> (futures w)) ∨
  futures w' = futures w ++ [Pending].
Proof.
  destruct t as [pc|pc]; simpl; intros Hstep.
  - destruct pc as [| |ph task|ph task| | |]; simpl in Hstep.
    + injection Hstep as <- <-. by left.
    + destruct (Safe.data_ (task_queue_ (pool w))); injection Hstep as <- <-; by left.
    + pose proof (invoke_futures task w) as Hi.
      destruct (invoke task w) as [[e|] w1]; simpl in *.
      * assert (futures w' = futures w1) as ->.
        { destruct var, (is_std_exception e), ph; by injection Hstep as <- <-. }
        destruct Hi as [Hi|(s & ? & ? & ?)]; [by left|right; left; by exists (fid task), s].
      * injection Hstep as <- <-.
        destruct Hi as [Hi|(s & ? & ? & ?)]; [by left|right; left; by exists (fid task), s].
    + injection Hstep as <- <-. by left.
    + destruct var; injection Hstep as <- <-; by left.
    + destruct (Safe.data_ (task_queue_ (pool w))); injection Hstep as <- <-; by left.
    + done.
  - destruct pc as [c|task|task|dummy|task| |wfc|c r]; simpl in Hstep.
    + destruct c as [f|wfc| | | | |k]; simpl in Hstep.
      * destruct (is_running_ (pool w)); injection Hstep as <- <-; [by right; right|by left].
      * destruct (is_running_ (pool w)); injection Hstep as <- <-; by left.
      * case_bool_decide; [|done]. injection Hstep as <- <-. by left.
      * injection Hstep as <- <-. by left.
      * injection Hstep as <- <-. by left.
      * injection Hstep as <- <-. by left.
      * destruct (futures w !! k) as [[| | |]|]; try done; injection Hstep as <- <-; by left.
    + injection Hstep as <- <-. by left.
    + injection Hstep as <- <-. by left.
    + pose proof (abandon_futures dummy w) as Ha.
      assert (futures w' = futures (abandon dummy w)) as ->.
      { destruct (Safe.data_ (task_queue_ (pool w))); by injection Hstep as <- <-. }
      destruct Ha as [Ha|(j & ? & ?)]; [by left|right; left; by exists j, Broken].
    + injection Hstep as <- <-. by left.
    + case_bool_decide; [|done]. injection Hstep as <- <-. by left.
    + destruct joined; [|done]. injection Hstep as <- <-. by left.
    + done.
Qed.

Lemma step_futures var i cfg :
  let fut := futures (shared cfg) in
  let fut' := futures (shared (step var i cfg)) in
  fut' = fut ∨
  (∃ j s, s ≠ Pending ∧ fut !! j = Some Pending ∧ fut' = <[j := s]> fut) ∨
  fut' = fut ++ [Pending].
Proof.
  simpl. unfold step.
  destruct (threads cfg !! i) as [t|] eqn:Hi; [|by left].
  destruct (thread_step var _ (shared cfg) t) as [[w' t']|] eqn:Hstep; [|by left].
  by apply (thread_step_futures _ _ _ _ _ _ Hstep).
Qed.

Lemma run_set_once var schedule : ∀ cfg i s,
  futures (shared cfg) !! i = Some s → s ≠ Pending →
  futures (shared (run var schedule cfg)) !! i = Some s.
Proof.
  induction schedule as [|k schedule IH]; intros cfg i s Hi Hs; [done|].
  apply IH; [|done].
  destruct (step_futures var k cfg) as [->|[(j & s' & _ & Hj & ->)| ->]].
  - done.
  - rewrite list_lookup_insert_ne; [done|]. intros ->. congruence.
  - rewrite lookup_app_l; [done|]. by eapply lookup_lt_Some.
Qed.

(** *** Tasks run once: the error handlers are never entered *)

Lemma sum_list_with_pos {A} (f : A → nat) (l : list A) :
  0 < sum_list_with f l → ∃ x, x ∈ l ∧ 0 < f x.
Proof.
  induction l as [|a l IH]; simpl; [lia|]. intros H.
  destruct (decide (0 < f a)) as [Ha|Ha].
  - exists a. split; [set_solver|done].
  - destruct IH as (x & Hx & Hfx); [lia|]. exists x. split; [set_solver|done].
Qed.

Lemma sum_list_with_zero {A} (f : A → nat) (l : list A) x :
  sum_list_with f l = 0 → x ∈ l → f x = 0.
Proof. intros H Hx. pose proof (sum_list_with_in x f l Hx). lia. Qed.

(** The task a thread is about to run, push or drop has a pending future. *)
Lemma located_pending cfg i t j :
  accounting cfg → threads cfg !! i = Some t → 0 < located_at j t →
  futures (shared cfg) !! j = Some Pending.
Proof.
  intros [Hloc _ _ _] Hi Hj. specialize (Hloc j).
  pose proof (sum_list_with_in t (located_at j) (threads cfg)
                (list_elem_of_lookup_2 _ _ _ Hi)) as Hle.
  destruct (futures (shared cfg) !! j) as [[| | |]|]; simpl in Hloc; try done; lia.
Qed.

Lemma thread_step_quiet var joined w t w' t' :
  thread_step var joined w t = Some (w', t') →
  (∀ j, 0 < located_at j t → futures w !! j = Some Pending) →
  cerr w' = cerr w.
Proof.
  destruct t as [pc|pc]; simpl; intros Hstep Hpend.
  - destruct pc as [| |ph task|ph task| | |]; simpl in Hstep.
    + by injection Hstep as <- <-.
    + destruct (Safe.data_ (task_queue_ (pool w))); by injection Hstep as <- <-.
    + assert (futures w !! fid task = Some Pending) as Hp.
      { apply Hpend. rewrite decide_True by done. lia. }
      destruct (fn task (user w)) as [r u'] eqn:Efn.
      rewrite (invoke_pending task w r u' Hp Efn) in Hstep.
      by injection Hstep as <- <-.
    + by injection Hstep as <- <-.
    + destruct var; by injection Hstep as <- <-.
    + destruct (Safe.data_ (task_queue_ (pool w))); by injection Hstep as <- <-.
    + done.
  - destruct pc as [c|task|task|dummy|task| |wfc|c r]; simpl in Hstep.
    + destruct c as [f|wfc| | | | |k]; simpl in Hstep.
      * destruct (is_running_ (pool w)); by injection Hstep as <- <-.
      * destruct (is_running_ (pool w)); by injection Hstep as <- <-.
      * case_bool_decide; [|done]. by injection Hstep as <- <-.
      * by injection Hstep as <- <-.
      * by injection Hstep as <- <-.
      * by injection Hstep as <- <-.
      * destruct (futures w !! k) as [[| | |]|]; try done; by injection Hstep as <- <-.
    + by injection Hstep as <- <-.
    + by injection Hstep as <- <-.
    + assert (cerr (abandon dummy w) = cerr w) as Ha.
      { unfold abandon. destruct dummy as [k|]; [|done].
        by destruct (futures w !! fid k) as [[| | |]|]. }
      destruct (Safe.data_ (task_queue_ (pool w))); by injection Hstep as <- <-.
    + by injection Hstep as <- <-.
    + case_bool_decide; [|done]. by injection Hstep as <- <-.
    + destruct joined; [|done]. by injection Hstep as <- <-.
    + done.
Qed.

Lemma step_quiet var i cfg :
  accounting cfg → cerr (shared (step var i cfg)) = cerr (shared cfg).
Proof.
  intros Hacc. unfold step.
  destruct (threads cfg !! i) as [t|] eqn:Hi; [|done].
  destruct (thread_step var _ (shared cfg) t) as [[w' t']|] eqn:Hstep; [|done].
  simpl. apply (thread_step_quiet _ _ _ _ _ _ Hstep).
  intros j Hj. by eapply located_pending.
Qed.

Lemma run_quiet var schedule : ∀ cfg,
  accounting cfg → cerr (shared (run var schedule cfg)) = cerr (shared cfg).
Proof.
  induction schedule as [|i schedule IH]; intros cfg Hacc; [done|].
  simpl. rewrite IH by (by apply step_books). by apply step_quiet.
Qed.

(** X10 (error handlers).
    In every state the [SafeQueue] pool can reach, nothing has been
    written to [std::cerr]: a packaged task is invoked once only, it
    stores whatever its callable throws in the shared state, and so no
    exception ever reaches the [catch] clauses of the wrapper or of
    [worker_thread].  Whenever a worker is about to run a task, the future
    of that task is still pending, and the worker goes on to the decrement
    of [task_count_]. *)
Theorem error_handlers_never_run cfg :
  reachable Locked cfg →
  cerr (shared cfg) = [] ∧
  ∀ i ph task, threads cfg !! i = Some (Worker (WInvoke ph task)) →
    futures (shared cfg) !! fid task = Some Pending ∧
    threads (step Locked i cfg) !! i = Some (Worker (WCount ph task)).
Proof.
  intros Hreach. pose proof (reachable_books _ _ Hreach) as Hacc. split.
  - destruct Hreach as (n & u & calls & cfg0 & schedule & Hc & ->).
    rewrite run_quiet by (by eapply create_books).
    unfold create in Hc. case_bool_decide; [done|]. by injection Hc as <-.
  - intros i ph task Hi.
    assert (futures (shared cfg) !! fid task = Some Pending) as Hp.
    { eapply located_pending; [done|exact Hi|]. simpl. rewrite decide_True by done. lia. }
    split; [done|].
    unfold step. rewrite Hi. simpl.
    destruct (fn task (user (shared cfg))) as [r u'] eqn:Efn.
    rewrite (invoke_pending task _ r u' Hp Efn). simpl.
    apply list_lookup_insert_eq. by eapply lookup_lt_Some.
Qed.

(** *** [wait_all] *)

(** X11 ([wait_all]).
    [wait_all()], and the wait inside [stop(true)], on the [SafeQueue]
    pool with fewer than [2^64] tasks outstanding: the caller stays
    blocked as long as a counted task is queued or in the hands of a
    thread.  When it gets through, the queue is empty, and a future that is
    still pending belongs to a [submit] that has not yet incremented the
    counter or to a closure [clear_queue] is about to drop. *)
Theorem wait_all_returns_when_idle cfg i pc :
  reachable Locked cfg →
  threads cfg !! i = Some (Caller pc) →
  pc = Call WaitAll ∨ pc = StopWait →
  (Z.of_nat (outstanding cfg) < size_t_max)%Z →
  (outstanding cfg ≠ 0 → step Locked i cfg = cfg) ∧
  (outstanding cfg = 0 →
   (∃ pc', pc' ≠ pc ∧
           step Locked i cfg = mkConfig (shared cfg) (<[i := Caller pc']> (threads cfg))) ∧
   Safe.data_ (task_queue_ (pool (shared cfg))) = [] ∧
   ∀ j, futures (shared cfg) !! j = Some Pending →
        ∃ k t, threads cfg !! k = Some t ∧ uncounted_at j t = true).
Proof.
  intros Hreach Hi Hpc Hlt.
  destruct (reachable_inv _ _ Hreach) as [_ Hcount _].
  destruct (reachable_books _ _ Hreach) as [Hloc _ _ _].
  rewrite Z.mod_small in Hcount by lia.
  split.
  - intros Hne. unfold step. rewrite Hi.
    destruct Hpc as [-> | ->]; simpl; rewrite bool_decide_eq_false_2; try done; lia.
  - intros Hz. split_and!.
    + unfold step. rewrite Hi.
      destruct Hpc as [-> | ->]; simpl; rewrite bool_decide_eq_true_2 by lia;
        eexists; (split; [|done]); done.
    + unfold outstanding in Hz.
      destruct (Safe.data_ (task_queue_ (pool (shared cfg)))); [done|simpl in Hz; lia].
    + intros j Hj. specialize (Hloc j). rewrite Hj in Hloc. simpl in Hloc.
      unfold outstanding in Hz.
      assert (Safe.data_ (task_queue_ (pool (shared cfg))) = []) as Hq.
      { destruct (Safe.data_ (task_queue_ (pool (shared cfg)))); [done|simpl in Hz; lia]. }
      rewrite Hq in Hloc. simpl in Hloc.
      destruct (sum_list_with_pos (located_at j) (threads cfg)) as (t & Ht & Hpos); [lia|].
      assert (holding t = 0)%nat as Hh.
      { apply (sum_list_with_zero holding (threads cfg)); [lia|done]. }
      apply list_elem_of_lookup in Ht as [k Hk].
      exists k, t. split; [done|].
      destruct t as [[| |ph task|ph task| | |]|[c|task|task|[task|]|task| |wfc|c r]];
        simpl in *; try done; try lia;
        case_decide; try lia; by apply bool_decide_eq_true_2.
Qed.

(** *** Who discards tasks *)

Lemma thread_step_clearing var joined w t w' t' :
  thread_step var joined w t = Some (w', t') →
  clearing var t = false →
  clearing var t' = false ∧ discarded w' = discarded w.
Proof.
  destruct t as [pc|pc]; simpl; intros Hstep Hc.
  - destruct pc as [| |ph task|ph task| | |]; simpl in Hstep.
    + injection Hstep as <- <-. by destruct (is_running_ (pool w)).
    + destruct (Safe.data_ (task_queue_ (pool w))); by injection Hstep as <- <-.
    + assert (discarded (invoke task w).2 = discarded w) as Hd.
      { unfold invoke. by destruct (futures w !! fid task) as [[| | |]|]. }
      destruct (invoke task w) as [[e|] w1]; simpl in *.
      * destruct var, (is_std_exception e), ph; by injection Hstep as <- <-.
      * by injection Hstep as <- <-.
    + injection Hstep as <- <-. by destruct ph.
    + destruct var; injection Hstep as <- <-;
        by destruct (wait_for_completion_ (pool w)), (is_running_ (pool w)).
    + destruct (Safe.data_ (task_queue_ (pool w))); by injection Hstep as <- <-.
    + done.
  - destruct pc as [c|task|task|dummy|task| |wfc|c r]; simpl in Hstep; try done.
    + destruct c as [f|wfc| | | | |k]; simpl in Hstep.
      * destruct (is_running_ (pool w)); by injection Hstep as <- <-.
      * destruct (is_running_ (pool w)), var, wfc; by injection Hstep as <- <-.
      * case_bool_decide; [|done]. by injection Hstep as <- <-.
      * by injection Hstep as <- <-.
      * by injection Hstep as <- <-.
      * by injection Hstep as <- <-.
      * destruct (futures w !! k) as [[| | |]|]; try done; by injection Hstep as <- <-.
    + by injection Hstep as <- <-.
    + by injection Hstep as <- <-.
    + case_bool_decide; [|done]. by injection Hstep as <- <-.
    + destruct joined; [|done]. by injection Hstep as <- <-.
Qed.

Lemma step_clearing var i cfg :
  Forall (λ t, clearing var t = false) (threads cfg) →
  Forall (λ t, clearing var t = false) (threads (step var i cfg)) ∧
  discarded (shared (step var i cfg)) = discarded (shared cfg).
Proof.
  intros Hall. unfold step.
  destruct (threads cfg !! i) as [t|] eqn:Hi; [|done].
  destruct (thread_step var _ (shared cfg) t) as [[w' t']|] eqn:Hstep; [|done].
  destruct (thread_step_clearing _ _ _ _ _ _ Hstep) as [Hc Hd].
  { by apply (Forall_lookup_1 _ _ _ _ Hall Hi). }
  split; [|done]. simpl. by apply Forall_insert.
Qed.

Lemma run_clearing var schedule : ∀ cfg,
  Forall (λ t, clearing var t = false) (threads cfg) →
  discarded (shared (run var schedule cfg)) = discarded (shared cfg).
Proof.
  induction schedule as [|i schedule IH]; intros cfg Hall; [done|].
  destruct (step_clearing var i cfg Hall) as [Hall' Hd].
  simpl. by rewrite IH.
Qed.

(** X12 (who discards).
    In the [SafeQueue] pool only [clear_queue] discards a task, and only
    [stop(false)] calls it.  In a run of that pool in which nobody calls
    [stop(false)], whatever the number of workers and the interleaving, no
    task is counted out without having run and, as long as the pool object
    exists, no promise is broken. *)
Theorem only_stop_false_discards n (u : U) (calls : list (@call U V)) cfg0 schedule :
  create Locked n u calls = inr cfg0 →
  Stop false ∉ calls →
  let cfg := run Locked schedule cfg0 in
  discarded (shared cfg) = 0 ∧ ∀ i, futures (shared cfg) !! i ≠ Some Broken.
Proof.
  intros Hc Hno. simpl.
  assert (reachable Locked (run Locked schedule cfg0)) as Hreach.
  { by exists n, u, calls, cfg0, schedule. }
  destruct (reachable_books _ _ Hreach) as [_ _ _ Hbro].
  assert (discarded (shared (run Locked schedule cfg0)) = 0) as Hd.
  { rewrite run_clearing.
    - unfold create in Hc. case_bool_decide; [done|]. by injection Hc as <-.
    - unfold create in Hc. case_bool_decide; [done|]. injection Hc as <-. simpl.
      apply Forall_app. split.
      + by apply Forall_replicate.
      + apply Forall_fmap, Forall_forall. intros c Hin. simpl.
        destruct c as [f|[|]| | | | |k]; by try done. }
  split; [done|].
  intros i Hi. rewrite Hd in Hbro.
  assert (broken (futures (shared (run Locked schedule cfg0))) = 0) as Hz by lia.
  pose proof (sum_list_with_zero _ _ Broken Hz (list_elem_of_lookup_2 _ _ _ Hi)) as H.
  done.
Qed.

(** *** A running pool has all its workers *)

Lemma thread_step_running var joined w t w' t' :
  thread_step var joined w t = Some (w', t') →
  is_running_ (pool w') = true →
  past_stop t = false →
  is_running_ (pool w) = true ∧
  threads_ (pool w') = threads_ (pool w) ∧
  past_stop t' = false ∧
  (serving t = true → serving t' = true).
Proof.
  destruct t as [pc|pc]; simpl; intros Hstep Hr Hps.
  - destruct pc as [| |ph task|ph task| | |]; simpl in Hstep.
    + injection Hstep as <- <-. by rewrite Hr.
    + destruct w as [[wfc run cnt thr [q]] fut u err sub com dis]. simpl in *.
      destruct q; by injection Hstep as <- <-.
    + pose proof (invoke_pool task w) as [Hp _].
      destruct (invoke task w) as [[e|] w1]; simpl in *.
      * assert (pool w' = pool w ∧ (t' = Worker (WCount ph task) ∨ t' = Worker (resume ph)))
          as [Hp' Ht'].
        { destruct var, (is_std_exception e), ph; injection Hstep as <- <-;
            (split; [done|tauto]). }
        rewrite Hp' in *. split_and!; try done.
        -- by destruct Ht' as [-> | ->]; destruct ph.
        -- by destruct Ht' as [-> | ->]; destruct ph.
      * injection Hstep as <- <-. rewrite Hp in *. by destruct ph.
    + injection Hstep as <- <-.
      destruct w as [[wfc run cnt thr [q]] fut u err sub com dis]. simpl in *.
      by destruct ph.
    + destruct var; injection Hstep as <- <-; split_and!; try done;
        by destruct (wait_for_completion_ (pool w)), (is_running_ (pool w)).
    + destruct w as [[wfc run cnt thr [q]] fut u err sub com dis]. simpl in *.
      destruct q; by injection Hstep as <- <-.
    + done.
  - destruct pc as [c|task|task|dummy|task| |wfc|c r]; simpl in Hstep; try done.
    + destruct c as [f|wfc| | | | |k]; simpl in Hstep.
      * destruct (is_running_ (pool w)) eqn:E; injection Hstep as <- <-;
          simpl in *; [done|congruence].
      * destruct (is_running_ (pool w)) eqn:E; injection Hstep as <- <-;
          simpl in *; congruence.
      * case_bool_decide; [|done]. by injection Hstep as <- <-.
      * by injection Hstep as <- <-.
      * by injection Hstep as <- <-.
      * by injection Hstep as <- <-.
      * destruct (futures w !! k) as [[| | |]|]; try done; by injection Hstep as <- <-.
    + injection Hstep as <- <-.
      by destruct w as [[wfc run cnt thr [q]] fut u err sub com dis].
    + injection Hstep as <- <-.
      by destruct w as [[wfc run cnt thr [q]] fut u err sub com dis].
Qed.

Lemma step_alive var n i cfg :
  (is_running cfg = true →
   threads_ (pool (shared cfg)) = n ∧
   Forall (λ t, past_stop t = false) (threads cfg) ∧
   ∀ k, k < n → ∃ t, threads cfg !! k = Some t ∧ serving t = true) →
  is_running (step var i cfg) = true →
  threads_ (pool (shared (step var i cfg))) = n ∧
  Forall (λ t, past_stop t = false) (threads (step var i cfg)) ∧
  ∀ k, k < n → ∃ t, threads (step var i cfg) !! k = Some t ∧ serving t = true.
Proof.
  intros Hinv Hr.
  assert (is_running cfg = true) as Hr0.
  { destruct (is_running cfg) eqn:E; [done|].
    by rewrite (step_stopped var i cfg E) in Hr. }
  destruct (Hinv Hr0) as (Hn & Hall & Hserv). clear Hinv.
  unfold step in *.
  destruct (threads cfg !! i) as [t|] eqn:Hi; [|done].
  destruct (thread_step var _ (shared cfg) t) as [[w' t']|] eqn:Hstep; [|done].
  simpl in *.
  destruct (thread_step_running _ _ _ _ _ _ Hstep Hr) as (_ & Hthr & Hps & Hsv).
  { by apply (Forall_lookup_1 _ _ _ _ Hall Hi). }
  split_and!.
  - congruence.
  - by apply Forall_insert.
  - intros k Hk. destruct (Hserv k Hk) as (tk & Htk & Hsk).
    destruct (decide (k = i)) as [->|Hne].
    + exists t'. split.
      * apply list_lookup_insert_eq. by eapply lookup_lt_Some.
      * apply Hsv. congruence.
    + exists tk. by rewrite list_lookup_insert_ne.
Qed.

Lemma run_alive var n schedule : ∀ cfg,
  (is_running cfg = true →
   threads_ (pool (shared cfg)) = n ∧
   Forall (λ t, past_stop t = false) (threads cfg) ∧
   ∀ k, k < n → ∃ t, threads cfg !! k = Some t ∧ serving t = true) →
  is_running (run var schedule cfg) = true →
  threads_ (pool (shared (run var schedule cfg))) = n ∧
  Forall (λ t, past_stop t = false) (threads (run var schedule cfg)) ∧
  ∀ k, k < n → ∃ t, threads (run var schedule cfg) !! k = Some t ∧ serving t = true.
Proof.
  induction schedule as [|i schedule IH]; intros cfg Hinv Hr; [by apply Hinv|].
  simpl. apply IH; [|done]. intros Hr'. by apply step_alive.
Qed.

(** X13 (running pool).
    As long as [is_running()] is true, the pool is as [create] made it:
    [thread_count()] is the number of workers asked for, each of them is
    inside the loop that serves the queue (none has left
    [worker_thread]), and no thread is inside [stop]. *)
Theorem running_pool_keeps_workers var n (u : U) (calls : list (@call U V)) cfg0 schedule :
  create var n u calls = inr cfg0 →
  let cfg := run var schedule cfg0 in
  is_running cfg = true →
  threads_ (pool (shared cfg)) = n ∧
  (∀ k, k < n → ∃ t, threads cfg !! k = Some t ∧ serving t = true) ∧
  (∀ t, t ∈ threads cfg → past_stop t = false).
Proof.
  intros Hc. simpl. intros Hr.
  destruct (run_alive var n schedule cfg0) as (Hn & Hall & Hserv); [|done|].
  - intros _. unfold create in Hc. case_bool_decide; [done|]. injection Hc as <-. simpl.
    split_and!; [done| |].
    + apply Forall_app. split; [by apply Forall_replicate|].
      apply Forall_fmap, Forall_forall. by intros c _.
    + intros k Hk. exists (Worker WCheck). split; [|done].
      rewrite lookup_app_l by (by rewrite length_replicate).
      by apply lookup_replicate_2.
  - split_and!; [done|done|]. by apply Forall_forall.
Qed.

(** *** A [submit] that races with [stop(true)] *)

Lemma step_at var cfg i (l1 l2 : list (@thread U V)) t w' t' :
  threads cfg = l1 ++ t :: l2 →
  i = length l1 →
  thread_step var (forallb exited (threads cfg)) (shared cfg) t = Some (w', t') →
  step var i cfg = mkConfig w' (l1 ++ t' :: l2).
Proof.
  intros Hth -> Hstep. unfold step.
  rewrite Hth at 1. rewrite list_lookup_middle by done.
  rewrite Hstep. f_equal. rewrite Hth.
  rewrite insert_app_r_alt by done. by rewrite Nat.sub_diag.
Qed.

Lemma run_cons var i (schedule : list nat) cfg :
  run var (i :: schedule) cfg = run var schedule (step var i cfg).
Proof. done. Qed.

Lemma replicate_snoc_cons {A} (x : A) m l :
  replicate m x ++ x :: l = replicate (S m) x ++ l.
Proof. induction m as [|m IH]; [done|]. simpl. by rewrite IH. Qed.

(** Once the pool is stopped and the queue is empty, each worker that is
    scheduled three times leaves [worker_thread]. *)
Lemma workers_leave var w (rest : list (@thread U V)) :
  is_running_ (pool w) = false →
  wait_for_completion_ (pool w) = true →
  Safe.data_ (task_queue_ (pool w)) = [] →
  ∀ k m,
    run var (flat_map (λ i, [i; i; i]) (seq m k))
        (mkConfig w (replicate m (Worker WExit) ++ replicate k (Worker WCheck) ++ rest))
    = mkConfig w (replicate (m + k) (Worker WExit) ++ rest).
Proof.
  intros Hr Hw Hq. induction k as [|k IH]; intros m.
  - simpl. by rewrite Nat.add_0_r.
  - change (flat_map (λ i, [i; i; i]) (seq m (S k)))
      with ([m; m; m] ++ flat_map (λ i, [i; i; i]) (seq (S m) k)).
    rewrite run_app, !run_cons. change (run var [] ?c) with c.
    change (replicate (S k) (@Worker U V WCheck) ++ rest)
      with (Worker WCheck :: replicate k (@Worker U V WCheck) ++ rest).
    set (l1 := replicate m (@Worker U V WExit)).
    set (l2 := replicate k (@Worker U V WCheck) ++ rest).
    rewrite (step_at var (mkConfig w (l1 ++ Worker WCheck :: l2)) m l1 l2
               (Worker WCheck) w (Worker WAfter)).
    2: done.
    2: by unfold l1; rewrite length_replicate.
    2: { simpl. by rewrite Hr. }
    rewrite (step_at var (mkConfig w (l1 ++ Worker WAfter :: l2)) m l1 l2
               (Worker WAfter) w (Worker WDrain)).
    2: done.
    2: by unfold l1; rewrite length_replicate.
    2: { simpl. rewrite Hr, Hw. by destruct var. }
    rewrite (step_at var (mkConfig w (l1 ++ Worker WDrain :: l2)) m l1 l2
               (Worker WDrain) w (Worker WExit)).
    2: done.
    2: by unfold l1; rewrite length_replicate.
    2: { simpl. by rewrite Hq. }
    unfold l1, l2. rewrite replicate_snoc_cons, IH.
    by replace (S m + k) with (m + S k) by lia.
Qed.

Lemma run_stuck var cfg :
  (∀ t, t ∈ threads cfg →
        thread_step var (forallb exited (threads cfg)) (shared cfg) t = None) →
  ∀ schedule, run var schedule cfg = cfg.
Proof.
  intros Hstuck schedule. induction schedule as [|i schedule IH]; [done|].
  rewrite run_cons.
  assert (step var i cfg = cfg) as ->; [|done].
  unfold step. destruct (threads cfg !! i) as [t|] eqn:Hi; [|done].
  by rewrite (Hstuck t (list_elem_of_lookup_2 _ _ _ Hi)).
Qed.

(** X14 (late [submit]).
    [submit] reads [is_running_] before it counts and pushes its task.  If
    [stop(true)] clears the flag in between and the workers, finding the
    queue empty, leave before the push, the task stays queued with nobody
    to run it: [task_count_] is 1 for good, [wait_all()] inside [stop]
    never gets through, and the future of the task stays pending.  No
    thread can make a step any more. *)
Theorem late_submit_blocks_stop var n (u : U) (f : @callable U V) :
  n ≠ 0 →
  ∃ cfg0, create var n u [Submit f; Stop true] = inr cfg0 ∧
    let cfg := run var (late_submit n) cfg0 in
    threads cfg = replicate n (Worker WExit) ++
                  [Caller (Finished (Submit f) (RFuture 0)); Caller StopWait] ∧
    is_running cfg = false ∧
    pending_tasks cfg = 1%Z ∧
    Safe.data_ (task_queue_ (pool (shared cfg))) = [mkTask 0 f] ∧
    futures (shared cfg) = [Pending] ∧
    user (shared cfg) = u ∧
    ∀ schedule, run var schedule cfg = cfg.
Proof.
  intros Hn. eexists. split.
  { unfold create. by rewrite bool_decide_eq_false_2. }
  set (p0 := mkPool true true 0%Z n (@Safe.create (@Task U V))).
  set (p1 := mkPool true false 0%Z n (@Safe.create (@Task U V))).
  set (task := mkTask 0 f).
  cbn [fmap list_fmap compose].
  unfold late_submit. rewrite !run_app.
  set (ws := replicate n (@Worker U V WCheck)).
  set (xs := replicate n (@Worker U V WExit)).
  assert (length ws = n) as Hws by (by unfold ws; rewrite length_replicate).
  assert (length xs = n) as Hxs by (by unfold xs; rewrite length_replicate).
  assert (run var [n; S n]
            (mkConfig (mkWorld p0 [] u [] 0 0 0)
               (ws ++ [Caller (Call (Submit f)); Caller (Call (Stop true))]))
          = mkConfig (mkWorld p1 [Pending] u [] 0 0 0)
               (ws ++ [Caller (SubmitCount task); Caller StopWait])) as ->.
  { rewrite !run_cons. change (run var [] ?c) with c.
    rewrite (step_at var (mkConfig (mkWorld p0 [] u [] 0 0 0)
                            (ws ++ [Caller (Call (Submit f)); Caller (Call (Stop true))]))
               n ws [Caller (Call (Stop true))]
               (Caller (Call (Submit f))) (mkWorld p0 [Pending] u [] 0 0 0)
               (Caller (SubmitCount task))); [|done|done|done].
    rewrite (step_at var (mkConfig (mkWorld p0 [Pending] u [] 0 0 0)
                            (ws ++ [Caller (SubmitCount task); Caller (Call (Stop true))]))
               (S n) (ws ++ [Caller (SubmitCount task)]) []
               (Caller (Call (Stop true))) (mkWorld p1 [Pending] u [] 0 0 0)
               (Caller StopWait)).
    - by rewrite <- (assoc_L (++)).
    - by rewrite <- (assoc_L (++)).
    - rewrite length_app, Hws. simpl. lia.
    - simpl. by destruct var. }
  pose proof (workers_leave var (mkWorld p1 [Pending] u [] 0 0 0)
                [Caller (SubmitCount task); Caller StopWait] eq_refl eq_refl eq_refl n 0)
    as Hleave.
  cbn [Nat.add replicate app] in Hleave. fold ws xs in Hleave. rewrite Hleave.
  rewrite !run_cons. change (run var [] ?c) with c.
  rewrite (step_at var (mkConfig (mkWorld p1 [Pending] u [] 0 0 0)
                          (xs ++ [Caller (SubmitCount task); Caller StopWait]))
             n xs [Caller StopWait]
             (Caller (SubmitCount task))
             (mkWorld (mkPool true false 1%Z n Safe.create) [Pending] u [] 1 0 0)
             (Caller (SubmitPush task))); [|done|done|done].
  rewrite (step_at var (mkConfig (mkWorld (mkPool true false 1%Z n Safe.create)
                                    [Pending] u [] 1 0 0)
                          (xs ++ [Caller (SubmitPush task); Caller StopWait]))
             n xs [Caller StopWait]
             (Caller (SubmitPush task))
             (mkWorld (mkPool true false 1%Z n (Safe.mkSafeQueue [task])) [Pending] u [] 1 0 0)
             (Caller (Finished (Submit f) (RFuture 0)))); [|done|done|done].
  split_and!; try done.
  apply run_stuck. simpl. intros t Ht.
  apply elem_of_app in Ht as [Ht|Ht].
  - unfold xs in Ht. apply elem_of_replicate in Ht as [-> _]. done.
  - apply elem_of_cons in Ht as [->|Ht]; [done|].
    apply list_elem_of_singleton in Ht as ->. done.
Qed.

(** *** [clear_queue] *)

Lemma abandon_broken (d : @Task U V) w :
  futures w !! fid d = Some Pending →
  abandon (Some d) w
    = mkWorld (pool w) (<[fid d := Broken]> (futures w)) (user w) (cerr w)
              (submitted w) (completed w) (discarded w).
Proof. intros H. unfold abandon. by rewrite H. Qed.

Lemma abandon_rest (dummy : option (@Task U V)) w :
  user (abandon dummy w) = user w ∧ discarded (abandon dummy w) = discarded w ∧
  completed (abandon dummy w) = completed w.
Proof.
  unfold abandon. destruct dummy as [d|]; [|done].
  by destruct (futures w !! fid d) as [[| | |]|].
Qed.

(** The loop of [clear_queue], run without interruption from a state in
    which the books are in order. *)
Lemma clear_queue_run i : ∀ ts cfg dummy,
  accounting cfg →
  threads cfg !! i = Some (Caller (StopClear dummy)) →
  Safe.data_ (task_queue_ (pool (shared cfg))) = ts →
  let cfg' := run Locked (replicate (2 * length ts + 1) i) cfg in
  threads cfg' = <[i := Caller (StopJoin false)]> (threads cfg) ∧
  Safe.data_ (task_queue_ (pool (shared cfg'))) = [] ∧
  (∀ task, task ∈ ts → futures (shared cfg') !! fid task = Some Broken) ∧
  (∀ d, dummy = Some d → futures (shared cfg') !! fid d = Some Broken) ∧
  user (shared cfg') = user (shared cfg) ∧
  discarded (shared cfg') = discarded (shared cfg) + length ts ∧
  completed (shared cfg') = completed (shared cfg) ∧
  is_running cfg' = is_running cfg.
Proof.
  induction ts as [|task rest IH]; intros cfg dummy Hacc Hi Hq.
  - simpl. unfold step. rewrite Hi. simpl. rewrite Hq. simpl.
    destruct (abandon_rest dummy (shared cfg)) as (Hu & Hd & Hc).
    pose proof (abandon_pool dummy (shared cfg)) as [Hp _].
    split_and!.
    + done.
    + by rewrite Hp.
    + intros task Ht. by apply not_elem_of_nil in Ht.
    + intros d ->.
      assert (futures (shared cfg) !! fid d = Some Pending) as Hpend.
      { eapply located_pending; [done|exact Hi|]. simpl. rewrite decide_True by done. lia. }
      rewrite (abandon_broken d _ Hpend). simpl.
      apply list_lookup_insert_eq. by eapply lookup_lt_Some.
    + done.
    + lia.
    + done.
    + unfold is_running. simpl. by rewrite Hp.
  - replace (2 * length (task :: rest) + 1) with (S (S (2 * length rest + 1)))
      by (simpl; lia).
    cbn [replicate]. rewrite !run_cons.
    set (w := shared cfg) in *.
    destruct (abandon_rest dummy w) as (Hu & Hd & Hc).
    pose proof (abandon_pool dummy w) as [Hp _].
    set (w1 := with_pool (abandon dummy w)
                 (with_queue (pool w) (Safe.mkSafeQueue rest))).
    assert (step Locked i cfg
            = mkConfig w1 (<[i := Caller (StopClearCount task)]> (threads cfg))) as Hs1.
    { unfold step. rewrite Hi. simpl. fold w. by rewrite Hq. }
    set (w2 := mkWorld (with_count (pool w1) (fetch_sub (task_count_ (pool w1))))
                 (futures w1) (user w1) (cerr w1)
                 (submitted w1) (completed w1) (S (discarded w1))).
    assert (i < length (threads cfg)) as Hlt by (by eapply lookup_lt_Some).
    assert (step Locked i (step Locked i cfg)
            = mkConfig w2 (<[i := Caller (StopClear (Some task))]> (threads cfg))) as Hs2.
    { rewrite Hs1. unfold step. simpl.
      rewrite list_lookup_insert_eq by done. simpl.
      by rewrite list_insert_insert_eq. }
    pose proof (step_books Locked i _ (step_books Locked i cfg Hacc)) as Hacc2.
    rewrite Hs2 in *.
    destruct (IH _ (Some task) Hacc2) as (Hth & Hq' & Hts & Hdm & Hu' & Hd' & Hc' & Hr').
    { simpl. by apply list_lookup_insert_eq. }
    { done. }
    cbn [threads shared user discarded completed] in Hth, Hu', Hd', Hc'.
    split_and!.
    + rewrite Hth. by rewrite list_insert_insert_eq.
    + done.
    + intros t' Ht'. apply elem_of_cons in Ht' as [->|Ht']; [by apply Hdm|by apply Hts].
    + intros d ->.
      assert (futures w !! fid d = Some Pending) as Hpend.
      { eapply located_pending; [done|exact Hi|]. simpl. rewrite decide_True by done. lia. }
      apply run_set_once; [|done].
      change (futures (abandon (Some d) w) !! fid d = Some Broken).
      rewrite (abandon_broken d _ Hpend). simpl.
      apply list_lookup_insert_eq. by eapply lookup_lt_Some.
    + rewrite Hu'. unfold w1. simpl. done.
    + rewrite Hd'. unfold w1. simpl. rewrite Hd. simpl. lia.
    + rewrite Hc'. unfold w1. simpl. done.
    + rewrite Hr'. by unfold is_running, w1.
Qed.

(** X15 ([clear_queue]).
    [stop(false)] on a running [SafeQueue] pool, when the stopping thread
    is not interrupted between the exchange of [is_running_] and the end
    of [clear_queue]: every task that was queued is taken off the queue
    and counted out, none of them runs, and the promise of each is
    broken, so that [get()] on its future throws [std::future_error]. *)
Theorem stop_false_discards_the_queue cfg i :
  reachable Locked cfg →
  threads cfg !! i = Some (Caller (Call (Stop false))) →
  is_running cfg = true →
  let ts := Safe.data_ (task_queue_ (pool (shared cfg))) in
  let cfg' := run Locked (replicate (2 * length ts + 2) i) cfg in
  threads cfg' = <[i := Caller (StopJoin false)]> (threads cfg) ∧
  is_running cfg' = false ∧
  Safe.data_ (task_queue_ (pool (shared cfg'))) = [] ∧
  user (shared cfg') = user (shared cfg) ∧
  completed (shared cfg') = completed (shared cfg) ∧
  discarded (shared cfg') = discarded (shared cfg) + length ts ∧
  ∀ task, task ∈ ts →
    futures (shared cfg') !! fid task = Some Broken ∧
    ∀ joined, caller_step Locked joined (shared cfg') (Call (Get (fid task)))
      = Some (shared cfg',
              Finished (Get (fid task)) (RThrow (future_error "broken promise"))).
Proof.
  intros Hreach Hi Hr. cbv zeta.
  pose proof (reachable_books _ _ Hreach) as Hacc.
  set (ts := Safe.data_ (task_queue_ (pool (shared cfg)))).
  replace (2 * length ts + 2) with (S (2 * length ts + 1)) by lia.
  cbn [replicate]. rewrite run_cons.
  assert (i < length (threads cfg)) as Hlt by (by eapply lookup_lt_Some).
  set (w1 := with_pool (shared cfg)
               (mkPool (wait_for_completion_ (pool (shared cfg))) false
                       (task_count_ (pool (shared cfg))) (threads_ (pool (shared cfg)))
                       (task_queue_ (pool (shared cfg))))).
  assert (step Locked i cfg
          = mkConfig w1 (<[i := Caller (StopClear None)]> (threads cfg))) as Hs1.
  { unfold step. rewrite Hi. simpl. unfold is_running in Hr. by rewrite Hr. }
  pose proof (step_books Locked i cfg Hacc) as Hacc1. rewrite Hs1 in *.
  destruct (clear_queue_run i ts _ None Hacc1)
    as (Hth & Hq' & Hts & _ & Hu' & Hd' & Hc' & Hr').
  { simpl. by apply list_lookup_insert_eq. }
  { done. }
  cbn [threads shared user discarded completed] in Hth, Hu', Hd', Hc'.
  split_and!; try done.
  - rewrite Hth. by rewrite list_insert_insert_eq.
  - intros task Ht. split; [by apply Hts|].
    intros joined. cbn [caller_step]. by rewrite (Hts task Ht).
Qed.

(** *** One worker, used in an orderly way *)

Lemma count_add (a : nat) :
  fetch_add (Z.of_nat a `mod` size_t_max) = (Z.of_nat (S a) `mod` size_t_max)%Z.
Proof. rewrite fetch_add_mod. f_equal. lia. Qed.

Lemma count_sub (a : nat) :
  fetch_sub (Z.of_nat (S a) `mod` size_t_max) = (Z.of_nat a `mod` size_t_max)%Z.
Proof. rewrite fetch_sub_mod. f_equal. lia. Qed.

(** Threads [m .. m + length fs - 1] call [submit] one after the other. *)
Lemma submits_in_turn var (post : list (@thread U V)) wfc thr (u : U) err com dis :
  ∀ (fs : list (@callable U V)) pre m q fut a sub,
    length pre = m →
    run var (flat_map (λ i, [i; i; i]) (seq m (length fs)))
      (mkConfig
         (mkWorld (mkPool wfc true (Z.of_nat a `mod` size_t_max) thr (Safe.mkSafeQueue q))
                  fut u err sub com dis)
         (pre ++ ((λ f, Caller (Call (Submit f))) <$> fs) ++ post))
    = mkConfig
        (mkWorld (mkPool wfc true (Z.of_nat (a + length fs) `mod` size_t_max) thr
                         (Safe.mkSafeQueue (q ++ tasks_from (length fut) fs)))
                 (fut ++ replicate (length fs) Pending) u err (sub + length fs) com dis)
        (pre ++ submitted_from (length fut) fs ++ post).
Proof.
  induction fs as [|f fs IH]; intros pre m q fut a sub Hm.
  - simpl. by rewrite !Nat.add_0_r, !app_nil_r.
  - change (flat_map (λ i, [i; i; i]) (seq m (length (f :: fs))))
      with ([m; m; m] ++ flat_map (λ i, [i; i; i]) (seq (S m) (length fs))).
    rewrite run_app, !run_cons. change (run var [] ?c) with c.
    cbn [fmap list_fmap app].
    set (l2 := ((λ f, Caller (Call (Submit f))) <$> fs) ++ post).
    set (task := mkTask (length fut) f).
    set (p0 := mkPool wfc true (Z.of_nat a `mod` size_t_max) thr (Safe.mkSafeQueue q)).
    rewrite (step_at var (mkConfig (mkWorld p0 fut u err sub com dis)
                            (pre ++ Caller (Call (Submit f)) :: l2))
               m pre l2 (Caller (Call (Submit f)))
               (mkWorld p0 (fut ++ [Pending]) u err sub com dis)
               (Caller (SubmitCount task))); [|done|done|done].
    rewrite (step_at var (mkConfig (mkWorld p0 (fut ++ [Pending]) u err sub com dis)
                            (pre ++ Caller (SubmitCount task) :: l2))
               m pre l2 (Caller (SubmitCount task))
               (mkWorld (mkPool wfc true (Z.of_nat (S a) `mod` size_t_max) thr
                                (Safe.mkSafeQueue q))
                        (fut ++ [Pending]) u err (S sub) com dis)
               (Caller (SubmitPush task))); [|done|done|].
    2: { simpl. unfold with_count. simpl. by rewrite count_add. }
    rewrite (step_at var (mkConfig
                            (mkWorld (mkPool wfc true (Z.of_nat (S a) `mod` size_t_max) thr
                                             (Safe.mkSafeQueue q))
                                     (fut ++ [Pending]) u err (S sub) com dis)
                            (pre ++ Caller (SubmitPush task) :: l2))
               m pre l2 (Caller (SubmitPush task))
               (mkWorld (mkPool wfc true (Z.of_nat (S a) `mod` size_t_max) thr
                                (Safe.mkSafeQueue (q ++ [task])))
                        (fut ++ [Pending]) u err (S sub) com dis)
               (Caller (Finished (Submit f) (RFuture (length fut))))); [|done|done|done].
    unfold l2.
    rewrite (cons_middle (Caller (Finished (Submit f) (RFuture (length fut))))).
    rewrite (assoc_L (++) pre).
    rewrite (IH (pre ++ [Caller (Finished (Submit f) (RFuture (length fut)))]) (S m)
               (q ++ [task]) (fut ++ [Pending]) (S a) (S sub)).
    2: { rewrite length_app. simpl. lia. }
    rewrite length_app. simpl. rewrite Nat.add_1_r.
    rewrite <- !(assoc_L (++)). simpl.
    by replace (a + S (length fs)) with (S (a + length fs)) by lia;
       replace (sub + S (length fs)) with (S (sub + length fs)) by lia.
Qed.

(** The worker, thread [m], empties the queue in the loop after the
    serving loop. *)
Lemma drains_in_turn var (pre post : list (@thread U V)) m wfc r thr err sub dis :
  length pre = m →
  ∀ (fs : list (@callable U V)) fin (u : U) a com,
    run var (replicate (3 * length fs + 1) m)
      (mkConfig
         (mkWorld (mkPool wfc r (Z.of_nat (a + length fs) `mod` size_t_max) thr
                          (Safe.mkSafeQueue (tasks_from (length fin) fs)))
                  (fin ++ replicate (length fs) Pending) u err sub com dis)
         (pre ++ Worker WDrain :: post))
    = mkConfig
        (mkWorld (mkPool wfc r (Z.of_nat a `mod` size_t_max) thr (Safe.mkSafeQueue []))
                 (fin ++ (slot_of <$> (run_tasks fs u).1)) (run_tasks fs u).2
                 err sub (com + length fs) dis)
        (pre ++ Worker WExit :: post).
Proof.
  intros Hm. induction fs as [|f fs IH]; intros fin u a com.
  - simpl. rewrite !Nat.add_0_r.
    by erewrite (step_at var _ m pre post (Worker WDrain) _ (Worker WExit)).
  - replace (3 * length (f :: fs) + 1) with (S (S (S (3 * length fs + 1))))
      by (simpl; lia).
    cbn [replicate]. rewrite !run_cons.
    cbn [tasks_from length replicate].
    set (task := mkTask (length fin) f).
    set (c1 := (Z.of_nat (a + S (length fs)) `mod` size_t_max)%Z).
    set (futs := fin ++ Pending :: replicate (length fs) Pending).
    set (rest := tasks_from (S (length fin)) fs).
    rewrite (step_at var (mkConfig
                            (mkWorld (mkPool wfc r c1 thr (Safe.mkSafeQueue (task :: rest)))
                                     futs u err sub com dis)
                            (pre ++ Worker WDrain :: post))
               m pre post (Worker WDrain)
               (mkWorld (mkPool wfc r c1 thr (Safe.mkSafeQueue rest)) futs u err sub com dis)
               (Worker (WInvoke Draining task))); [|done|done|done].
    rewrite (step_at var (mkConfig
                            (mkWorld (mkPool wfc r c1 thr (Safe.mkSafeQueue rest))
                                     futs u err sub com dis)
                            (pre ++ Worker (WInvoke Draining task) :: post))
               m pre post (Worker (WInvoke Draining task))
               (mkWorld (mkPool wfc r c1 thr (Safe.mkSafeQueue rest))
                        (fin ++ slot_of (f u).1 :: replicate (length fs) Pending)
                        (f u).2 err sub com dis)
               (Worker (WCount Draining task))); [|done|done|].
    2: { cbn [thread_step worker_thread].
         erewrite (invoke_pending task _ (f u).1 (f u).2).
         - cbn [fmap option_fmap option_map prod_map fst snd id pool futures user cerr
                  submitted completed discarded fid shared].
           unfold futs. rewrite insert_app_r_alt by done.
           by rewrite Nat.sub_diag.
         - cbn [futures fid task shared]. unfold futs. by rewrite list_lookup_middle.
         - cbn [fn user task shared]. by destruct (f u). }
    rewrite (step_at var (mkConfig
                            (mkWorld (mkPool wfc r c1 thr (Safe.mkSafeQueue rest))
                               (fin ++ slot_of (f u).1 :: replicate (length fs) Pending)
                               (f u).2 err sub com dis)
                            (pre ++ Worker (WCount Draining task) :: post))
               m pre post (Worker (WCount Draining task))
               (mkWorld (mkPool wfc r (Z.of_nat (a + length fs) `mod` size_t_max) thr
                                (Safe.mkSafeQueue rest))
                        (fin ++ slot_of (f u).1 :: replicate (length fs) Pending)
                        (f u).2 err sub (S com) dis)
               (Worker WDrain)); [|done|done|].
    2: { cbn [thread_step worker_thread]. unfold with_count, c1. simpl.
         replace (a + S (length fs)) with (S (a + length fs)) by lia.
         by rewrite count_sub. }
    pose proof (IH (fin ++ [slot_of (f u).1]) (f u).2 a (S com)) as IH'.
    rewrite length_app in IH'. cbn [length] in IH'.
    rewrite (Nat.add_1_r (length fin)) in IH'.
    rewrite <- !(assoc_L (++)) in IH'. cbn [app] in IH'.
    unfold rest. rewrite IH'. cbn [run_tasks fst snd fmap list_fmap].
    by replace (com + S (length fs)) with (S (com + length fs)) by lia.
Qed.

Lemma submitted_from_length b (fs : list (@callable U V)) :
  length (submitted_from b fs) = length fs.
Proof. revert b. induction fs as [|f fs IH]; intros b; simpl; [done|]. by rewrite IH. Qed.

Lemma submitted_from_exited b (fs : list (@callable U V)) :
  forallb exited (submitted_from b fs) = true.
Proof. revert b. induction fs as [|f fs IH]; intros b; simpl; [done|]. apply IH. Qed.

Lemma step_blocked var cfg i (l1 l2 : list (@thread U V)) t :
  threads cfg = l1 ++ t :: l2 →
  i = length l1 →
  thread_step var (forallb exited (threads cfg)) (shared cfg) t = None →
  step var i cfg = cfg.
Proof.
  intros Hth -> Hstep. unfold step.
  rewrite Hth at 1. rewrite list_lookup_middle by done. by rewrite Hstep.
Qed.

(** The [submit] calls, the first step of [stop], and the worker's run
    to its exit. *)
Lemma orderly_work var wfc (u : U) (fs : list (@callable U V)) :
  var = LockFree ∨ wfc = true →
  run var (replicate (3 * length fs + 3) 0)
    (run var [S (length fs)]
       (run var (flat_map (λ i, [i; i; i]) (seq 1 (length fs)))
          (mkConfig
             (mkWorld (mkPool true true (Z.of_nat 0 `mod` size_t_max) 1 (Safe.mkSafeQueue []))
                      [] u [] 0 0 0)
             ([Worker WCheck] ++ ((λ f, Caller (Call (Submit f))) <$> fs)
              ++ [Caller (Call (Stop wfc))]))))
  = mkConfig
      (mkWorld (mkPool true false (Z.of_nat 0 `mod` size_t_max) 1 (Safe.mkSafeQueue []))
               (slot_of <$> (run_tasks fs u).1) (run_tasks fs u).2 []
               (length fs) (length fs) 0)
      (Worker WExit :: submitted_from 0 fs ++
       [Caller (if wfc then StopWait else StopJoin false)]).
Proof.
  intros Hmode.
  rewrite (submits_in_turn var [Caller (Call (Stop wfc))] true 1 u [] 0 0
             fs [Worker WCheck] 1 [] [] 0 0 eq_refl).
  cbn [app length Nat.add].
  set (k := length fs). set (subs := submitted_from 0 fs).
  set (pc1 := if wfc then @StopWait U V else StopJoin false).
  rewrite !run_cons. change (run var [] ?c) with c.
  set (c1 := (Z.of_nat k `mod` size_t_max)%Z).
  set (q := Safe.mkSafeQueue (tasks_from 0 fs)).
  set (futs := replicate k (@Pending V)).
  rewrite (step_at var (mkConfig (mkWorld (mkPool true true c1 1 q) futs u [] k 0 0)
                          (Worker WCheck :: subs ++ [Caller (Call (Stop wfc))]))
             (S k) (Worker WCheck :: subs) [] (Caller (Call (Stop wfc)))
             (mkWorld (mkPool true false c1 1 q) futs u [] k 0 0)
             (Caller pc1)).
  2: done.
  2: { simpl. unfold subs. by rewrite submitted_from_length. }
  2: { simpl. unfold pc1. destruct Hmode as [-> | ->]; [by destruct wfc|by destruct var]. }
  replace (3 * k + 3) with (S (S (3 * k + 1))) by lia.
  cbn [replicate]. rewrite !run_cons.
  cbn [app].
  rewrite (step_at var (mkConfig (mkWorld (mkPool true false c1 1 q) futs u [] k 0 0)
                          (Worker WCheck :: subs ++ [Caller pc1]))
             0 [] (subs ++ [Caller pc1]) (Worker WCheck)
             (mkWorld (mkPool true false c1 1 q) futs u [] k 0 0)
             (Worker WAfter)); [|done|done|done].
  cbn [app].
  rewrite (step_at var (mkConfig (mkWorld (mkPool true false c1 1 q) futs u [] k 0 0)
                          (Worker WAfter :: subs ++ [Caller pc1]))
             0 [] (subs ++ [Caller pc1]) (Worker WAfter)
             (mkWorld (mkPool true false c1 1 q) futs u [] k 0 0)
             (Worker WDrain)); [|done|done|by destruct var].
  cbn [app].
  pose proof (drains_in_turn var [] (subs ++ [Caller pc1]) 0 true false 1 [] k 0
                eq_refl fs [] u 0 0) as Hdrain.
  cbn [app length Nat.add] in Hdrain. fold k c1 q futs in Hdrain. by rewrite Hdrain.
Qed.

(** X18 (one worker, in order).
    A pool with one worker on which [fs] are submitted one after the
    other and which is then stopped with [stop(true)], the worker being
    scheduled after that: the callables run in the order of submission,
    each once, on the state the previous one left; each future holds what
    its callable returned or threw; [stop] returns when all have run.
    Afterwards [pending_tasks()] is 0, [is_running()] is false,
    [thread_count()] is 0, the queue is empty and nothing was logged. *)
Theorem single_worker_runs_in_order var (u : U) (fs : list (@callable U V)) :
  ∃ cfg0, create var 1 u ((Submit <$> fs) ++ [Stop true]) = inr cfg0 ∧
    let cfg := run var (orderly (length fs)) cfg0 in
    threads cfg = Worker WExit :: submitted_from 0 fs ++
                  [Caller (Finished (Stop true) RVoid)] ∧
    futures (shared cfg) = slot_of <$> (run_tasks fs u).1 ∧
    user (shared cfg) = (run_tasks fs u).2 ∧
    completed (shared cfg) = length fs ∧
    pending_tasks cfg = 0%Z ∧
    is_running cfg = false ∧
    threads_ (pool (shared cfg)) = 0 ∧
    Safe.data_ (task_queue_ (pool (shared cfg))) = [] ∧
    cerr (shared cfg) = [].
Proof.
  eexists. split; [reflexivity|]. cbv zeta.
  rewrite fmap_app, <- list_fmap_compose.
  set (k := length fs). set (res := run_tasks fs u). set (subs := submitted_from 0 fs).
  set (c0 := (Z.of_nat 0 `mod` size_t_max)%Z).
  set (start := mkConfig (mkWorld (mkPool true true c0 1 (Safe.mkSafeQueue [])) [] u [] 0 0 0)
                  ([Worker WCheck] ++ ((λ f : @callable U V, Caller (Call (Submit f))) <$> fs)
                   ++ [Caller (Call (Stop true))])).
  assert (run var (orderly k) start
          = mkConfig (mkWorld (mkPool true false c0 0 (Safe.mkSafeQueue []))
                        (slot_of <$> res.1) res.2 [] k k 0)
              (Worker WExit :: subs ++ [Caller (Finished (Stop true) RVoid)])) as Hrun.
  { unfold orderly, start. rewrite !run_app. unfold c0, k.
    rewrite (orderly_work var true u fs) by (by right).
    fold k res subs c0. rewrite !run_cons. change (run var [] ?c) with c.
    rewrite (step_at var (mkConfig
                            (mkWorld (mkPool true false c0 1 (Safe.mkSafeQueue []))
                                     (slot_of <$> res.1) res.2 [] k k 0)
                            (Worker WExit :: subs ++ [Caller StopWait]))
               (S k) (Worker WExit :: subs) [] (Caller StopWait)
               (mkWorld (mkPool true false c0 1 (Safe.mkSafeQueue []))
                        (slot_of <$> res.1) res.2 [] k k 0)
               (Caller (StopJoin true))).
    2: done.
    2: { simpl. unfold subs. by rewrite submitted_from_length. }
    2: done.
    rewrite (step_at var (mkConfig
                            (mkWorld (mkPool true false c0 1 (Safe.mkSafeQueue []))
                                     (slot_of <$> res.1) res.2 [] k k 0)
                            (Worker WExit :: subs ++ [Caller (StopJoin true)]))
               (S k) (Worker WExit :: subs) [] (Caller (StopJoin true))
               (mkWorld (mkPool true false c0 0 (Safe.mkSafeQueue []))
                        (slot_of <$> res.1) res.2 [] k k 0)
               (Caller (Finished (Stop true) RVoid))).
    2: done.
    2: { simpl. unfold subs. by rewrite submitted_from_length. }
    2: { cbn [threads shared]. cbn [forallb exited].
         rewrite forallb_app. unfold subs. rewrite submitted_from_exited. done. }
    done. }
  match goal with
  | |- context [run var ?s ?c] => change (run var s c) with (run var (orderly k) start)
  end.
  rewrite Hrun. by split_and!.
Qed.

(** X20 ([stop(false)] of the lock-free pool, one worker, in order).
    A lock-free pool with one worker on which [fs] are submitted one
    after the other and which is then stopped with [stop(false)], the
    worker being scheduled after that (the schedule [orderly], as above).
    [stop] of this pool has no branch for [false], and the worker, once it
    has seen the flag cleared, goes through the queue in the loop after
    its serving loop.  In this run every submitted callable is run, in the
    order of submission, before the worker exits and [stop(false)] returns
    from its [join]; each future holds what its callable returned or
    threw, nothing is discarded, and the count ends at 0. *)
Theorem lock_free_stop_false_single_worker (u : U) (fs : list (@callable U V)) :
  ∃ cfg0, create LockFree 1 u ((Submit <$> fs) ++ [Stop false]) = inr cfg0 ∧
    let cfg := run LockFree (orderly (length fs)) cfg0 in
    threads cfg = Worker WExit :: submitted_from 0 fs ++
                  [Caller (Finished (Stop false) RVoid)] ∧
    futures (shared cfg) = slot_of <$> (run_tasks fs u).1 ∧
    user (shared cfg) = (run_tasks fs u).2 ∧
    completed (shared cfg) = length fs ∧
    discarded (shared cfg) = 0 ∧
    pending_tasks cfg = 0%Z ∧
    is_running cfg = false ∧
    Safe.data_ (task_queue_ (pool (shared cfg))) = [].
Proof.
  eexists. split; [reflexivity|]. cbv zeta.
  rewrite fmap_app, <- list_fmap_compose.
  set (k := length fs). set (res := run_tasks fs u). set (subs := submitted_from 0 fs).
  set (c0 := (Z.of_nat 0 `mod` size_t_max)%Z).
  set (start := mkConfig (mkWorld (mkPool true true c0 1 (Safe.mkSafeQueue [])) [] u [] 0 0 0)
                  ([Worker WCheck] ++ ((λ f : @callable U V, Caller (Call (Submit f))) <$> fs)
                   ++ [Caller (Call (Stop false))])).
  assert (run LockFree (orderly k) start
          = mkConfig (mkWorld (mkPool true false c0 0 (Safe.mkSafeQueue []))
                        (slot_of <$> res.1) res.2 [] k k 0)
              (Worker WExit :: subs ++ [Caller (Finished (Stop false) RVoid)])) as Hrun.
  { unfold orderly, start. rewrite !run_app. unfold c0, k.
    rewrite (orderly_work LockFree false u fs) by (by left).
    fold k res subs c0. rewrite !run_cons. change (run LockFree [] ?c) with c.
    rewrite (step_at LockFree (mkConfig
                            (mkWorld (mkPool true false c0 1 (Safe.mkSafeQueue []))
                                     (slot_of <$> res.1) res.2 [] k k 0)
                            (Worker WExit :: subs ++ [Caller (StopJoin false)]))
               (S k) (Worker WExit :: subs) [] (Caller (StopJoin false))
               (mkWorld (mkPool true false c0 0 (Safe.mkSafeQueue []))
                        (slot_of <$> res.1) res.2 [] k k 0)
               (Caller (Finished (Stop false) RVoid))).
    2: done.
    2: { simpl. unfold subs. by rewrite submitted_from_length. }
    2: { cbn [threads shared]. cbn [forallb exited].
         rewrite forallb_app. unfold subs. rewrite submitted_from_exited. done. }
    apply (step_blocked LockFree _ (S k) (Worker WExit :: subs) []
             (Caller (Finished (Stop false) RVoid))).
    - done.
    - simpl. unfold subs. by rewrite submitted_from_length.
    - done. }
  match goal with
  | |- context [run LockFree ?s ?c] =>
      change (run LockFree s c) with (run LockFree (orderly k) start)
  end.
  rewrite Hrun. by split_and!.
Qed.

End facts.

(** *** Concrete runs *)

Lemma waiting_reachable schedule : reachable Locked (run Locked schedule waiting_start).
Proof.
  exists 1, 0, [Submit (bump 10); WaitAll], waiting_start, schedule.
  by split.
Qed.

Lemma error_handlers_never_run_witness :
  reachable Locked (run Locked (take 7 abandon_schedule) abandon_start) ∧
  let cfg := run Locked (take 7 abandon_schedule) abandon_start in
  cerr (shared cfg) = [] ∧
  ∀ i ph task, threads cfg !! i = Some (Worker (WInvoke ph task)) →
    futures (shared cfg) !! fid task = Some Pending ∧
    threads (step Locked i cfg) !! i = Some (Worker (WCount ph task)).
Proof.
  split; [apply abandon_reachable|].
  exact (error_handlers_never_run _ (abandon_reachable (take 7 abandon_schedule))).
Defined.

Lemma wait_all_returns_when_idle_witness :
  (reachable Locked (run Locked [1; 1; 1; 0; 0; 0; 0] waiting_start) ∧
   threads (run Locked [1; 1; 1; 0; 0; 0; 0] waiting_start) !! 2
     = Some (Caller (Call WaitAll)) ∧
   (@Call nat nat WaitAll = Call WaitAll ∨ @Call nat nat WaitAll = StopWait) ∧
   Z.lt (Z.of_nat (outstanding (run Locked [1; 1; 1; 0; 0; 0; 0] waiting_start)))
        size_t_max) ∧
  let cfg := run Locked [1; 1; 1; 0; 0; 0; 0] waiting_start in
  (outstanding cfg ≠ 0 → step Locked 2 cfg = cfg) ∧
  (outstanding cfg = 0 →
   (∃ pc', pc' ≠ Call WaitAll ∧
           step Locked 2 cfg = mkConfig (shared cfg) (<[2 := Caller pc']> (threads cfg))) ∧
   Safe.data_ (task_queue_ (pool (shared cfg))) = [] ∧
   ∀ j, futures (shared cfg) !! j = Some Pending →
        ∃ k t, threads cfg !! k = Some t ∧ uncounted_at j t = true).
Proof.
  assert (H2 : threads (run Locked [1; 1; 1; 0; 0; 0; 0] waiting_start) !! 2
               = Some (Caller (Call WaitAll))) by reflexivity.
  assert (H3 : @Call nat nat WaitAll = Call WaitAll ∨ @Call nat nat WaitAll = StopWait)
    by (left; reflexivity).
  assert (H4 : Z.lt (Z.of_nat (outstanding (run Locked [1; 1; 1; 0; 0; 0; 0]
                                             waiting_start))) size_t_max)
    by (vm_compute; reflexivity).
  split; [split_and!; [apply waiting_reachable|exact H2|exact H3|exact H4]|].
  exact (wait_all_returns_when_idle _ 2 (Call WaitAll)
           (waiting_reachable [1; 1; 1; 0; 0; 0; 0]) H2 H3 H4).
Defined.

Lemma waiting_calls_keep_tasks : Stop false ∉ [Submit (bump 10); @WaitAll nat nat].
Proof.
  intros H. apply elem_of_cons in H as [H|H]; [done|].
  apply elem_of_cons in H as [H|H]; [done|].
  by apply not_elem_of_nil in H.
Qed.

Lemma only_stop_false_discards_witness :
  (create Locked 1 0 [Submit (bump 10); WaitAll] = inr waiting_start ∧
   Stop false ∉ [Submit (bump 10); @WaitAll nat nat]) ∧
  let cfg := run Locked [1; 1; 1; 0; 0; 0; 0; 2] waiting_start in
  discarded (shared cfg) = 0 ∧ ∀ i, futures (shared cfg) !! i ≠ Some Broken.
Proof.
  assert (H1 : create Locked 1 0 [Submit (bump 10); WaitAll] = inr waiting_start)
    by reflexivity.
  split; [split; [exact H1|exact waiting_calls_keep_tasks]|].
  exact (only_stop_false_discards 1 0 _ waiting_start [1; 1; 1; 0; 0; 0; 0; 2]
           H1 waiting_calls_keep_tasks).
Defined.

Lemma running_pool_keeps_workers_witness :
  (create Locked 1 0 [Submit (bump 10); Submit (bump 20); Stop false] = inr abandon_start ∧
   is_running (run Locked (take 8 abandon_schedule) abandon_start) = true) ∧
  let cfg := run Locked (take 8 abandon_schedule) abandon_start in
  threads_ (pool (shared cfg)) = 1 ∧
  (∀ k, k < 1 → ∃ t, threads cfg !! k = Some t ∧ serving t = true) ∧
  (∀ t, t ∈ threads cfg → past_stop t = false).
Proof.
  assert (H1 : create Locked 1 0 [Submit (bump 10); Submit (bump 20); Stop false]
               = inr abandon_start) by reflexivity.
  assert (H2 : is_running (run Locked (take 8 abandon_schedule) abandon_start) = true)
    by reflexivity.
  split; [by split|].
  exact (running_pool_keeps_workers Locked 1 0 _ abandon_start
           (take 8 abandon_schedule) H1 H2).
Defined.

Lemma late_submit_blocks_stop_witness :
  1 ≠ 0 ∧
  ∃ cfg0, create Locked 1 0 [Submit (bump 10); Stop true] = inr cfg0 ∧
    let cfg := run Locked (late_submit 1) cfg0 in
    threads cfg = replicate 1 (Worker WExit) ++
                  [Caller (Finished (Submit (bump 10)) (RFuture 0)); Caller StopWait] ∧
    is_running cfg = false ∧
    pending_tasks cfg = 1%Z ∧
    Safe.data_ (task_queue_ (pool (shared cfg))) = [mkTask 0 (bump 10)] ∧
    futures (shared cfg) = [Pending] ∧
    user (shared cfg) = 0 ∧
    ∀ schedule, run Locked schedule cfg = cfg.
Proof.
  assert (H : 1 ≠ 0) by lia.
  split; [exact H|].
  exact (late_submit_blocks_stop Locked 1 0 (bump 10) H).
Defined.

Lemma stop_false_discards_the_queue_witness :
  (reachable Locked (run Locked (take 6 abandon_schedule) abandon_start) ∧
   threads (run Locked (take 6 abandon_schedule) abandon_start) !! 3
     = Some (Caller (Call (Stop false))) ∧
   is_running (run Locked (take 6 abandon_schedule) abandon_start) = true) ∧
  let cfg := run Locked (take 6 abandon_schedule) abandon_start in
  let ts := Safe.data_ (task_queue_ (pool (shared cfg))) in
  let cfg' := run Locked (replicate (2 * length ts + 2) 3) cfg in
  threads cfg' = <[3 := Caller (StopJoin false)]> (threads cfg) ∧
  is_running cfg' = false ∧
  Safe.data_ (task_queue_ (pool (shared cfg'))) = [] ∧
  user (shared cfg') = user (shared cfg) ∧
  completed (shared cfg') = completed (shared cfg) ∧
  discarded (shared cfg') = discarded (shared cfg) + length ts ∧
  ∀ task, task ∈ ts →
    futures (shared cfg') !! fid task = Some Broken ∧
    ∀ joined, caller_step Locked joined (shared cfg') (Call (Get (fid task)))
      = Some (shared cfg',
              Finished (Get (fid task)) (RThrow (future_error "broken promise"))).
Proof.
  assert (H2 : threads (run Locked (take 6 abandon_schedule) abandon_start) !! 3
               = Some (Caller (Call (Stop false)))) by reflexivity.
  assert (H3 : is_running (run Locked (take 6 abandon_schedule) abandon_start) = true)
    by reflexivity.
  split; [split_and!; [apply abandon_reachable|exact H2|exact H3]|].
  exact (stop_false_discards_the_queue _ 3
           (abandon_reachable (take 6 abandon_schedule)) H2 H3).
Defined.

End PoolMore.

(** * Part 8: properties of [EventBus] *)

Module BusFacts.
Import Pool Bus Samples.

Section facts.

Context {Event W : Type}.

Implicit Types (bus : EventBus Event W) (h : Handler Event W)
  (hs : list (Handler Event W)) (subs : list (type_index * Handler Event W)).

Lemma subscribe_lookup ty h bus ty' :
  default [] (handlers_ (subscribe ty h bus) !! ty')
  = default [] (handlers_ bus !! ty') ++ (if decide (ty = ty') then [h] else []).
Proof.
  unfold subscribe. simpl. case_decide as E.
  - subst ty'. by rewrite lookup_insert_eq.
  - rewrite lookup_insert_ne by done. by rewrite app_nil_r.
Qed.

Lemma subscribe_all_lookup : ∀ subs bus ty,
  default [] (handlers_ (subscribe_all subs bus) !! ty)
  = default [] (handlers_ bus !! ty) ++ subscribed ty subs.
Proof.
  induction subs as [|[ty' h] subs IH]; intros bus ty.
  - unfold subscribed. simpl. by rewrite app_nil_r.
  - change (subscribe_all ((ty', h) :: subs) bus)
      with (subscribe_all subs (subscribe ty' h bus)).
    rewrite IH, subscribe_lookup. simpl.
    unfold subscribed. rewrite filter_cons. simpl.
    case_decide; simpl; by rewrite <- (assoc_L (++)).
Qed.

Lemma publish_deliver ty (ev : Event) bus (s : W) :
  publish ty ev bus s = deliver (default [] (handlers_ bus !! ty)) ev s.
Proof. unfold publish. by destruct (handlers_ bus !! ty). Qed.

Lemma deliver_app hs1 hs2 (ev : Event) (s s1 : W) :
  deliver hs1 ev s = (None, s1) →
  deliver (hs1 ++ hs2) ev s = deliver hs2 ev s1.
Proof.
  revert s. induction hs1 as [|h hs1 IH]; intros s; simpl.
  - by intros [= ->].
  - destruct (call_handler h ev s) as [[e|] s']; [done|]. apply IH.
Qed.

Lemma subscribed_returning ty (gs : list (type_index * (Event → W → W))) :
  subscribed ty (prod_map id returning <$> gs)
  = returning <$> (snd <$> filter (λ x, x.1 = ty) gs).
Proof.
  unfold subscribed. induction gs as [|[ty0 g] gs IH]; [done|].
  rewrite fmap_cons, !filter_cons. simpl.
  case_decide; simpl; [f_equal|]; exact IH.
Qed.

Lemma deliver_returning (gs : list (Event → W → W)) (ev : Event) : ∀ s : W,
  deliver (returning <$> gs) ev s = (None, foldl (λ s g, g ev s) s gs).
Proof. induction gs as [|g gs IH]; intros s; [done|]. simpl. apply IH. Qed.

(** X16 ([publish]).
    When handlers that return normally have been subscribed, in any order
    and for any types, on a new bus, [publish<EventType>(event)] returns
    normally and has called the handlers subscribed for that very type,
    each once, in the order in which they were subscribed, each on the
    state the one before it left, and no other handler.  In particular it
    does nothing when nothing was subscribed for the type, and a
    subscription for one type does not change what a [publish] of another
    type does. *)
Theorem publish_calls_subscribers_in_order
    (gs : list (type_index * (Event → W → W))) bus ty ty' h (ev : Event) (s : W) :
  publish ty ev (subscribe_all (prod_map id returning <$> gs) empty_bus) s
    = (None, foldl (λ s g, g ev s) s (snd <$> filter (λ x, x.1 = ty) gs)) ∧
  publish ty ev empty_bus s = (None, s) ∧
  (ty' ≠ ty → publish ty ev (subscribe ty' h bus) s = publish ty ev bus s).
Proof.
  split_and!.
  - rewrite publish_deliver, subscribe_all_lookup, subscribed_returning.
    change (default [] (handlers_ empty_bus !! ty)) with (@nil (Handler Event W)).
    cbn [app]. apply deliver_returning.
  - done.
  - intros Hne. rewrite !publish_deliver, subscribe_lookup.
    rewrite decide_False by done. by rewrite app_nil_r.
Qed.

(** X17 (throwing handler).
    An exception thrown by a handler leaves [publish]: the handlers
    subscribed before it have run, those subscribed after it are not
    called.  An empty [std::function] is accepted by [subscribe] and
    throws [std::bad_function_call] when [publish] reaches it. *)
Theorem publish_stops_at_first_exception subs ty hs1 h hs2 (ev : Event) (s s1 s2 : W) e :
  subscribed ty subs = hs1 ++ h :: hs2 →
  deliver hs1 ev s = (None, s1) →
  call_handler h ev s1 = (Some e, s2) →
  publish ty ev (subscribe_all subs empty_bus) s = (Some e, s2) ∧
  (h = None → e = std_exception "bad_function_call" ∧ s2 = s1).
Proof.
  intros Hsub Hpre Hthrow. split.
  - rewrite publish_deliver, subscribe_all_lookup, Hsub.
    change (default [] (handlers_ empty_bus !! ty)) with (@nil (Handler Event W)).
    cbn [app]. rewrite (deliver_app _ _ _ _ _ Hpre). cbn [deliver]. by rewrite Hthrow.
  - intros ->. simpl in Hthrow. by injection Hthrow as <- <-.
Qed.

End facts.

Lemma publish_stops_at_first_exception_witness :
  (subscribed 1 [(1, add 2); (0, add 5); (1, fail); (1, add 3)] = [add 2] ++ fail :: [add 3] ∧
   deliver [add 2] 10 0 = (None, 20) ∧
   call_handler fail 10 20 = (Some (runtime_error "handler failed"), 20)) ∧
  publish 1 10 (subscribe_all [(1, add 2); (0, add 5); (1, fail); (1, add 3)] empty_bus) 0
    = (Some (runtime_error "handler failed"), 20) ∧
  (fail = None → runtime_error "handler failed" = std_exception "bad_function_call" ∧
                 20 = 20).
Proof.
  assert (H1 : subscribed 1 [(1, add 2); (0, add 5); (1, fail); (1, add 3)]
               = [add 2] ++ fail :: [add 3]) by reflexivity.
  assert (H2 : deliver [add 2] 10 0 = (None, 20)) by reflexivity.
  assert (H3 : call_handler fail 10 20 = (Some (runtime_error "handler failed"), 20))
    by reflexivity.
  split; [by split_and!|].
  exact (publish_stops_at_first_exception
           [(1, add 2); (0, add 5); (1, fail); (1, add 3)] 1 [add 2] fail [add 3]
           10 0 20 20 (runtime_error "handler failed") H1 H2 H3).
Defined.

End BusFacts.
